(** * SCTE-35 marker inserter for HLS streams: a shallow embedding

    The development follows [scte35_inserter.py]:

    - [StreamConfig], [SCTE35Marker], the playlist snapshot ([M3U8],
      [Segment]) and the per-stream worker [HLSProcessor];
    - the ad-break state machine [_process_playlist_for_markers] with its
      two helpers [_insert_cue_out] and [_insert_cue_in];
    - the playlist writer [_save_playlist] and its EXTINF rewriting;
    - the segment synchroniser [_process_segments] and the pruning step
      [_cleanup_old_segments] over a model of the output directory;
    - one iteration of the worker loop [process_stream];
    - the registry [StreamManager] with [add_stream] and [remove_stream],
      its views [get_stream_status] and [list_streams], and the loop of
      the main program that registers the saved streams again.

    Calls into the outside world are given by their outcome: the clock
    readings, the fetch, [mkdir] and [write_text], the downloads, the
    encoder of the markers ([call_once]), the test [exists]
    ([_process_segments_stat]), the start of a thread and the opening of
    [streams.json] ([registry]).

    Python objects mutated in place are modelled by explicit state passing:
    every method takes the object ([self], the playlist, the directory) and
    returns the updated one.  Exceptions are values of [result]. *)

From Stdlib Require Import ZArith QArith Qabs Ascii DecimalString DecimalPos.
From stdpp Require Import gmap strings list.
From Equations Require Import Equations.

Local Open Scope Z_scope.

(** ** Exceptions *)

Inductive exn :=
| TypeError
| KeyError
| OverflowError
| PermissionError
| OtherError.

Inductive result (A : Type) :=
| Ok (a : A)
| Raise (e : exn).
Arguments Ok {A} a.
Arguments Raise {A} e.

(** ** Wall-clock values

    [time.time()] returns a Python float.  The state machine only adds an
    integer to a reading, subtracts two readings, compares, scales and
    truncates; these operations are kept abstract in a class, so that the
    theorems on the state machine hold whatever the float arithmetic does.
    [QClock] instantiates it with exact rationals for concrete runs. *)

Class Clock (T : Type) := {
  t_add_int : T -> Z -> T;      (* float + int *)
  t_sub : T -> T -> T;          (* float - float *)
  t_mul_int : T -> Z -> T;      (* float * int *)
  t_geb : T -> T -> bool;       (* float >= float *)
  t_geb_int : T -> Z -> bool;   (* float >= int *)
  t_int : T -> Z                (* int(float) *)
}.

Definition Qtrunc (q : Q) : Z := Z.quot (Qnum q) (Z.pos (Qden q)).

#[export] Instance QClock : Clock Q := {
  t_add_int q z := Qplus q (inject_Z z);
  t_sub := Qminus;
  t_mul_int q z := Qmult q (inject_Z z);
  t_geb a b := Qle_bool b a;
  t_geb_int a z := Qle_bool (inject_Z z) a;
  t_int := Qtrunc
}.

(** ** Configuration and data *)

Record StreamConfig := {
  stream_id : string;
  input_url : string;
  output_path : string;
  ad_duration : Z;
  ad_interval : Z;
  enabled : bool
}.

Inductive cue_kind :=
| CueOut   (* 0x34, Provider Placement Opportunity Start *)
| CueIn.   (* 0x35, Provider Placement Opportunity End *)

Section StateMachine.

Context {T : Type} `{Clock T}.

(** The marker as the dataclass holds it.  [event_id] is declared [int],
    but [_insert_cue_in] passes [self.ad_break_event_id], which is
    [Optional[int]]: the field is an [option]. *)
Record SCTE35Marker := {
  pts : T;
  duration : Z;
  event_id : option Z
}.

(** A custom tag of a segment.  [Scte35Tag k m] stands for the line
    [#EXT-X-SCTE35:CUE="..."] whose payload is the base64 encoding of [m]
    as a cue of kind [k] (the encoding itself is done by the threefive
    library); [CueInTag] is the line [#EXT-X-CUE-IN]. *)
Inductive tag :=
| Scte35Tag (k : cue_kind) (m : SCTE35Marker)
| CueInTag.

Record Segment := {
  uri : string;
  absolute_uri : string;
  custom_tags : list tag
}.

Record M3U8 := {
  segments : list Segment;
  target_duration : option T
}.

Definition with_custom_tags (seg : Segment) (tags : list tag) : Segment :=
  {| uri := uri seg; absolute_uri := absolute_uri seg; custom_tags := tags |}.

Definition with_segments (playlist : M3U8) (segs : list Segment) : M3U8 :=
  {| segments := segs; target_duration := target_duration playlist |}.

(** [segments[-1].custom_tags.append(t1); segments[-1].custom_tags.append(t2)]
    on a list of segments. *)
Fixpoint append_to_last (segs : list Segment) (new : list tag) : list Segment :=
  match segs with
  | [] => []
  | [seg] => [with_custom_tags seg (custom_tags seg ++ new)]
  | seg :: rest => seg :: append_to_last rest new
  end.

(** The worker object. *)
Record HLSProcessor := {
  config : StreamConfig;
  running : bool;
  segments_processed : Z;
  _stop_event : bool;
  in_ad_break : bool;
  ad_break_event_id : option Z;
  ad_break_start_time : option T;
  next_marker_time : T
}.

(** The worker that [HLSProcessor.__init__] leaves when it returns; [now]
    is the reading of [time.time()]. *)
Definition HLSProcessor_init (cfg : StreamConfig) (now : T) : HLSProcessor :=
  {| config := cfg;
     running := false;
     segments_processed := 0;
     _stop_event := false;
     in_ad_break := false;
     ad_break_event_id := None;
     ad_break_start_time := None;
     next_marker_time := t_add_int now (ad_interval cfg) |}.

(** [x + n] with a float [x] and an integer [n] first turns [n] into a
    float, and that raises [OverflowError] ("int too large to convert to
    float") when [n], rounded to 53 bits, reaches [2 ^ 1024] in absolute
    value: from [2 ^ 1024 - 2 ^ 970] on. *)
Definition int_fits_float (n : Z) : bool := Z.abs n <? 2 ^ 1024 - 2 ^ 970.

(** The constructor call [HLSProcessor(config)]: the last assignment,
    [time.time() + config.ad_interval], may raise. *)
Definition HLSProcessor_new (cfg : StreamConfig) (now : T)
  : result HLSProcessor :=
  if int_fits_float (ad_interval cfg) then Ok (HLSProcessor_init cfg now)
  else Raise OverflowError.

Definition set_ad_break_event_id (self : HLSProcessor) (v : option Z) : HLSProcessor :=
  {| config := config self; running := running self;
     segments_processed := segments_processed self;
     _stop_event := _stop_event self;
     in_ad_break := in_ad_break self;
     ad_break_event_id := v;
     ad_break_start_time := ad_break_start_time self;
     next_marker_time := next_marker_time self |}.

(** The four assignments that leave the break, after [_insert_cue_in]. *)
Definition leave_ad_break (self : HLSProcessor) (current_time : T) : HLSProcessor :=
  {| config := config self; running := running self;
     segments_processed := segments_processed self;
     _stop_event := _stop_event self;
     in_ad_break := false;
     ad_break_event_id := None;
     ad_break_start_time := None;
     next_marker_time := t_add_int current_time (ad_interval (config self)) |}.

(** The two assignments that enter the break, after [_insert_cue_out]. *)
Definition enter_ad_break (self : HLSProcessor) (current_time : T) : HLSProcessor :=
  {| config := config self; running := running self;
     segments_processed := segments_processed self;
     _stop_event := _stop_event self;
     in_ad_break := true;
     ad_break_event_id := ad_break_event_id self;
     ad_break_start_time := Some current_time;
     next_marker_time := next_marker_time self |}.

(** What one call does that an observer can see: which branch announced a
    marker (the [logger.info] line "Insertando CUE-...") and which tags
    were put on the playlist, in program order. *)
Inductive event :=
| Attempt (k : cue_kind)
| Inserted (t : tag).

(** The successive readings of [time.time()] during one call of
    [_process_playlist_for_markers]: the first is [current_time], the
    others are read inside the insert helper ([pts], then [event_id]). *)
Record ticks := {
  tick_now : T;
  tick_pts : T;
  tick_id : T
}.

(** The two insert helpers, when the encoder of the marker returns.  What
    a raising encoder leaves is in [call_once] below. *)
Definition _insert_cue_out (self : HLSProcessor) (playlist : M3U8) (tk : ticks)
  : HLSProcessor * M3U8 * list event :=
  match segments playlist with
  | [] => (self, playlist, [])
  | seg0 :: rest =>
      let pts := t_mul_int (tick_pts tk) 90000 in
      let event_id := t_int (tick_id tk) in
      let self := set_ad_break_event_id self (Some event_id) in
      let marker := {| pts := pts;
                       duration := ad_duration (config self);
                       event_id := Some event_id |} in
      let scte35_tag := Scte35Tag CueOut marker in
      (self,
       with_segments playlist
         (with_custom_tags seg0 (scte35_tag :: custom_tags seg0) :: rest),
       [Inserted scte35_tag])
  end.

Definition _insert_cue_in (self : HLSProcessor) (playlist : M3U8) (tk : ticks)
  : M3U8 * list event :=
  match segments playlist with
  | [] => (playlist, [])
  | _ :: _ =>
      let pts := t_mul_int (tick_pts tk) 90000 in
      let marker := {| pts := pts;
                       duration := ad_duration (config self);
                       event_id := ad_break_event_id self |} in
      let scte35_tag := Scte35Tag CueIn marker in
      let cue_in_tag := CueInTag in
      (with_segments playlist
         (append_to_last (segments playlist) [scte35_tag; cue_in_tag]),
       [Inserted scte35_tag; Inserted cue_in_tag])
  end.

(** [current_time - self.ad_break_start_time] raises [TypeError] when the
    start time is [None]. *)
Definition _process_playlist_for_markers
    (self : HLSProcessor) (playlist : M3U8) (tk : ticks)
  : result (HLSProcessor * M3U8 * list event) :=
  let current_time := tick_now tk in
  if in_ad_break self then
    match ad_break_start_time self with
    | None => Raise TypeError
    | Some start =>
        let time_in_break := t_sub current_time start in
        if t_geb_int time_in_break (ad_duration (config self)) then
          let '(playlist, evs) := _insert_cue_in self playlist tk in
          Ok (leave_ad_break self current_time, playlist, Attempt CueIn :: evs)
        else Ok (self, playlist, [])
    end
  else
    if t_geb current_time (next_marker_time self) then
      let '(self, playlist, evs) := _insert_cue_out self playlist tk in
      Ok (enter_ad_break self current_time, playlist, Attempt CueOut :: evs)
    else Ok (self, playlist, []).

(** A sequence of polls, for an encoder that returns and a worker whose
    [ad_interval] the constructor accepted: the only exception left is
    the [TypeError] above, raised before anything is assigned.  The calls
    with an encoder that may raise follow below ([call_once]). *)
Record poll := {
  poll_before : HLSProcessor;
  poll_playlist : M3U8;
  poll_ticks : ticks;
  poll_after : HLSProcessor;
  poll_out : M3U8;
  poll_events : list event
}.

Definition poll_once (self : HLSProcessor) (playlist : M3U8) (tk : ticks) : poll :=
  match _process_playlist_for_markers self playlist tk with
  | Ok (self', playlist', evs) =>
      {| poll_before := self; poll_playlist := playlist; poll_ticks := tk;
         poll_after := self'; poll_out := playlist'; poll_events := evs |}
  | Raise _ =>
      {| poll_before := self; poll_playlist := playlist; poll_ticks := tk;
         poll_after := self; poll_out := playlist; poll_events := [] |}
  end.

Fixpoint polls (self : HLSProcessor) (inputs : list (M3U8 * ticks)) : list poll :=
  match inputs with
  | [] => []
  | (playlist, tk) :: inputs =>
      let p := poll_once self playlist tk in
      p :: polls (poll_after p) inputs
  end.

(** *** The marker step with an encoder that may raise

    [encode_out_as_base64] and [encode_in_as_base64] build the cue with
    the threefive library.  [enc] is what that call does during the step:
    [None] when it returns, [Some e] when it raises [e].  The helper makes
    the call only on a snapshot with segments; [_insert_cue_out] has
    assigned [self.ad_break_event_id] by then, the tags are put on the
    playlist after it, and the phase is changed after the helper.  The
    exception leaves [_process_playlist_for_markers] and is caught by the
    worker loop.  Leaving a break ends with
    [current_time + self.config.ad_interval], which raises
    [OverflowError] for an [ad_interval] that does not fit a float, the
    three assignments before it being made. *)
Record marker_call := {
  call_before : HLSProcessor;
  call_playlist : M3U8;
  call_ticks : ticks;
  call_encoder : option exn;
  call_after : HLSProcessor;     (* when the call ends, either way *)
  call_out : M3U8;
  call_events : list event;
  call_raised : option exn
}.

(** The three assignments of [leave_ad_break] that precede the last. *)
Definition leave_ad_break_partly (self : HLSProcessor) : HLSProcessor :=
  {| config := config self; running := running self;
     segments_processed := segments_processed self;
     _stop_event := _stop_event self;
     in_ad_break := false;
     ad_break_event_id := None;
     ad_break_start_time := None;
     next_marker_time := next_marker_time self |}.

Definition call_once (self : HLSProcessor) (playlist : M3U8) (tk : ticks)
    (enc : option exn) : marker_call :=
  let ended self' playlist' evs raised :=
    {| call_before := self; call_playlist := playlist; call_ticks := tk;
       call_encoder := enc; call_after := self'; call_out := playlist';
       call_events := evs; call_raised := raised |} in
  let current_time := tick_now tk in
  if in_ad_break self then
    match ad_break_start_time self with
    | None => ended self playlist [] (Some TypeError)
    | Some start =>
        if t_geb_int (t_sub current_time start) (ad_duration (config self))
        then
          match segments playlist, enc with
          | _ :: _, Some e => ended self playlist [Attempt CueIn] (Some e)
          | _, _ =>
              let '(playlist', evs) := _insert_cue_in self playlist tk in
              if int_fits_float (ad_interval (config self)) then
                ended (leave_ad_break self current_time) playlist'
                  (Attempt CueIn :: evs) None
              else
                ended (leave_ad_break_partly self) playlist'
                  (Attempt CueIn :: evs) (Some OverflowError)
          end
        else ended self playlist [] None
    end
  else
    if t_geb current_time (next_marker_time self) then
      match segments playlist, enc with
      | _ :: _, Some e =>
          ended (set_ad_break_event_id self (Some (t_int (tick_id tk))))
            playlist [Attempt CueOut] (Some e)
      | _, _ =>
          let '(self', playlist', evs) := _insert_cue_out self playlist tk in
          ended (enter_ad_break self' current_time) playlist'
            (Attempt CueOut :: evs) None
      end
    else ended self playlist [] None.

(** A sequence of calls; each input carries what the encoder does. *)
Fixpoint calls (self : HLSProcessor)
    (inputs : list (M3U8 * ticks * option exn)) : list marker_call :=
  match inputs with
  | [] => []
  | (playlist, tk, enc) :: inputs =>
      let c := call_once self playlist tk enc in
      c :: calls (call_after c) inputs
  end.

End StateMachine.

(** ** The EXTINF rewriting of [_save_playlist]

    [re.sub(r"#EXTINF:([0-9]+(?:\.[0-9]+)?),", repl, text)] with
    [repl = lambda m: f"#EXTINF:{int(round(float(m.group(1))))},"].

    The text is a [string] of 8-bit characters.  The pattern is made of
    ASCII characters only, so matching the UTF-8 bytes of a Python [str]
    gives the same matches as matching its code points. *)

Definition is_digit (c : ascii) : bool :=
  let n := N_of_ascii c in ((48 <=? n) && (n <=? 57))%N.

(** The longest run of digits at the head of [s], and what follows it. *)
Fixpoint span_digits (s : string) : string * string :=
  match s with
  | String c s' =>
      if is_digit c then
        let '(ds, rest) := span_digits s' in (String c ds, rest)
      else (EmptyString, s)
  | EmptyString => (EmptyString, EmptyString)
  end.

Fixpoint strip_prefix (p s : string) : option string :=
  match p, s with
  | EmptyString, _ => Some s
  | String a p', String b s' =>
      if Ascii.eqb a b then strip_prefix p' s' else None
  | String _ _, EmptyString => None
  end.

(** Group 1 of a match: the integer digits and, when the optional group
    took part, the fraction digits. *)
Record decimal := {
  int_digits : string;
  frac_digits : option string
}.

Definition decimal_text (d : decimal) : string :=
  match frac_digits d with
  | None => int_digits d
  | Some f => int_digits d +:+ "." +:+ f
  end.

Definition is_empty (s : string) : bool :=
  match s with EmptyString => true | _ => false end.

(** A match of the pattern anchored at the head of [s]: group 1 and the
    text after the closing comma.  The two digit runs are greedy; giving
    back digits never helps, because the character after a shortened run is
    a digit, and the pattern then wants a dot or a comma.  So the first
    greedy attempt decides. *)
Definition match_extinf (s : string) : option (decimal * string) :=
  match strip_prefix "#EXTINF:" s with
  | None => None
  | Some s1 =>
      let '(ip, s2) := span_digits s1 in
      if is_empty ip then None else
      match s2 with
      | String "," rest =>
          Some ({| int_digits := ip; frac_digits := None |}, rest)
      | String "." s3 =>
          let '(fp, s4) := span_digits s3 in
          if is_empty fp then None else
          match s4 with
          | String "," rest =>
              Some ({| int_digits := ip; frac_digits := Some fp |}, rest)
          | _ => None
          end
      | _ => None
      end
  end.

Fixpoint digits_value (acc : Z) (s : string) : Z :=
  match s with
  | EmptyString => acc
  | String c s' => digits_value (10 * acc + (Z.of_N (N_of_ascii c) - 48)) s'
  end.

(** The decimal [d] denotes [decimal_num d / decimal_scale d]. *)
Definition decimal_num (d : decimal) : Z :=
  digits_value 0 (int_digits d +:+ default EmptyString (frac_digits d)).

Definition decimal_scale (d : decimal) : Z :=
  10 ^ Z.of_nat (String.length (default EmptyString (frac_digits d))).

Definition decimal_value (d : decimal) : Q :=
  Qmake (decimal_num d) (Z.to_pos (decimal_scale d)).

(** [n / d] rounded to an integer, ties to the even one ([0 < d]). *)
Definition round_half_even_div (n d : Z) : Z :=
  let q := n / d in
  let r := n mod d in
  match 2 * r ?= d with
  | Lt => q
  | Gt => q + 1
  | Eq => if Z.even q then q else q + 1
  end.

(** A finite, non-negative binary64 number [mant * 2 ^ expo]. *)
Record binary64 := {
  mant : Z;
  expo : Z
}.

Definition binary64_value (x : binary64) : Q :=
  if 0 <=? expo x then inject_Z (mant x * 2 ^ expo x)
  else Qmake (mant x) (Z.to_pos (2 ^ (- expo x))).

(** The exponent [e] with [2 ^ e <= n / d < 2 ^ (e + 1)], for [0 < n, d]. *)
Definition binade (n d : Z) : Z :=
  let e0 := Z.log2 n - Z.log2 d in
  let below := if 0 <=? e0 then n <? d * 2 ^ e0 else n * 2 ^ (- e0) <? d in
  if below then e0 - 1 else e0.

(** [float] on the ratio [n / d]: the nearest binary64 number, ties to the
    even mantissa, with 53 bits of precision, gradual underflow below
    [2 ^ -1022], and [None] for the infinity that [float] returns from
    [2 ^ 1024] on (after rounding). *)
Definition float_of_ratio (n d : Z) : option binary64 :=
  if n =? 0 then Some {| mant := 0; expo := 0 |} else
  let e := binade n d in
  let u := Z.max (e - 52) (-1074) in
  let m := if 0 <=? u then round_half_even_div n (d * 2 ^ u)
           else round_half_even_div (n * 2 ^ (- u)) d in
  if (0 <=? u) && (2 ^ 1024 <=? m * 2 ^ u) then None
  else Some {| mant := m; expo := u |}.

(** [float(m.group(1))]. *)
Definition py_float (d : decimal) : option binary64 :=
  float_of_ratio (decimal_num d) (decimal_scale d).

(** [int(round(x))]: Python 3 rounds a float half to even, exactly. *)
Definition py_round (x : binary64) : Z :=
  if 0 <=? expo x then mant x * 2 ^ expo x
  else round_half_even_div (mant x) (2 ^ (- expo x)).

(** [str] of an integer. *)
Definition str_int (z : Z) : string := NilZero.string_of_int (Z.to_int z).

(** The replacement function; [round] of the infinity raises. *)
Definition extinf_repl (d : decimal) : result string :=
  match py_float d with
  | None => Raise OverflowError
  | Some x => Ok ("#EXTINF:" +:+ str_int (py_round x) +:+ ",")
  end.

(** The text left after a match is shorter than the text matched: the scan
    below terminates. *)
Lemma match_extinf_rest_shorter s d rest :
  match_extinf s = Some (d, rest) ->
  (String.length rest < String.length s)%nat.
Proof.
  assert (Hstrip : forall p t t1, strip_prefix p t = Some t1 ->
            String.length t = (String.length p + String.length t1)%nat).
  { intros p; induction p as [|a p IH]; intros t t1; cbn.
    - intros [= ->]. reflexivity.
    - destruct t as [|b t]; [congruence|].
      destruct (Ascii.eqb a b); [|congruence].
      intros Ht. cbn. rewrite (IH _ _ Ht). reflexivity. }
  assert (Hspan : forall t, String.length t
            = (String.length (span_digits t).1
               + String.length (span_digits t).2)%nat).
  { intros t; induction t as [|a t IH]; cbn; [reflexivity|].
    destruct (is_digit a); cbn; [|reflexivity].
    destruct (span_digits t) as [ds tl]; cbn in *. lia. }
  unfold match_extinf.
  destruct (strip_prefix "#EXTINF:" s) as [s1|] eqn:Hp; [|congruence].
  apply Hstrip in Hp. cbn in Hp.
  pose proof (Hspan s1) as H1.
  destruct (span_digits s1) as [ip s2]; cbn in H1.
  destruct (is_empty ip); [congruence|].
  destruct s2 as [|c2 s3]; [congruence|].
  destruct (Ascii.eqb_spec c2 ",") as [->|Hc].
  - intros [= <- <-]. cbn in H1. lia.
  - destruct (Ascii.eqb_spec c2 ".") as [->|Hd].
    + pose proof (Hspan s3) as H3.
      destruct (span_digits s3) as [fp s4]; cbn in H3.
      destruct (is_empty fp); [congruence|].
      destruct s4 as [|c4 s5]; [congruence|].
      destruct (Ascii.eqb_spec c4 ",") as [->|Hc4].
      * intros [= <- <-]. cbn in H1, H3. lia.
      * destruct c4 as [[] [] [] [] [] [] [] []]; congruence.
    + destruct c2 as [[] [] [] [] [] [] [] []]; congruence.
Qed.

Definition inspect {A : Type} (x : A) : { y : A | x = y } := exist _ x eq_refl.

(** [re.sub]: scan from the left; at a match, emit the replacement and go
    on after the match; otherwise copy one character.  An exception of the
    replacement function leaves [re.sub]. *)
Equations? re_sub_extinf (s : string) : result string
  by wf (String.length s) lt :=
  re_sub_extinf EmptyString := Ok EmptyString;
  re_sub_extinf (String c s') with inspect (match_extinf (String c s')) := {
    | exist _ (Some (d, rest)) Hm with extinf_repl d := {
        | Raise e := Raise e
        | Ok r with re_sub_extinf rest := {
            | Raise e := Raise e
            | Ok out := Ok (r +:+ out) } }
    | exist _ None Hm with re_sub_extinf s' := {
        | Raise e := Raise e
        | Ok out := Ok (String c out) } }.
Proof.
  exact (match_extinf_rest_shorter _ _ _ Hm).
Qed.

(** ** The output directory

    The directory at [config.output_path]: [None] when the path does not
    exist, otherwise its write permission and its entries by name. *)

Inductive dir_entry :=
| RegularFile (content : string)
| SubDirectory.

Record directory := {
  writable : bool;
  entries : gmap string dir_entry
}.

Definition is_file (e : dir_entry) : bool :=
  match e with RegularFile _ => true | SubDirectory => false end.

(** [str.endswith]. *)
Fixpoint endswith (s suffix : string) : bool :=
  if String.eqb s suffix then true
  else match s with
       | EmptyString => false
       | String _ s' => endswith s' suffix
       end.

(** The components of a path between slashes. *)
Fixpoint split_slash (s : string) : list string :=
  match s with
  | EmptyString => [EmptyString]
  | String c s' =>
      if Ascii.eqb c "/" then EmptyString :: split_slash s'
      else match split_slash s' with
           | [] => [String c EmptyString]
           | w :: ws => String c w :: ws
           end
  end.

(** [Path(uri).name] on a POSIX path: the last component, once the empty
    components and the ["."] components are dropped; [""] when none is
    left. *)
Definition path_name (path : string) : string :=
  List.last
    (List.filter
       (fun w => negb (String.eqb w "") && negb (String.eqb w "."))
       (split_slash path))
    EmptyString.

(** [(output_dir / name).exists()] in an existing directory, when the call
    answers: the names [""] and [".."] resolve to the directory itself and
    to its parent.  The call that raises is in [_process_segments_stat]. *)
Definition path_exists (ents : gmap string dir_entry) (name : string) : bool :=
  String.eqb name "" || String.eqb name ".."
  || bool_decide (is_Some (ents !! name)).

(** What the network does to one [download_segment]:
    - [Downloaded c]: the body [c] reaches the temporary file, which is
      renamed to the segment's name;
    - [RequestFailed]: the request raises before a temporary file exists;
    - [TransferFailed tmp partial]: the transfer raises while the temporary
      file [tmp] (a fresh name ending in [.ts]) is being written;
      [tmp_file_path] is still [None], so the file stays behind. *)
Inductive download_outcome :=
| Downloaded (content : string)
| RequestFailed
| TransferFailed (tmp : string) (partial : string).

(** What [mkdir] and [write_text] do.  An error of [open] leaves the file
    alone: it is [IoPermissionError] or [IoOtherError].  [IoPartial n] is
    an [OSError] other than [PermissionError] raised after part of the
    work: for [write_text], after [open] has emptied the file and [n]
    bytes of the text have reached it; [mkdir] of the one directory has no
    part to leave behind. *)
Inductive io_outcome :=
| IoOk
| IoPermissionError
| IoOtherError
| IoPartial (n : nat).

Section Worker.

Context {T : Type} `{Clock T}.

(** [playlist.dumps()] belongs to the m3u8 library. *)
Variable dumps : @M3U8 T -> string.

(** [HLSProcessor.stop]. *)
Definition stop (self : @HLSProcessor T) : @HLSProcessor T :=
  {| config := config self;
     running := false;
     segments_processed := segments_processed self;
     _stop_event := true;
     in_ad_break := in_ad_break self;
     ad_break_event_id := ad_break_event_id self;
     ad_break_start_time := ad_break_start_time self;
     next_marker_time := next_marker_time self |}.

Definition add_segments_processed (self : @HLSProcessor T) (n : Z)
  : @HLSProcessor T :=
  {| config := config self;
     running := running self;
     segments_processed := segments_processed self + n;
     _stop_event := _stop_event self;
     in_ad_break := in_ad_break self;
     ad_break_event_id := ad_break_event_id self;
     ad_break_start_time := ad_break_start_time self;
     next_marker_time := next_marker_time self |}.

Definition with_entries (d : directory) (ents : gmap string dir_entry)
  : directory :=
  {| writable := writable d; entries := ents |}.

(** The [try] block of [_save_playlist]: the directory as the block leaves
    it, and the exception that ended it, if any.  [mk] is the outcome of
    [mkdir], [wr] the outcome of [write_text]; between them the text is
    built, and [round] may raise; writing onto a directory raises
    [IsADirectoryError]; a write that fails after [open] leaves the
    first bytes of the text in the file. *)
Definition save_try (dir : option directory) (playlist : @M3U8 T)
    (mk wr : io_outcome) : option directory * option exn :=
  match mk with
  | IoPermissionError => (dir, Some PermissionError)
  | IoOtherError | IoPartial _ => (dir, Some OtherError)
  | IoOk =>
      let d := match dir with
               | Some d => d
               | None => {| writable := true; entries := ∅ |}
               end in
      match re_sub_extinf (dumps playlist) with
      | Raise e => (Some d, Some e)
      | Ok playlist_text =>
          match wr with
          | IoPermissionError => (Some d, Some PermissionError)
          | IoOtherError => (Some d, Some OtherError)
          | IoOk =>
              match entries d !! "playlist.m3u8" with
              | Some SubDirectory => (Some d, Some OtherError)
              | _ =>
                  (Some (with_entries d
                           (<["playlist.m3u8" := RegularFile playlist_text]>
                              (entries d))),
                   None)
              end
          | IoPartial n =>
              match entries d !! "playlist.m3u8" with
              | Some SubDirectory => (Some d, Some OtherError)
              | _ =>
                  (Some (with_entries d
                           (<["playlist.m3u8" :=
                                RegularFile
                                  (String.substring 0 n playlist_text)]>
                              (entries d))),
                   Some OtherError)
              end
          end
      end
  end.

(** [_save_playlist]: [except PermissionError] stops the worker,
    [except Exception] only logs. *)
Definition _save_playlist (self : @HLSProcessor T) (dir : option directory)
    (playlist : @M3U8 T) (mk wr : io_outcome)
  : @HLSProcessor T * option directory :=
  let '(dir, raised) := save_try dir playlist mk wr in
  match raised with
  | Some PermissionError => (stop self, dir)
  | Some _ => (self, dir)
  | None => (self, dir)
  end.

Definition segment_name (seg : @Segment T) : string := path_name (uri seg).

(** The list [segments_to_download]; every existence test is made before
    the first download starts. *)
Definition segments_to_download (ents : gmap string dir_entry)
    (playlist : @M3U8 T) : list (@Segment T * string) :=
  List.filter (fun job => negb (path_exists ents job.2))
    (List.map (fun seg => (seg, segment_name seg)) (segments playlist)).

Definition download_segment (download : @Segment T -> download_outcome)
    (ents : gmap string dir_entry) (job : @Segment T * string)
  : gmap string dir_entry * bool :=
  match download job.1 with
  | Downloaded content => (<[job.2 := RegularFile content]> ents, true)
  | RequestFailed => (ents, false)
  | TransferFailed tmp partial => (<[tmp := RegularFile partial]> ents, false)
  end.

(** [executor.map(download_segment, segments_to_download)], taken in list
    order, with the count of the [True] results.  The pool runs up to four
    downloads at once; they write different names unless the playlist
    names one file twice. *)
Fixpoint download_all (download : @Segment T -> download_outcome)
    (ents : gmap string dir_entry) (jobs : list (@Segment T * string))
  : gmap string dir_entry * Z :=
  match jobs with
  | [] => (ents, 0)
  | job :: jobs =>
      let '(ents, ok) := download_segment download ents job in
      let '(ents, n) := download_all download ents jobs in
      (ents, (if ok then 1 else 0) + n)
  end.

(** [_process_segments]; [os.access(output_dir, os.W_OK)] is false for a
    missing directory. *)
Definition _process_segments (self : @HLSProcessor T) (dir : option directory)
    (playlist : @M3U8 T) (download : @Segment T -> download_outcome)
  : @HLSProcessor T * option directory :=
  match dir with
  | None => (self, dir)
  | Some d =>
      if negb (writable d) then (self, dir)
      else
        let jobs := segments_to_download (entries d) playlist in
        let '(ents, n) := download_all download (entries d) jobs in
        (add_segments_processed self n, Some (with_entries d ents))
  end.

Definition current_segment_files (playlist : @M3U8 T) : gset string :=
  list_to_set (List.map segment_name (segments playlist)).

(** The loop of [_cleanup_old_segments] over the listing [items].
    [unlink] needs write permission on the directory; without it the call
    raises, the handler logs, and the rest of the listing is not visited. *)
Fixpoint cleanup_loop (can_write : bool) (current : gset string)
    (items : list (string * dir_entry)) (ents : gmap string dir_entry)
  : gmap string dir_entry :=
  match items with
  | [] => ents
  | (name, e) :: items =>
      if is_file e && endswith name ".ts" then
        if bool_decide (name ∉ current) then
          if can_write
          then cleanup_loop can_write current items (delete name ents)
          else ents
        else cleanup_loop can_write current items ents
      else cleanup_loop can_write current items ents
  end.

Definition _cleanup_old_segments (dir : option directory) (playlist : @M3U8 T)
  : option directory :=
  match dir with
  | None => None
  | Some d =>
      Some (with_entries d
              (cleanup_loop (writable d) (current_segment_files playlist)
                 (map_to_list (entries d)) (entries d)))
  end.

(** Steps 4 and 5 of a cycle, in their order. *)
Definition reconcile (self : @HLSProcessor T) (dir : option directory)
    (playlist : @M3U8 T) (download : @Segment T -> download_outcome)
  : @HLSProcessor T * option directory :=
  let '(self, dir) := _process_segments self dir playlist download in
  (self, _cleanup_old_segments dir playlist).

(** *** The pass when [exists] may raise

    [Path.exists()] answers [False] for a missing file, but lets through
    an [OSError] of another kind: a name too long for the file system, a
    directory that may not be searched.  [stat_error name] is that error
    for [output_dir / name], if there is one.  The tests are made in the
    order of the segments, before the first download; the exception
    leaves [_process_segments], and the worker loop catches it: the
    pruning step of the cycle is not reached. *)
Fixpoint exists_all (stat_error : string -> option exn)
    (names : list string) : option exn :=
  match names with
  | [] => None
  | name :: names =>
      match stat_error name with
      | Some e => Some e
      | None => exists_all stat_error names
      end
  end.

Definition _process_segments_stat (stat_error : string -> option exn)
    (self : @HLSProcessor T) (dir : option directory) (playlist : @M3U8 T)
    (download : @Segment T -> download_outcome)
  : @HLSProcessor T * option directory * option exn :=
  match dir with
  | None => (self, dir, None)
  | Some d =>
      if negb (writable d) then (self, dir, None)
      else
        match exists_all stat_error
                (List.map segment_name (segments playlist)) with
        | Some e => (self, dir, Some e)
        | None =>
            let '(self, dir) := _process_segments self dir playlist download in
            (self, dir, None)
        end
  end.

Definition reconcile_stat (stat_error : string -> option exn)
    (self : @HLSProcessor T) (dir : option directory) (playlist : @M3U8 T)
    (download : @Segment T -> download_outcome)
  : @HLSProcessor T * option directory * option exn :=
  match _process_segments_stat stat_error self dir playlist download with
  | (self, dir, Some e) => (self, dir, Some e)
  | (self, dir, None) => (self, _cleanup_old_segments dir playlist, None)
  end.

(** *** One iteration of [process_stream] *)

Inductive fetch_outcome :=
| Fetched (playlist : @M3U8 T)
| RequestException
| FetchRaises (e : exn).

(** [_download_playlist]: a [RequestException] is caught and gives [None];
    any other exception (a parse error of [m3u8.loads]) goes through. *)
Definition _download_playlist (o : fetch_outcome) : result (option (@M3U8 T)) :=
  match o with
  | Fetched playlist => Ok (Some playlist)
  | RequestException => Ok None
  | FetchRaises e => Raise e
  end.

Inductive sleep_kind :=
| SleepRetry      (* time.sleep(2) after a failed fetch *)
| SleepAdaptive   (* time.sleep(max(1, sleep_duration)) *)
| SleepBackoff.   (* time.sleep(5) in the exception handler *)

(** The steps of a cycle that were carried out. *)
Inductive action :=
| DidFetch
| DidMarkers (evs : list (@event T))
| DidSave
| DidSegments
| DidCleanup
| DidSleep (k : sleep_kind).

Inductive control := Continue | Break.

Record cycle_env := {
  env_fetch : fetch_outcome;
  env_ticks : @ticks T;
  env_mkdir : io_outcome;
  env_write : io_outcome;
  env_download : @Segment T -> download_outcome
}.

(** The body of the [while] loop, with its [except Exception] handler. *)
Definition cycle (self : @HLSProcessor T) (dir : option directory)
    (env : cycle_env)
  : @HLSProcessor T * option directory * list action * control :=
  match _download_playlist (env_fetch env) with
  | Raise _ => (self, dir, [DidFetch; DidSleep SleepBackoff], Continue)
  | Ok None => (self, dir, [DidFetch; DidSleep SleepRetry], Continue)
  | Ok (Some playlist) =>
      match _process_playlist_for_markers self playlist (env_ticks env) with
      | Raise _ => (self, dir, [DidFetch; DidSleep SleepBackoff], Continue)
      | Ok (self, playlist, evs) =>
          let '(self, dir) :=
            _save_playlist self dir playlist (env_mkdir env) (env_write env) in
          if negb (running self) then
            (self, dir, [DidFetch; DidMarkers evs; DidSave], Break)
          else
            let '(self, dir) :=
              _process_segments self dir playlist (env_download env) in
            let dir := _cleanup_old_segments dir playlist in
            (self, dir,
             [DidFetch; DidMarkers evs; DidSave; DidSegments; DidCleanup;
              DidSleep SleepAdaptive],
             Continue)
      end
  end.

(** [while self.running and not self._stop_event.is_set()]; each element of
    [envs] is what the outside world does during one iteration. *)
Fixpoint process_stream_loop (envs : list cycle_env) (self : @HLSProcessor T)
    (dir : option directory)
  : @HLSProcessor T * option directory * list (list action) :=
  match envs with
  | [] => (self, dir, [])
  | env :: envs =>
      if running self && negb (_stop_event self) then
        match cycle self dir env with
        | (self, dir, acts, Break) => (self, dir, [acts])
        | (self, dir, acts, Continue) =>
            let '(self, dir, log) := process_stream_loop envs self dir in
            (self, dir, acts :: log)
        end
      else (self, dir, [])
  end.

Definition set_running (self : @HLSProcessor T) (b : bool) : @HLSProcessor T :=
  {| config := config self;
     running := b;
     segments_processed := segments_processed self;
     _stop_event := _stop_event self;
     in_ad_break := in_ad_break self;
     ad_break_event_id := ad_break_event_id self;
     ad_break_start_time := ad_break_start_time self;
     next_marker_time := next_marker_time self |}.

Definition process_stream (envs : list cycle_env) (self : @HLSProcessor T)
    (dir : option directory) :=
  process_stream_loop envs (set_running self true) dir.

End Worker.

(** ** The registry

    The three attributes of [StreamManager] are Python dicts; the persisted
    file lists the values of [configs] in the dict's order, so dicts keep
    their insertion order here. *)

Section Dict.

Context {V : Type}.

Definition dict := list (string * V).

Fixpoint dict_get (k : string) (d : dict) : option V :=
  match d with
  | [] => None
  | (k', v) :: d => if String.eqb k k' then Some v else dict_get k d
  end.

Definition dict_mem (k : string) (d : dict) : bool :=
  match dict_get k d with Some _ => true | None => false end.

(** [d[k] = v]: in place for a present key, at the end for a new one. *)
Fixpoint dict_set (k : string) (v : V) (d : dict) : dict :=
  match d with
  | [] => [(k, v)]
  | (k', v') :: d =>
      if String.eqb k k' then (k, v) :: d else (k', v') :: dict_set k v d
  end.

(** [del d[k]]; [None] stands for the [KeyError] of an absent key. *)
Fixpoint dict_del (k : string) (d : dict) : option dict :=
  match d with
  | [] => None
  | (k', v') :: d =>
      if String.eqb k k' then Some d
      else match dict_del k d with
           | Some d' => Some ((k', v') :: d')
           | None => None
           end
  end.

Definition dict_values (d : dict) : list V := List.map snd d.

End Dict.
Arguments dict V : clear implicits.

Record Thread := {
  thread_name : string;
  daemon : bool
}.

Section Registry.

Context {T : Type} `{Clock T}.

Record StreamManager := {
  streams : dict (@HLSProcessor T);
  configs : dict StreamConfig;
  threads : dict Thread
}.

(** [StreamManager.__init__]. *)
Definition StreamManager_init : StreamManager :=
  {| streams := []; configs := []; threads := [] |}.

(** [save_streams_config]: the content of [streams.json] after the call. *)
Definition save_streams_config (cfgs : dict StreamConfig) : list StreamConfig :=
  dict_values cfgs.

(** What the manager does to its workers and threads. *)
Inductive signal :=
| ThreadStarted (th : Thread)
| StopSent (id : string) (stopped : @HLSProcessor T)
| JoinWaited (th : Thread) (timeout : Z)
| JoinTimedOut (id : string).

Inductive outcome :=
| Returned (b : bool)
| Raised (e : exn).

(** The manager together with what it meets outside:
    - [streams_json], the list of configurations that the file
      [streams.json] holds;
    - [thread_error], the exception that [thread.start()] raises, if it
      does (no further thread can be started);
    - [json_error], the exception that opening [streams.json] for writing
      raises, if it does; the file is then left alone.
    An error while the file is being written leaves a text that does not
    parse, hence no list of configurations: the model stops short of it. *)
Record registry := {
  manager : StreamManager;
  streams_json : list StreamConfig;
  thread_error : option exn;
  json_error : option exn
}.

Definition with_manager (r : registry) (mgr : StreamManager) : registry :=
  {| manager := mgr; streams_json := streams_json r;
     thread_error := thread_error r; json_error := json_error r |}.

(** [add_stream]; [now] is read by [HLSProcessor.__init__].  The steps in
    their order: the constructor, the two assignments [self.streams[id]]
    and [self.configs[id]], [thread.start()], the assignment
    [self.threads[id]], [save_streams_config]; an exception leaves the
    method with the assignments made so far.

    The dict holds the worker object, and the value kept here is the one
    the constructor returned.  The thread that was started assigns to the
    object from then on ([running] first); no thread assigns [config]. *)
Definition add_stream (r : registry) (cfg : StreamConfig) (now : T)
  : registry * outcome * list signal :=
  let mgr := manager r in
  if dict_mem (stream_id cfg) (streams mgr) then (r, Returned false, [])
  else
    match HLSProcessor_new cfg now with
    | Raise e => (r, Raised e, [])
    | Ok processor =>
        let thread := {| thread_name := "Stream-" +:+ stream_id cfg;
                         daemon := true |} in
        let half :=
          {| streams := dict_set (stream_id cfg) processor (streams mgr);
             configs := dict_set (stream_id cfg) cfg (configs mgr);
             threads := threads mgr |} in
        match thread_error r with
        | Some e => (with_manager r half, Raised e, [])
        | None =>
            let mgr :=
              {| streams := streams half; configs := configs half;
                 threads := dict_set (stream_id cfg) thread (threads mgr) |} in
            match json_error r with
            | Some e => (with_manager r mgr, Raised e, [ThreadStarted thread])
            | None =>
                ({| manager := mgr;
                    streams_json := save_streams_config (configs mgr);
                    thread_error := None; json_error := None |},
                 Returned true,
                 [ThreadStarted thread])
            end
        end
    end.

(** [remove_stream]; [joined] tells whether the thread ended within the
    ten seconds of [thread.join(timeout=10)].  A key missing from
    [threads] or [configs] raises [KeyError] where the source reads or
    deletes it, with the mutations made so far kept; so does an error of
    [save_streams_config], after the three deletions. *)
Definition remove_stream (r : registry) (id : string) (joined : bool)
  : registry * outcome * list signal :=
  let mgr := manager r in
  match dict_get id (streams mgr) with
  | None => (r, Returned false, [])
  | Some processor =>
      match dict_get id (threads mgr) with
      | None => (r, Raised KeyError, [])
      | Some thread =>
          let stopped := stop processor in
          let sigs :=
            [StopSent id stopped; JoinWaited thread 10]
            ++ (if joined then [] else [JoinTimedOut id]) in
          match dict_del id (streams mgr) with
          | None => (r, Raised KeyError, sigs)
          | Some streams' =>
              match dict_del id (configs mgr) with
              | None =>
                  (with_manager r {| streams := streams';
                                     configs := configs mgr;
                                     threads := threads mgr |},
                   Raised KeyError, sigs)
              | Some configs' =>
                  match dict_del id (threads mgr) with
                  | None =>
                      (with_manager r {| streams := streams';
                                         configs := configs';
                                         threads := threads mgr |},
                       Raised KeyError, sigs)
                  | Some threads' =>
                      let mgr := {| streams := streams';
                                    configs := configs';
                                    threads := threads' |} in
                      match json_error r with
                      | Some e => (with_manager r mgr, Raised e, sigs)
                      | None =>
                          ({| manager := mgr;
                              streams_json := save_streams_config configs';
                              thread_error := thread_error r;
                              json_error := None |},
                           Returned true, sigs)
                      end
                  end
              end
          end
      end
  end.

End Registry.

(** ** The read-only views of the registry *)

Section RegistryViews.

Context {T : Type} `{Clock T}.

(** [round(x)] of a float, and [thread.is_alive()]. *)
Variable t_round : T -> Z.
Variable is_alive : Thread -> bool.

(** The dict that [get_stream_status] returns for a registered stream. *)
Record StreamStatus := {
  status_stream_id : string;
  status_input_url : string;
  status_output_path : string;
  status_ad_duration : Z;
  status_ad_interval : Z;
  status_enabled : bool;
  status_running : bool;
  status_in_ad_break : bool;
  status_segments_processed : Z;
  status_next_ad_in : Z
}.

Inductive status_reply :=
| StatusError                      (* {"error": "Stream no encontrado"} *)
| StatusOf (s : StreamStatus).

(** [get_stream_status]; [now] is the reading of [time.time()], made only
    outside a break.  The three subscripts raise [KeyError] on a missing
    key. *)
Definition get_stream_status (mgr : @StreamManager T) (id : string) (now : T)
  : result status_reply :=
  match dict_get id (streams mgr) with
  | None => Ok StatusError
  | Some processor =>
      match dict_get id (configs mgr) with
      | None => Raise KeyError
      | Some config =>
          match dict_get id (threads mgr) with
          | None => Raise KeyError
          | Some thread =>
              Ok (StatusOf
                    {| status_stream_id := id;
                       status_input_url := input_url config;
                       status_output_path := output_path config;
                       status_ad_duration := ad_duration config;
                       status_ad_interval := ad_interval config;
                       status_enabled := enabled config;
                       status_running := running processor && is_alive thread;
                       status_in_ad_break := in_ad_break processor;
                       status_segments_processed := segments_processed processor;
                       status_next_ad_in :=
                         if negb (in_ad_break processor)
                         then t_round (t_sub (next_marker_time processor) now)
                         else 0 |})
          end
      end
  end.

(** The list comprehension of [list_streams] over [ids]; [clock i] is the
    clock reading during the [i]-th call. *)
Fixpoint statuses_of (mgr : @StreamManager T) (ids : list string)
    (clock : nat -> T) (i : nat) : result (list status_reply) :=
  match ids with
  | [] => Ok []
  | id :: ids =>
      match get_stream_status mgr id (clock i) with
      | Raise e => Raise e
      | Ok st =>
          match statuses_of mgr ids clock (S i) with
          | Raise e => Raise e
          | Ok sts => Ok (st :: sts)
          end
      end
  end.

(** [list_streams]: one status per key of [self.streams], in order. *)
Definition list_streams (mgr : @StreamManager T) (clock : nat -> T)
  : result (list status_reply) :=
  statuses_of mgr (List.map fst (streams mgr)) clock 0.

End RegistryViews.

(** ** Runs of the registry *)

Section RegistryRuns.

Context {T : Type} `{Clock T}.

(** The loop of the main program that registers the restored
    configurations again: a [StreamConfig] is built from each entry of
    [streams.json] and handed to [add_stream], whose result is not looked
    at.  [clock i] is the clock reading of the [i]-th call. *)
Fixpoint restore_streams (r : @registry T) (restored : list StreamConfig)
    (clock : nat -> T) (i : nat) : @registry T :=
  match restored with
  | [] => r
  | cfg :: restored =>
      restore_streams (add_stream r cfg (clock i)).1.1 restored clock (S i)
  end.

(** The registry of a process that starts with [saved] in
    [streams.json]: the module-level [StreamManager()], where threads can
    be started and the file can be opened for writing. *)
Definition registry_at_start (saved : list StreamConfig) : @registry T :=
  {| manager := StreamManager_init; streams_json := saved;
     thread_error := None; json_error := None |}.

(** A call of [add_stream] or of [remove_stream]. *)
Inductive registry_op :=
| OpAdd (cfg : StreamConfig) (now : T)
| OpRemove (id : string) (joined : bool).

Definition apply_op (r : @registry T) (op : registry_op)
  : @registry T * outcome :=
  match op with
  | OpAdd cfg now => (add_stream r cfg now).1
  | OpRemove id joined => (remove_stream r id joined).1
  end.

Fixpoint run_ops (r : @registry T) (ops : list registry_op)
  : @registry T * list outcome :=
  match ops with
  | [] => (r, [])
  | op :: ops =>
      let '(r, o) := apply_op r op in
      let '(r, os) := run_ops r ops in
      (r, o :: os)
  end.

End RegistryRuns.

(** ** Specification vocabulary *)

Section Vocabulary.

Context {T : Type} `{Clock T}.

(** A phase change of one poll is backed by the timing test of its branch. *)
Definition guarded_transition (p : @poll T) : Prop :=
  (in_ad_break (poll_before p) = false -> in_ad_break (poll_after p) = true ->
   t_geb (tick_now (poll_ticks p)) (next_marker_time (poll_before p)) = true)
  /\
  (in_ad_break (poll_before p) = true -> in_ad_break (poll_after p) = false ->
   exists start,
     ad_break_start_time (poll_before p) = Some start /\
     t_geb_int (t_sub (tick_now (poll_ticks p)) start)
       (ad_duration (config (poll_before p))) = true).

(** The poll put the SCTE-35 tag of kind [k] carrying [m] on the playlist. *)
Definition emits (p : @poll T) (k : cue_kind) (m : @SCTE35Marker T) : Prop :=
  Inserted (Scte35Tag k m) ∈ poll_events p.

Definition inserted_tags (evs : list (@event T)) : list (@tag T) :=
  omap (fun ev => match ev with Inserted t => Some t | Attempt _ => None end)
    evs.

Definition all_tags (playlist : @M3U8 T) : list (@tag T) :=
  concat (List.map custom_tags (segments playlist)).

(** At most one branch of the state machine ran during the poll, and what
    it put on the playlist belongs to that branch. *)
Definition single_attempt (p : @poll T) : Prop :=
  poll_events p = [] \/
  (exists evs, poll_events p = Attempt CueIn :: evs /\
     forall ev, ev ∈ evs ->
       ev <> Attempt CueIn /\ ev <> Attempt CueOut /\
       forall m, ev <> Inserted (Scte35Tag CueOut m)) \/
  (exists evs, poll_events p = Attempt CueOut :: evs /\
     forall ev, ev ∈ evs ->
       ev <> Attempt CueIn /\ ev <> Attempt CueOut /\
       ev <> Inserted CueInTag /\
       forall m, ev <> Inserted (Scte35Tag CueIn m)).

(** The cases of one poll, as the code takes them. *)
Inductive poll_case (self : @HLSProcessor T) (playlist : @M3U8 T)
    (tk : @ticks T) : @poll T -> Prop :=
| case_raise :
    in_ad_break self = true -> ad_break_start_time self = None ->
    poll_case self playlist tk
      {| poll_before := self; poll_playlist := playlist; poll_ticks := tk;
         poll_after := self; poll_out := playlist; poll_events := [] |}
| case_wait_in start :
    in_ad_break self = true -> ad_break_start_time self = Some start ->
    t_geb_int (t_sub (tick_now tk) start) (ad_duration (config self)) = false ->
    poll_case self playlist tk
      {| poll_before := self; poll_playlist := playlist; poll_ticks := tk;
         poll_after := self; poll_out := playlist; poll_events := [] |}
| case_close start :
    in_ad_break self = true -> ad_break_start_time self = Some start ->
    t_geb_int (t_sub (tick_now tk) start) (ad_duration (config self)) = true ->
    poll_case self playlist tk
      {| poll_before := self; poll_playlist := playlist; poll_ticks := tk;
         poll_after := leave_ad_break self (tick_now tk);
         poll_out := (_insert_cue_in self playlist tk).1;
         poll_events := Attempt CueIn :: (_insert_cue_in self playlist tk).2 |}
| case_wait_out :
    in_ad_break self = false ->
    t_geb (tick_now tk) (next_marker_time self) = false ->
    poll_case self playlist tk
      {| poll_before := self; poll_playlist := playlist; poll_ticks := tk;
         poll_after := self; poll_out := playlist; poll_events := [] |}
| case_open :
    in_ad_break self = false ->
    t_geb (tick_now tk) (next_marker_time self) = true ->
    poll_case self playlist tk
      {| poll_before := self; poll_playlist := playlist; poll_ticks := tk;
         poll_after :=
           enter_ad_break (_insert_cue_out self playlist tk).1.1 (tick_now tk);
         poll_out := (_insert_cue_out self playlist tk).1.2;
         poll_events := Attempt CueOut :: (_insert_cue_out self playlist tk).2 |}.

(** The regular files of the directory whose name ends in [.ts]. *)
Definition ts_files (d : directory) : gset string :=
  dom (filter (fun ne => is_file ne.2 = true /\ endswith ne.1 ".ts" = true)
         (entries d)).

(** What the pruning loop unlinks. *)
Definition prunable (current : gset string) (name : string) (e : dir_entry)
  : Prop :=
  is_file e = true /\ endswith name ".ts" = true /\ name ∉ current.

(** The names of the downloads a pass schedules. *)
Definition scheduled (d : directory) (playlist : @M3U8 T) : list string :=
  (segments_to_download (entries d) playlist).*2.

Definition dict_keys {V : Type} (d : dict V) : list string := d.*1.

(** The entries of the three dicts under the ids other than [id] are the
    same in [m'] as in [m]. *)
Definition others_kept (id : string) (m m' : @StreamManager T) : Prop :=
  forall id', id' <> id ->
    dict_get id' (streams m') = dict_get id' (streams m) /\
    dict_get id' (configs m') = dict_get id' (configs m) /\
    dict_get id' (threads m') = dict_get id' (threads m).

(** The three dicts of a manager list the same ids, each once. *)
Definition registry_ok (r : @registry T) : Prop :=
  NoDup (dict_keys (streams (manager r))) /\
  dict_keys (configs (manager r)) = dict_keys (streams (manager r)) /\
  dict_keys (threads (manager r)) = dict_keys (streams (manager r)).

End Vocabulary.

Fixpoint all_digits (s : string) : bool :=
  match s with
  | EmptyString => true
  | String c s' => is_digit c && all_digits s'
  end.

Definition digit_run (s : string) : bool := negb (is_empty s) && all_digits s.

(** The decimals the pattern accepts: [[0-9]+] or [[0-9]+\.[0-9]+]. *)
Definition decimal_wf (d : decimal) : bool :=
  digit_run (int_digits d) &&
  match frac_digits d with
  | None => true
  | Some f => digit_run f
  end.

(** [z] is an integer nearest to [q]. *)
Definition nearest_integer (z : Z) (q : Q) : Prop :=
  (Qabs (inject_Z z - q) <= 1 # 2)%Q.

(** ** Vocabulary of the further properties *)

Section RunVocabulary.

Context {T : Type} `{Clock T}.

(** The phase flag agrees with the start time, a start time inside a
    break and none outside, and [ad_interval] fits a float. *)
Definition phase_consistent (self : @HLSProcessor T) : Prop :=
  (if in_ad_break self then is_Some (ad_break_start_time self)
   else ad_break_start_time self = None) /\
  int_fits_float (ad_interval (config self)) = true.

(** The poll took the worker into a break, or out of one. *)
Definition opens_break (p : @poll T) : Prop :=
  in_ad_break (poll_before p) = false /\ in_ad_break (poll_after p) = true.

Definition closes_break (p : @poll T) : Prop :=
  in_ad_break (poll_before p) = true /\ in_ad_break (poll_after p) = false.

(** The tags of [seg'] are those of [seg] with new ones around them. *)
Definition tags_extended (seg seg' : @Segment T) : Prop :=
  uri seg' = uri seg /\ absolute_uri seg' = absolute_uri seg /\
  exists front back, custom_tags seg' = front ++ custom_tags seg ++ back.

(** The four fields of the ad-break state. *)
Definition ad_break_state (self : @HLSProcessor T)
  : bool * option Z * option T * T :=
  (in_ad_break self, ad_break_event_id self, ad_break_start_time self,
   next_marker_time self).

(** The name under which a download leaves something in the directory. *)
Definition download_writes (download : @Segment T -> download_outcome)
    (job : @Segment T * string) : option string :=
  match download job.1 with
  | Downloaded _ => Some job.2
  | RequestFailed => None
  | TransferFailed tmp _ => Some tmp
  end.

(** Entry by entry, the three dicts speak of the same stream: same id, the
    worker carries the stored configuration, the configuration is stored
    under its own [stream_id], and it is one that the constructor
    accepts. *)
Definition aligned_entry (s : string * @HLSProcessor T)
    (c : string * StreamConfig) : Prop :=
  s.1 = c.1 /\ config s.2 = c.2 /\ stream_id c.2 = c.1 /\
  int_fits_float (ad_interval c.2) = true.

Definition entries_aligned (mgr : @StreamManager T) : Prop :=
  Forall2 aligned_entry (streams mgr) (configs mgr) /\
  List.map fst (threads mgr) = List.map fst (streams mgr).

(** Threads can be started and [streams.json] can be opened for writing. *)
Definition benign (r : @registry T) : Prop :=
  thread_error r = None /\ json_error r = None.

Definition registry_inv (r : @registry T) : Prop :=
  registry_ok r /\ entries_aligned (manager r) /\
  streams_json r = dict_values (configs (manager r)).

(** What a status entry says about the stream [id] of the manager. *)
Definition status_describes (mgr : @StreamManager T) (id : string)
    (st : status_reply) : Prop :=
  exists s processor cfg,
    st = StatusOf s /\ status_stream_id s = id /\
    dict_get id (streams mgr) = Some processor /\
    dict_get id (configs mgr) = Some cfg /\
    status_in_ad_break s = in_ad_break processor /\
    status_segments_processed s = segments_processed processor /\
    status_ad_duration s = ad_duration cfg /\
    status_ad_interval s = ad_interval cfg /\
    (status_running s = true -> running processor = true) /\
    (status_in_ad_break s = true -> status_next_ad_in s = 0).

End RunVocabulary.

(** The name has a slash in it. *)
Fixpoint has_slash (s : string) : bool :=
  match s with
  | EmptyString => false
  | String c s' => Ascii.eqb c "/" || has_slash s'
  end.

(** How often the character occurs in the text. *)
Fixpoint count_char (c : ascii) (s : string) : nat :=
  match s with
  | EmptyString => 0%nat
  | String a s' => ((if Ascii.eqb a c then 1 else 0) + count_char c s')%nat
  end.

(** ** Concrete runs, with the clock on the rationals *)

Definition demo_config : StreamConfig :=
  {| stream_id := "live"; input_url := "http://origin/live.m3u8";
     output_path := "./output/live";
     ad_duration := 30; ad_interval := 300; enabled := true |}.

Definition demo_segment (u : string) : @Segment Q :=
  {| uri := u; absolute_uri := "http://origin/" +:+ u; custom_tags := [] |}.

Definition demo_playlist (uris : list string) : @M3U8 Q :=
  {| segments := List.map demo_segment uris; target_duration := None |}.

(** All three readings of the clock at the same instant [t]. *)
Definition at_time (t : Z) : @ticks Q :=
  {| tick_now := inject_Z t; tick_pts := inject_Z t; tick_id := inject_Z t |}.

(** The worker of scenario A, created at [t = 0]. *)
Definition demo_worker : @HLSProcessor Q := HLSProcessor_init demo_config 0%Q.

Definition demo_dir (files : list string) : directory :=
  {| writable := true;
     entries := list_to_map (List.map (fun n => (n, RegularFile ("old " +:+ n)))
                               files) |}.

Definition demo_download (seg : @Segment Q) : download_outcome :=
  Downloaded ("new " +:+ uri seg).

Definition demo_dumps (text : string) (playlist : @M3U8 Q) : string := text.

(** * Properties *)

(** ** The ad-break state machine *)

Section StateMachineFacts.

Context {T : Type} `{Clock T}.

Implicit Types (self : @HLSProcessor T) (playlist : @M3U8 T) (tk : @ticks T).

Lemma poll_once_case self playlist tk :
  poll_case self playlist tk (poll_once self playlist tk).
Proof.
  unfold poll_once, _process_playlist_for_markers.
  destruct (in_ad_break self) eqn:Hb.
  - destruct (ad_break_start_time self) as [start|] eqn:Hs.
    + destruct (t_geb_int _ _) eqn:Hd.
      * destruct (_insert_cue_in self playlist tk) as [pl evs] eqn:Hi.
        pose proof (case_close self playlist tk start Hb Hs Hd) as Hc.
        rewrite Hi in Hc. exact Hc.
      * eapply case_wait_in; eauto.
    + by apply case_raise.
  - destruct (t_geb _ _) eqn:Hd.
    + destruct (_insert_cue_out self playlist tk) as [[s' pl] evs] eqn:Hi.
      pose proof (case_open self playlist tk Hb Hd) as Hc.
      rewrite Hi in Hc. exact Hc.
    + by apply case_wait_out.
Qed.

Lemma insert_cue_out_events self playlist tk ev :
  ev ∈ (_insert_cue_out self playlist tk).2 ->
  exists m, ev = Inserted (Scte35Tag CueOut m) /\
    event_id m = Some (t_int (tick_id tk)) /\
    ad_break_event_id (_insert_cue_out self playlist tk).1.1 = event_id m.
Proof.
  unfold _insert_cue_out. destruct (segments playlist) as [|seg0 rest]; cbn.
  - intros Hin. by apply elem_of_nil in Hin.
  - intros Hin. apply list_elem_of_singleton in Hin. subst ev. eauto.
Qed.

Lemma insert_cue_in_events self playlist tk ev :
  ev ∈ (_insert_cue_in self playlist tk).2 ->
  ev = Inserted CueInTag \/
  exists m, ev = Inserted (Scte35Tag CueIn m) /\
            event_id m = ad_break_event_id self.
Proof.
  unfold _insert_cue_in. destruct (segments playlist) as [|seg0 rest]; cbn.
  - intros Hin. by apply elem_of_nil in Hin.
  - intros Hin. apply elem_of_cons in Hin as [->|Hin]; [right; eauto|].
    apply list_elem_of_singleton in Hin. by left.
Qed.

(** The events of a helper are the tags it puts on the playlist: a CUE-OUT
    tag goes in front of the first segment's tags, the two CUE-IN tags go
    behind the last segment's. *)
Lemma all_tags_append_to_last (segs : list (@Segment T)) new :
  segs <> [] ->
  concat (List.map custom_tags (append_to_last segs new))
  = concat (List.map custom_tags segs) ++ new.
Proof.
  induction segs as [|seg segs IH]; [done|]. intros _.
  destruct segs as [|seg' segs].
  - cbn. by rewrite !app_nil_r.
  - change (append_to_last (seg :: seg' :: segs) new)
      with (seg :: append_to_last (seg' :: segs) new).
    cbn [List.map concat]. rewrite IH by done. cbn. by rewrite app_assoc.
Qed.

Lemma insert_cue_out_tags self playlist tk :
  all_tags (_insert_cue_out self playlist tk).1.2
  = inserted_tags (_insert_cue_out self playlist tk).2 ++ all_tags playlist.
Proof.
  unfold _insert_cue_out, all_tags.
  destruct (segments playlist) as [|seg0 rest] eqn:Hs; cbn; [by rewrite Hs|done].
Qed.

Lemma insert_cue_in_tags self playlist tk :
  all_tags (_insert_cue_in self playlist tk).1
  = all_tags playlist ++ inserted_tags (_insert_cue_in self playlist tk).2.
Proof.
  unfold _insert_cue_in, all_tags.
  destruct (segments playlist) as [|seg0 rest] eqn:Hs; cbn [fst snd].
  - rewrite Hs. cbn. done.
  - cbn [segments with_segments]. by rewrite all_tags_append_to_last.
Qed.

(** On an empty snapshot neither helper touches the playlist. *)
Lemma empty_playlist_gets_no_tag self playlist tk :
  segments playlist = [] ->
  poll_out (poll_once self playlist tk) = playlist /\
  inserted_tags (poll_events (poll_once self playlist tk)) = [].
Proof.
  intros Hs.
  destruct (poll_once_case self playlist tk); cbn; try done.
  - unfold _insert_cue_in. by rewrite Hs.
  - unfold _insert_cue_out. by rewrite Hs.
Qed.

Lemma polls_elem self inputs p :
  p ∈ polls self inputs ->
  exists self' playlist tk, p = poll_once self' playlist tk.
Proof.
  revert self; induction inputs as [|[playlist tk] inputs IH]; intros self; cbn.
  - intros Hin. by apply elem_of_nil in Hin.
  - intros Hin. apply elem_of_cons in Hin as [->|Hin]; eauto.
Qed.

Lemma polls_lookup_succ self inputs k q :
  polls self inputs !! S k = Some q ->
  exists p playlist tk,
    polls self inputs !! k = Some p /\ q = poll_once (poll_after p) playlist tk.
Proof.
  revert self k; induction inputs as [|[playlist tk] inputs IH];
    intros self k; cbn.
  - intros Hq; discriminate.
  - destruct k as [|k]; cbn.
    + destruct inputs as [|[playlist' tk'] inputs]; cbn; [discriminate|].
      intros [= <-]. eauto.
    + intros Hq. apply IH in Hq. exact Hq.
Qed.

Lemma poll_once_guarded self playlist tk :
  guarded_transition (poll_once self playlist tk).
Proof.
  destruct (poll_once_case self playlist tk); split; cbn; intros;
    try congruence; eauto.
Qed.

Lemma emits_out_sets_id self playlist tk m :
  emits (poll_once self playlist tk) CueOut m ->
  ad_break_event_id (poll_after (poll_once self playlist tk)) = event_id m /\
  event_id m = Some (t_int (tick_id tk)).
Proof.
  unfold emits.
  destruct (poll_once_case self playlist tk); cbn; intros Hin;
    try (by apply elem_of_nil in Hin).
  - apply elem_of_cons in Hin as [Hin|Hin]; [discriminate|].
    apply insert_cue_in_events in Hin as [Hin|(m' & Hin & _)]; discriminate.
  - apply elem_of_cons in Hin as [Hin|Hin]; [discriminate|].
    apply insert_cue_out_events in Hin as (m' & [= ->] & Hid & Hs). by split.
Qed.

Lemma emits_in_reads_id self playlist tk m :
  emits (poll_once self playlist tk) CueIn m ->
  event_id m = ad_break_event_id self.
Proof.
  unfold emits.
  destruct (poll_once_case self playlist tk); cbn; intros Hin;
    try (by apply elem_of_nil in Hin).
  - apply elem_of_cons in Hin as [Hin|Hin]; [discriminate|].
    apply insert_cue_in_events in Hin as [Hin|(m' & [= ->] & Hid)];
      [discriminate|done].
  - apply elem_of_cons in Hin as [Hin|Hin]; [discriminate|].
    apply insert_cue_out_events in Hin as (m' & Hin & _). discriminate.
Qed.

Lemma stay_in_break_keeps_worker self playlist tk :
  in_ad_break self = true ->
  in_ad_break (poll_after (poll_once self playlist tk)) = true ->
  poll_after (poll_once self playlist tk) = self.
Proof.
  destruct (poll_once_case self playlist tk); cbn; congruence.
Qed.

(** C2: over every sequence of polls of a stream, a poll that takes the
    worker from Idle to InBreak has [current_time >= next_marker_time], and
    a poll that takes it from InBreak to Idle has
    [current_time - ad_break_start_time >= ad_duration]. *)
Theorem transitions_are_guarded self (inputs : list (@M3U8 T * @ticks T)) :
  Forall guarded_transition (polls self inputs).
Proof.
  apply Forall_forall. intros p Hin.
  apply polls_elem in Hin as (self' & playlist & tk & ->).
  apply poll_once_guarded.
Qed.

(** C3: when a poll puts a CUE-OUT marker on the playlist, the break stays
    open over the following polls, and a later poll puts a CUE-IN marker,
    the CUE-IN marker carries the event id of the CUE-OUT marker, which is
    the id drawn from the clock when the break was opened. *)
Theorem cue_in_carries_cue_out_id self (inputs : list (@M3U8 T * @ticks T))
    (i j : nat) p_out p_in m_out m_in :
  (i < j)%nat ->
  polls self inputs !! i = Some p_out ->
  emits p_out CueOut m_out ->
  (forall k p, (i <= k < j)%nat -> polls self inputs !! k = Some p ->
               in_ad_break (poll_after p) = true) ->
  polls self inputs !! j = Some p_in ->
  emits p_in CueIn m_in ->
  event_id m_in = event_id m_out /\
  event_id m_out = Some (t_int (tick_id (poll_ticks p_out))).
Proof.
  intros Hij Hi Hout Hopen Hj Hin.
  assert (Hfresh : ad_break_event_id (poll_after p_out) = event_id m_out /\
                   event_id m_out = Some (t_int (tick_id (poll_ticks p_out)))).
  { assert (Hin' : p_out ∈ polls self inputs)
      by (eapply list_elem_of_lookup_2; eauto).
    apply polls_elem in Hin' as (s & pl & tk & ->).
    apply emits_out_sets_id in Hout as [Hid Hnew]. split; [done|].
    rewrite Hnew. by destruct (poll_once_case s pl tk). }
  destruct Hfresh as [Hset Hnew]. split; [|exact Hnew].
  assert (Hinv : forall n p, (i + n < j)%nat ->
            polls self inputs !! (i + n)%nat = Some p ->
            ad_break_event_id (poll_after p) = event_id m_out).
  { induction n as [|n IH]; intros p Hlt Hp.
    - rewrite Nat.add_0_r in Hp. rewrite Hi in Hp. by injection Hp as <-.
    - replace (i + S n)%nat with (S (i + n)) in Hp by lia.
      destruct (polls_lookup_succ _ _ _ _ Hp) as (p0 & pl & tk & Hp0 & ->).
      rewrite stay_in_break_keeps_worker.
      + apply IH; [lia|done].
      + apply (Hopen (i + n)%nat); [lia|done].
      + apply (Hopen (S (i + n))); [lia|done]. }
  destruct j as [|j]; [lia|].
  destruct (polls_lookup_succ _ _ _ _ Hj) as (p0 & pl & tk & Hp0 & ->).
  apply emits_in_reads_id in Hin. rewrite Hin.
  apply (Hinv (j - i)%nat); [lia|].
  by replace (i + (j - i))%nat with j by lia.
Qed.

(** C5: one call of the marker step runs at most one of its two branches:
    its events start with at most one attempt, a CUE-IN attempt is followed
    by no CUE-OUT tag and conversely; a call made inside a break that is
    due to end leaves the worker Idle, whatever [next_marker_time] is, and
    a call made inside a break that leaves the worker in a break has
    changed nothing. *)
Theorem one_attempt_per_poll self playlist tk :
  single_attempt (poll_once self playlist tk) /\
  (in_ad_break self = true ->
   in_ad_break (poll_after (poll_once self playlist tk)) = true ->
   poll_after (poll_once self playlist tk) = self) /\
  (in_ad_break self = true ->
   forall start, ad_break_start_time self = Some start ->
   t_geb_int (t_sub (tick_now tk) start) (ad_duration (config self)) = true ->
   in_ad_break (poll_after (poll_once self playlist tk)) = false /\
   exists evs, poll_events (poll_once self playlist tk) = Attempt CueIn :: evs /\
               Attempt CueOut ∉ evs).
Proof.
  split; [|split].
  - unfold single_attempt.
    destruct (poll_once_case self playlist tk); cbn; try (by left).
    + right; left. eexists; split; [reflexivity|].
      intros ev Hin. apply insert_cue_in_events in Hin as [->|(m & -> & _)];
        repeat split; intros; discriminate.
    + right; right. eexists; split; [reflexivity|].
      intros ev Hin. apply insert_cue_out_events in Hin as (m & -> & _).
      repeat split; intros; discriminate.
  - apply stay_in_break_keeps_worker.
  - intros Hb start Hs Hd.
    destruct (poll_once_case self playlist tk); cbn; try congruence.
    split; [done|]. eexists; split; [reflexivity|].
    intros Hin. apply insert_cue_in_events in Hin as [Hin|(m & Hin & _)];
      discriminate.
Qed.

End StateMachineFacts.

(** Scenario A: [ad_interval = 300], [ad_duration = 30]; the poll at
    [t = 300] opens the break, the poll at [t = 331] closes it with the
    same event id and sets the next break to [t = 631]. *)
Example scenario_A :
  let ps := polls demo_worker
              [(demo_playlist ["a.ts"; "b.ts"], at_time 300);
               (demo_playlist ["a.ts"; "b.ts"], at_time 331)] in
  List.map (fun p => (in_ad_break (poll_after p),
                      ad_break_start_time (poll_after p),
                      next_marker_time (poll_after p))) ps
  = [(true, Some (300 # 1)%Q, (300 # 1)%Q); (false, None, (631 # 1)%Q)] /\
  List.map (fun p => inserted_tags (poll_events p)) ps
  = [[Scte35Tag CueOut {| pts := (27000000 # 1)%Q; duration := 30;
                          event_id := Some 300 |}];
     [Scte35Tag CueIn {| pts := (29790000 # 1)%Q; duration := 30;
                         event_id := Some 300 |};
      CueInTag]].
Proof. vm_compute. split; reflexivity. Qed.

(** C1: at an empty snapshot the code emits no marker but still changes
    phase.  An Idle worker whose break is due ([t = 300]) enters the break
    with no event id; the next poll that finds the break over ([t = 331])
    leaves it and re-arms [next_marker_time]. *)
Theorem empty_snapshot_still_changes_phase :
  let empty := demo_playlist [] in
  let p := poll_once demo_worker empty (at_time 300) in
  let q := poll_once (poll_after p) empty (at_time 331) in
  (segments empty = [] /\
   in_ad_break demo_worker = false /\
   in_ad_break (poll_after p) = true /\
   ad_break_start_time (poll_after p) = Some (300 # 1)%Q /\
   ad_break_event_id (poll_after p) = None /\
   poll_out p = empty /\ poll_events p = [Attempt CueOut]) /\
  (in_ad_break (poll_after q) = false /\
   ad_break_start_time (poll_after q) = None /\
   next_marker_time (poll_after p) = (300 # 1)%Q /\
   next_marker_time (poll_after q) = (631 # 1)%Q /\
   poll_out q = empty /\ poll_events q = [Attempt CueIn]).
Proof. vm_compute. repeat split. Qed.

Lemma transitions_are_guarded_witness :
  Forall guarded_transition
    (polls demo_worker
       [(demo_playlist ["a.ts"; "b.ts"], at_time 300);
        (demo_playlist ["a.ts"; "b.ts"], at_time 331)]).
Proof. apply transitions_are_guarded. Defined.

Lemma cue_in_carries_cue_out_id_witness :
  let inputs := [(demo_playlist ["a.ts"; "b.ts"], at_time 300);
                 (demo_playlist ["a.ts"; "b.ts"], at_time 310);
                 (demo_playlist ["b.ts"; "c.ts"], at_time 331)] in
  let m_out := {| pts := (27000000 # 1)%Q; duration := 30;
                  event_id := Some 300 |} in
  let m_in := {| pts := (29790000 # 1)%Q; duration := 30;
                 event_id := Some 300 |} in
  exists p_out p_in,
    polls demo_worker inputs !! 0%nat = Some p_out /\
    emits p_out CueOut m_out /\
    polls demo_worker inputs !! 2%nat = Some p_in /\
    emits p_in CueIn m_in /\
    event_id m_in = event_id m_out /\
    event_id m_out = Some (t_int (tick_id (poll_ticks p_out))).
Proof.
  intros inputs m_out m_in.
  eexists _, _.
  split; [reflexivity|].
  assert (Hout : emits (poll_once demo_worker (demo_playlist ["a.ts"; "b.ts"])
                          (at_time 300)) CueOut m_out).
  { vm_compute. apply list_elem_of_In. right. left. reflexivity. }
  split; [exact Hout|].
  split; [reflexivity|].
  match goal with |- emits ?p _ _ /\ _ =>
    assert (Hin : emits p CueIn m_in)
  end.
  { vm_compute. apply list_elem_of_In. right. left. reflexivity. }
  split; [exact Hin|].
  refine (cue_in_carries_cue_out_id demo_worker inputs 0 2 _ _ m_out m_in
            _ eq_refl Hout _ eq_refl Hin).
  - lia.
  - intros k p Hk Hp.
    destruct k as [|[|k]]; [| |lia]; injection Hp as <-; reflexivity.
Defined.

Lemma one_attempt_per_poll_witness :
  let cfg := {| stream_id := "live"; input_url := "u"; output_path := "o";
                ad_duration := 30; ad_interval := 0; enabled := true |} in
  let self := poll_after (poll_once (HLSProcessor_init cfg 0%Q)
                            (demo_playlist ["a.ts"]) (at_time 0)) in
  in_ad_break self = true /\
  t_geb (tick_now (at_time 31)) (next_marker_time self) = true /\
  in_ad_break (poll_after (poll_once self (demo_playlist ["a.ts"]) (at_time 31)))
  = false /\
  single_attempt (poll_once self (demo_playlist ["a.ts"]) (at_time 31)).
Proof.
  intros cfg self.
  destruct (one_attempt_per_poll self (demo_playlist ["a.ts"]) (at_time 31))
    as (Hone & _ & Hclose).
  split; [reflexivity|]. split; [reflexivity|].
  split; [|exact Hone].
  apply (Hclose eq_refl (0 # 1)%Q); reflexivity.
Defined.

(** ** The worker loop *)

Section WorkerFacts.

Context {T : Type} `{Clock T}.
Variable dumps : @M3U8 T -> string.

Implicit Types (self : @HLSProcessor T) (playlist : @M3U8 T) (tk : @ticks T)
  (dir : option directory) (env : @cycle_env T).

Lemma markers_keep_flags self playlist tk self' playlist' evs :
  _process_playlist_for_markers self playlist tk = Ok (self', playlist', evs) ->
  running self' = running self /\ _stop_event self' = _stop_event self /\
  config self' = config self.
Proof.
  unfold _process_playlist_for_markers.
  destruct (in_ad_break self).
  - destruct (ad_break_start_time self); [|discriminate].
    destruct (t_geb_int _ _).
    + destruct (_insert_cue_in self playlist tk). intros [= <- <- <-]. done.
    + intros [= <- <- <-]. done.
  - destruct (t_geb _ _).
    + unfold _insert_cue_out. destruct (segments playlist);
        intros [= <- <- <-]; done.
    + intros [= <- <- <-]. done.
Qed.

Lemma process_segments_keeps_flags self dir playlist download :
  running (_process_segments self dir playlist download).1 = running self /\
  _stop_event (_process_segments self dir playlist download).1
  = _stop_event self.
Proof.
  unfold _process_segments. destruct dir as [d|]; [|done].
  destruct (writable d); cbn; [|done].
  destruct (download_all _ _ _). done.
Qed.

Lemma stopped_loop_is_over envs self dir :
  running self = false \/ _stop_event self = true ->
  process_stream_loop dumps envs self dir = (self, dir, []).
Proof.
  intros Hs. destruct envs as [|env envs]; [done|]. cbn.
  destruct Hs as [-> | ->]; [done|]. by rewrite andb_false_r.
Qed.

(** C6: a cycle whose fetch gives no snapshot returns the worker (hence the
    four ad-break fields and the two stop flags) and the output directory
    as they were, performs nothing after the fetch but the two-second
    sleep, and does not leave the loop; the cycles that follow run as if
    the failed one had not taken place. *)
Theorem failed_fetch_changes_nothing self dir env :
  _download_playlist (env_fetch env) = Ok None ->
  cycle dumps self dir env
  = (self, dir, [DidFetch; DidSleep SleepRetry], Continue) /\
  (forall env', cycle dumps (cycle dumps self dir env).1.1.1
                  (cycle dumps self dir env).1.1.2 env'
                = cycle dumps self dir env') /\
  (running self = true -> _stop_event self = false ->
   forall envs,
     process_stream_loop dumps (env :: envs) self dir
     = let '(self', dir', log) := process_stream_loop dumps envs self dir in
       (self', dir', [DidFetch; DidSleep SleepRetry] :: log)).
Proof.
  intros Hf.
  assert (Hc : cycle dumps self dir env
               = (self, dir, [DidFetch; DidSleep SleepRetry], Continue)).
  { unfold cycle. by rewrite Hf. }
  split; [exact Hc|]. split.
  - intros env'. by rewrite Hc.
  - intros Hr Hs envs. cbn [process_stream_loop]. rewrite Hr, Hs, Hc. done.
Qed.

(** C7: when the [try] block of [_save_playlist] ends with
    [PermissionError], the method returns the stopped worker ([running]
    false, stop event set), the cycle breaks out of the loop before the
    segment steps, and no later iteration runs; when it ends with any
    other exception, the worker is returned as it was and a running worker
    goes on with the segment steps and stays running. *)
Theorem save_errors_stop_or_log self dir env playlist self1 playlist1 evs
    dir' e :
  env_fetch env = Fetched playlist ->
  _process_playlist_for_markers self playlist (env_ticks env)
  = Ok (self1, playlist1, evs) ->
  save_try dumps dir playlist1 (env_mkdir env) (env_write env)
  = (dir', Some e) ->
  (e = PermissionError ->
   _save_playlist dumps self1 dir playlist1 (env_mkdir env) (env_write env)
   = (stop self1, dir') /\
   running (stop self1) = false /\ _stop_event (stop self1) = true /\
   cycle dumps self dir env
   = (stop self1, dir', [DidFetch; DidMarkers evs; DidSave], Break) /\
   forall envs, process_stream_loop dumps envs (stop self1) dir'
                = (stop self1, dir', [])) /\
  (e <> PermissionError ->
   _save_playlist dumps self1 dir playlist1 (env_mkdir env) (env_write env)
   = (self1, dir') /\
   (running self = true ->
    exists self' dir'',
      cycle dumps self dir env
      = (self', dir'',
         [DidFetch; DidMarkers evs; DidSave; DidSegments; DidCleanup;
          DidSleep SleepAdaptive], Continue) /\
      running self' = true /\ _stop_event self' = _stop_event self)).
Proof.
  intros Hf Hm Ht.
  destruct (markers_keep_flags _ _ _ _ _ _ Hm) as (Hr & Hs & _).
  split.
  - intros ->.
    assert (Hsave : _save_playlist dumps self1 dir playlist1
                      (env_mkdir env) (env_write env) = (stop self1, dir')).
    { unfold _save_playlist. by rewrite Ht. }
    split; [exact Hsave|]. split; [done|]. split; [done|]. split.
    + unfold cycle. rewrite Hf. cbn. rewrite Hm, Hsave. done.
    + intros envs. apply stopped_loop_is_over. by left.
  - intros Hne.
    assert (Hsave : _save_playlist dumps self1 dir playlist1
                      (env_mkdir env) (env_write env) = (self1, dir')).
    { unfold _save_playlist. rewrite Ht. by destruct e. }
    split; [exact Hsave|]. intros Hrun.
    unfold cycle. rewrite Hf. cbn. rewrite Hm, Hsave, Hr, Hrun. cbn.
    pose proof (process_segments_keeps_flags self1 dir' playlist1
                  (env_download env)) as [Hr' Hs'].
    destruct (_process_segments self1 dir' playlist1 (env_download env))
      as [s2 d2].
    cbn in *. eexists _, _. split; [reflexivity|]. split; congruence.
Qed.

End WorkerFacts.

Lemma failed_fetch_changes_nothing_witness :
  let self := set_running (poll_after (poll_once demo_worker
                 (demo_playlist ["a.ts"]) (at_time 300))) true in
  let dir := Some (demo_dir ["a.ts"; "playlist.m3u8"]) in
  let env := {| env_fetch := RequestException; env_ticks := at_time 310;
                env_mkdir := IoOk; env_write := IoOk;
                env_download := demo_download |} in
  in_ad_break self = true /\
  _download_playlist (env_fetch env) = Ok None /\
  cycle (demo_dumps "") self dir env
  = (self, dir, [DidFetch; DidSleep SleepRetry], Continue).
Proof.
  intros self dir env.
  split; [reflexivity|]. split; [reflexivity|].
  apply (failed_fetch_changes_nothing (demo_dumps "") self dir env eq_refl).
Defined.

Lemma save_errors_stop_or_log_witness :
  let self := set_running demo_worker true in
  let dir := Some (demo_dir ["a.ts"]) in
  let playlist := demo_playlist ["a.ts"] in
  let env := {| env_fetch := Fetched playlist; env_ticks := at_time 10;
                env_mkdir := IoOk; env_write := IoPermissionError;
                env_download := demo_download |} in
  save_try (demo_dumps "#EXTM3U") dir playlist IoOk IoPermissionError
  = (dir, Some PermissionError) /\
  cycle (demo_dumps "#EXTM3U") self dir env
  = (stop self, dir, [DidFetch; DidMarkers []; DidSave], Break) /\
  running (stop self) = false /\ _stop_event (stop self) = true.
Proof.
  intros self dir playlist env.
  assert (Ht : save_try (demo_dumps "#EXTM3U") dir playlist
                 (env_mkdir env) (env_write env)
               = (dir, Some PermissionError)) by reflexivity.
  assert (Hm : _process_playlist_for_markers self playlist (env_ticks env)
               = Ok (self, playlist, [])) by (vm_compute; reflexivity).
  destruct (save_errors_stop_or_log (demo_dumps "#EXTM3U") self dir env
              playlist self playlist [] dir PermissionError
              eq_refl Hm Ht) as [Hperm _].
  destruct (Hperm eq_refl) as (_ & Hrun & Hstop & Hcycle & _).
  split; [exact Ht|]. split; [exact Hcycle|]. split; [exact Hrun|exact Hstop].
Defined.

(** ** The output directory: download and pruning *)

Section FilesFacts.
Context {T : Type} `{Clock T}.

Implicit Types (self : @HLSProcessor T) (playlist : @M3U8 T)
  (ents : gmap string dir_entry) (current : gset string).

Lemma cleanup_loop_keeps cw current items ents n :
  (forall e, (n, e) ∈ items -> ~ prunable current n e) ->
  cleanup_loop cw current items ents !! n = ents !! n.
Proof.
  revert ents; induction items as [|[name e] items IH]; intros ents Hn; cbn; [done|].
  assert (Hrest : forall e0, (n, e0) ∈ items -> ~ prunable current n e0).
  { intros e0 Hin. apply Hn. by right. }
  destruct (is_file e && endswith name ".ts") eqn:Hts; [|by apply IH].
  apply andb_true_iff in Hts as [Hf Hs].
  case_bool_decide as Hcur; [|by apply IH].
  destruct cw; [|done].
  rewrite IH by done.
  apply lookup_delete_ne. intros ->.
  apply (Hn e); [by left|]. by repeat split.
Qed.

Lemma cleanup_loop_subseteq cw current items ents :
  cleanup_loop cw current items ents ⊆ ents.
Proof.
  revert ents; induction items as [|[name e] items IH]; intros ents; cbn; [done|].
  destruct (is_file e && endswith name ".ts"); [|by apply IH].
  case_bool_decide; [|by apply IH].
  destruct cw; [|done].
  etrans; [apply IH|]. apply delete_subseteq.
Qed.

Lemma cleanup_loop_deletes current items ents n e :
  (n, e) ∈ items -> prunable current n e ->
  cleanup_loop true current items ents !! n = None.
Proof.
  intros Hin (Hf & Hs & Hcur).
  revert ents; induction items as [|[name e'] items IH]; intros ents; cbn.
  - by apply elem_of_nil in Hin.
  - apply elem_of_cons in Hin as [[= <- <-]|Hin].
    + rewrite Hf, Hs. cbn. rewrite bool_decide_eq_true_2 by done.
      assert (Hsub := cleanup_loop_subseteq true current items (delete n ents)).
      destruct (cleanup_loop true current items (delete n ents) !! n) eqn:Hl; [|done].
      eapply lookup_weaken in Hl; [|exact Hsub].
      by rewrite lookup_delete_eq in Hl.
    + destruct (is_file e' && endswith name ".ts"); [|by apply IH].
      case_bool_decide; by apply IH.
Qed.

Lemma cleanup_loop_readonly current items ents :
  cleanup_loop false current items ents = ents.
Proof.
  induction items as [|[name e] items IH]; cbn; [done|].
  destruct (is_file e && endswith name ".ts"); [|done].
  by case_bool_decide.
Qed.

(** C10: the cleanup step never touches an entry whose name does not end in
    [.ts] (the written [playlist.m3u8] among them), a sub-directory, or a
    name the snapshot references: every entry is as it was, or it was an
    unreferenced regular file ending in [.ts] and is gone; nothing is
    created or rewritten. *)
Theorem cleanup_only_unlinks_ts (d : directory) playlist :
  exists d',
    _cleanup_old_segments (Some d) playlist = Some d' /\
    writable d' = writable d /\
    (forall name,
       entries d' !! name = entries d !! name \/
       (entries d' !! name = None /\
        exists content, entries d !! name = Some (RegularFile content) /\
          endswith name ".ts" = true /\
          name ∉ current_segment_files playlist)) /\
    (forall name, endswith name ".ts" = false ->
       entries d' !! name = entries d !! name).
Proof.
  eexists. split; [reflexivity|]. split; [reflexivity|]. cbn. split.
  - intros name.
    destruct (entries d !! name) as [e|] eqn:He.
    + destruct (decide (prunable (current_segment_files playlist) name e)) as [Hp|Hp].
      * destruct (writable d).
        -- right. split.
           ++ eapply cleanup_loop_deletes; [|exact Hp]. by apply elem_of_map_to_list.
           ++ destruct Hp as (Hf & Hs & Hc). destruct e; [|done]. eauto.
        -- left. by rewrite cleanup_loop_readonly.
      * left. rewrite cleanup_loop_keeps; [done|].
        intros e0 Hin. apply elem_of_map_to_list in Hin. congruence.
    + left. rewrite cleanup_loop_keeps; [done|].
      intros e0 Hin. apply elem_of_map_to_list in Hin. congruence.
  - intros name Hs. apply cleanup_loop_keeps.
    intros e _ (_ & Hs' & _). congruence.
Qed.


Lemma download_all_other download ents (jobs : list (@Segment T * string)) n :
  (forall job, job ∈ jobs -> exists c, download job.1 = Downloaded c) ->
  n ∉ jobs.*2 ->
  (download_all download ents jobs).1 !! n = ents !! n.
Proof.
  revert ents; induction jobs as [|[seg name] jobs IH]; intros ents Hok Hn; cbn; [done|].
  destruct (Hok (seg, name)) as [c Hc]; [by left|].
  unfold download_segment; cbn in *. rewrite Hc.
  specialize (IH (<[name:=RegularFile c]> ents)).
  destruct (download_all download (<[name:=RegularFile c]> ents) jobs) as [ents' k].
  cbn in *. rewrite IH.
  - apply lookup_insert_ne. intros ->. apply Hn. by left.
  - intros job Hin. apply Hok. by right.
  - intros Hin. apply Hn. by right.
Qed.

Lemma download_all_fetched download ents (jobs : list (@Segment T * string)) n :
  (forall job, job ∈ jobs -> exists c, download job.1 = Downloaded c) ->
  n ∈ jobs.*2 ->
  exists seg c, (seg, n) ∈ jobs /\ download seg = Downloaded c /\
    (download_all download ents jobs).1 !! n = Some (RegularFile c).
Proof.
  revert ents; induction jobs as [|[seg name] jobs IH]; intros ents Hok Hn; cbn in *.
  - by apply elem_of_nil in Hn.
  - destruct (Hok (seg, name)) as [c Hc]; [by left|].
    assert (Hok' : forall job, job ∈ jobs -> exists c, download job.1 = Downloaded c).
    { intros job Hin. apply Hok. by right. }
    unfold download_segment; cbn in *. rewrite Hc.
    destruct (decide (n ∈ jobs.*2)) as [Hin|Hnin].
    + destruct (IH (<[name:=RegularFile c]> ents) Hok' Hin) as (seg' & c' & Hj & Hd & Hl).
      destruct (download_all download (<[name:=RegularFile c]> ents) jobs) as [ents' k].
      exists seg', c'. split; [by right|]. done.
    + pose proof (download_all_other download (<[name:=RegularFile c]> ents) jobs n Hok' Hnin) as Hl.
      destruct (download_all download (<[name:=RegularFile c]> ents) jobs) as [ents' k].
      cbn in *. apply elem_of_cons in Hn as [->|Hn]; [|done].
      exists seg, c. split; [by left|]. split; [done|].
      rewrite Hl. apply lookup_insert_eq.
Qed.

Lemma download_all_count download ents (jobs : list (@Segment T * string)) :
  (forall job, job ∈ jobs -> exists c, download job.1 = Downloaded c) ->
  (download_all download ents jobs).2 = Z.of_nat (length jobs).
Proof.
  revert ents; induction jobs as [|[seg name] jobs IH]; intros ents Hok; cbn; [done|].
  destruct (Hok (seg, name)) as [c Hc]; [by left|].
  unfold download_segment; cbn in *. rewrite Hc.
  specialize (IH (<[name:=RegularFile c]> ents)).
  destruct (download_all download (<[name:=RegularFile c]> ents) jobs) as [ents' k].
  cbn in *. rewrite IH; [lia|]. intros job Hin. apply Hok. by right.
Qed.

Lemma elem_of_scheduled (d : directory) playlist n :
  n ∈ scheduled d playlist <->
  n ∈ current_segment_files playlist /\ path_exists (entries d) n = false.
Proof.
  unfold scheduled, segments_to_download, current_segment_files.
  rewrite list_elem_of_fmap, elem_of_list_to_set. split.
  - intros ([seg name] & -> & Hin). apply list_elem_of_In, filter_In in Hin as [Hin Hex].
    apply in_map_iff in Hin as (seg' & [= <- <-] & Hin). cbn in *. split.
    + apply list_elem_of_In, in_map. done.
    + by apply negb_true_iff.
  - intros [Hin Hex]. apply list_elem_of_In, in_map_iff in Hin as (seg & <- & Hin).
    exists (seg, segment_name seg). split; [done|].
    apply list_elem_of_In, filter_In. split.
    + apply in_map_iff. eauto.
    + cbn. by rewrite Hex.
Qed.

Lemma scheduled_job (d : directory) playlist seg n :
  (seg, n) ∈ segments_to_download (entries d) playlist ->
  seg ∈ segments playlist /\ segment_name seg = n.
Proof.
  unfold segments_to_download. intros Hin.
  apply list_elem_of_In, filter_In in Hin as [Hin _].
  apply in_map_iff in Hin as (seg' & [= <- <-] & Hin).
  split; [by apply list_elem_of_In|done].
Qed.

Lemma endswith_ts_not_special n :
  endswith n ".ts" = true -> String.eqb n "" || String.eqb n ".." = false.
Proof.
  intros Hs. destruct (String.eqb_spec n "") as [->|_]; [discriminate|].
  destruct (String.eqb_spec n "..") as [->|_]; [discriminate|]. done.
Qed.


(** Why the amended C4 asks for an existing, writable directory: without
    it [_process_segments] returns before scheduling anything and no
    [unlink] goes through, so the pass changes nothing. *)
Lemma reconcile_needs_write_access self playlist download :
  reconcile self None playlist download = (self, None) /\
  forall d : directory, writable d = false ->
    reconcile self (Some d) playlist download = (self, Some d).
Proof.
  split; [reflexivity|]. intros d Hw.
  unfold reconcile, _process_segments, _cleanup_old_segments.
  rewrite Hw. cbn [negb]. rewrite Hw, cleanup_loop_readonly.
  by destruct d.
Qed.

(** Why it asks that no sub-directory bears a referenced name: such a name
    exists, so it is not downloaded, and it is not a file. *)
Lemma referenced_subdirectory_stays (d : directory) playlist n :
  entries d !! n = Some SubDirectory ->
  (n ∉ scheduled d playlist) /\ (n ∉ ts_files d).
Proof.
  intros Hn. split.
  - rewrite elem_of_scheduled. intros [_ Hex].
    unfold path_exists in Hex. rewrite Hn in Hex.
    rewrite bool_decide_eq_true_2 in Hex by eauto.
    by rewrite orb_true_r in Hex.
  - unfold ts_files. rewrite elem_of_dom. intros [e He].
    apply map_lookup_filter_Some in He as [He [Hf _]].
    rewrite Hn in He. injection He as <-. discriminate.
Qed.

End FilesFacts.


Lemma demo_dir_regular files n :
  entries (demo_dir files) !! n <> Some SubDirectory.
Proof.
  unfold demo_dir; cbn. intros Hn.
  apply elem_of_list_to_map_2, list_elem_of_In, in_map_iff in Hn
    as (x & Hx & _).
  discriminate.
Qed.

Lemma gset_differ (A B : gset string) (x : string) :
  bool_decide (x ∈ A) = false -> bool_decide (x ∈ B) = true -> A <> B.
Proof. intros HA HB ->. rewrite HB in HA. discriminate. Qed.

(** Scenario B: the directory holds [a.ts], [b.ts], [c.ts] and the written
    playlist; the snapshot references [b.ts], [c.ts], [d.ts]. *)
Example scenario_B :
  let dir := demo_dir ["a.ts"; "b.ts"; "c.ts"; "playlist.m3u8"] in
  let playlist := demo_playlist ["b.ts"; "c.ts"; "d.ts"] in
  let after := reconcile demo_worker (Some dir) playlist demo_download in
  scheduled dir playlist = ["d.ts"] /\
  segments_processed after.1 = 1 /\
  option_map (fun d => List.map (fun n => entries d !! n)
                         ["a.ts"; "b.ts"; "c.ts"; "d.ts"; "playlist.m3u8"])
    after.2
  = Some [None; Some (RegularFile "old b.ts"); Some (RegularFile "old c.ts");
          Some (RegularFile "new d.ts");
          Some (RegularFile "old playlist.m3u8")].
Proof. vm_compute. repeat split. Qed.



Lemma cleanup_only_unlinks_ts_witness :
  let dir := demo_dir ["a.ts"; "playlist.m3u8"] in
  let playlist := demo_playlist ["b.ts"] in
  endswith "playlist.m3u8" ".ts" = false /\
  exists dir',
    _cleanup_old_segments (Some dir) playlist = Some dir' /\
    entries dir' !! "playlist.m3u8" = entries dir !! "playlist.m3u8".
Proof.
  intros dir playlist. split; [reflexivity|].
  destruct (cleanup_only_unlinks_ts dir playlist)
    as (dir' & Hc & _ & _ & Hkeep).
  exists dir'. split; [exact Hc|]. apply Hkeep. reflexivity.
Defined.

(** ** The registry *)

Section DictFacts.
Context {V : Type}.
Implicit Types (d : dict V) (k : string) (v : V).

Lemma dict_get_None k d : dict_get k d = None <-> k ∉ dict_keys d.
Proof.
  induction d as [|[k' v'] d IH]; cbn.
  - split; [intros _ Hin; by apply elem_of_nil in Hin|done].
  - destruct (String.eqb_spec k k') as [->|Hne].
    + split; [discriminate|]. intros Hn. destruct Hn. by left.
    + rewrite IH. rewrite not_elem_of_cons. tauto.
Qed.

Lemma dict_mem_keys k d : dict_mem k d = true <-> k ∈ dict_keys d.
Proof.
  unfold dict_mem. destruct (dict_get k d) eqn:Hg.
  - split; [intros _|done]. destruct (decide (k ∈ dict_keys d)); [done|].
    apply dict_get_None in n. congruence.
  - split; [discriminate|]. intros Hin. apply dict_get_None in Hg. done.
Qed.

Lemma dict_get_set k v d k' :
  dict_get k' (dict_set k v d) = if String.eqb k' k then Some v else dict_get k' d.
Proof.
  induction d as [|[k0 v0] d IH]; cbn.
  - done.
  - destruct (String.eqb_spec k k0) as [->|Hne]; cbn.
    + destruct (String.eqb_spec k' k0); done.
    + destruct (String.eqb_spec k' k0) as [->|Hne'].
      * destruct (String.eqb_spec k0 k); [congruence|done].
      * exact IH.
Qed.

Lemma dict_keys_set_fresh k v d :
  k ∉ dict_keys d -> dict_keys (dict_set k v d) = dict_keys d ++ [k].
Proof.
  induction d as [|[k0 v0] d IH]; cbn; [done|].
  intros Hn. apply not_elem_of_cons in Hn as [Hne Hn].
  destruct (String.eqb_spec k k0); [done|]. cbn. f_equal. by apply IH.
Qed.

Lemma dict_values_set_fresh k v d :
  k ∉ dict_keys d -> dict_values (dict_set k v d) = dict_values d ++ [v].
Proof.
  unfold dict_values.
  induction d as [|[k0 v0] d IH]; cbn; [done|].
  intros Hn. apply not_elem_of_cons in Hn as [Hne Hn].
  destruct (String.eqb_spec k k0); [done|]. cbn. f_equal. by apply IH.
Qed.

Lemma dict_del_present k d :
  k ∈ dict_keys d ->
  exists d', dict_del k d = Some d' /\
    (NoDup (dict_keys d) -> dict_keys d' = List.filter (fun k' => negb (String.eqb k k')) (dict_keys d)) /\
    (NoDup (dict_keys d) -> forall k', dict_get k' d' = if String.eqb k' k then None else dict_get k' d).
Proof.
  induction d as [|[k0 v0] d IH]; cbn.
  - intros Hin. by apply elem_of_nil in Hin.
  - intros Hin. destruct (String.eqb_spec k k0) as [->|Hne].
    + exists d. split; [done|]. split.
      * intros Hnd. apply NoDup_cons in Hnd as [Hn0 Hnd]. cbn.
        clear IH Hin. induction d as [|[k1 v1] d IH]; cbn; [done|].
        cbn in Hn0. apply not_elem_of_cons in Hn0 as [Hne Hn0].
        apply NoDup_cons in Hnd as [_ Hnd].
        destruct (String.eqb_spec k0 k1); [done|]. cbn. f_equal. by apply IH.
      * intros Hnd k'. apply NoDup_cons in Hnd as [Hn0 Hnd].
        destruct (String.eqb_spec k' k0) as [->|]; [|done].
        by apply dict_get_None.
    + apply elem_of_cons in Hin as [Hin|Hin]; [done|].
      destruct (IH Hin) as (d' & -> & Hk & Hg). eexists. split; [done|]. split.
      * intros Hnd. apply NoDup_cons in Hnd as [_ Hnd]. cbn.
        destruct (String.eqb_spec k k0); [done|]. cbn. f_equal. by apply Hk.
      * intros Hnd k'. apply NoDup_cons in Hnd as [_ Hnd]. cbn.
        destruct (String.eqb_spec k' k0) as [->|Hne'].
        -- destruct (String.eqb_spec k0 k); [congruence|done].
        -- by apply Hg.
Qed.

End DictFacts.

Section RegistryFacts.
Context {T : Type} `{Clock T}.
Implicit Types (r : @registry T).

Lemma filter_NoDup_keys (k : string) (l : list string) :
  NoDup l -> NoDup (List.filter (fun k' => negb (String.eqb k k')) l).
Proof.
  induction 1 as [|x l Hx Hnd IH]; cbn; [constructor|].
  destruct (negb (String.eqb k x)); [|done].
  constructor; [|done]. rewrite list_elem_of_In, filter_In, <- list_elem_of_In. tauto.
Qed.

Lemma dict_get_set_other {V : Type} (k k' : string) (v : V) (d : dict V) :
  k' <> k -> dict_get k' (dict_set k v d) = dict_get k' d.
Proof.
  intros Hne. rewrite dict_get_set. by destruct (String.eqb_spec k' k).
Qed.

Lemma dict_mem_set {V : Type} (k : string) (v : V) (d : dict V) :
  dict_mem k (dict_set k v d) = true.
Proof. unfold dict_mem. by rewrite dict_get_set, String.eqb_refl. Qed.

(** A fresh id whose [ad_interval] does not fit a float: the constructor
    raises, and nothing is recorded. *)
Lemma add_stream_overflow r cfg now :
  dict_mem (stream_id cfg) (streams (manager r)) = false ->
  int_fits_float (ad_interval cfg) = false ->
  add_stream r cfg now = (r, Raised OverflowError, []).
Proof.
  intros Hm Hfit. unfold add_stream, HLSProcessor_new. by rewrite Hm, Hfit.
Qed.

(** A thread that cannot be started: the exception leaves [add_stream]
    with the worker and the configuration recorded, and no thread; the
    three dicts no longer hold the same ids. *)
Lemma add_stream_thread_fails r cfg now e :
  dict_mem (stream_id cfg) (streams (manager r)) = false ->
  int_fits_float (ad_interval cfg) = true ->
  thread_error r = Some e ->
  exists r',
    add_stream r cfg now = (r', Raised e, []) /\
    dict_mem (stream_id cfg) (streams (manager r')) = true /\
    dict_mem (stream_id cfg) (configs (manager r')) = true /\
    threads (manager r') = threads (manager r) /\
    streams_json r' = streams_json r.
Proof.
  intros Hm Hfit Hth. unfold add_stream, HLSProcessor_new.
  rewrite Hm, Hfit, Hth. eexists. split; [reflexivity|].
  cbn [with_manager manager streams configs threads streams_json].
  by rewrite !dict_mem_set.
Qed.

(** A file that cannot be opened: the exception leaves [add_stream] with
    the stream recorded in the three dicts and the file as it was. *)
Lemma add_stream_save_fails r cfg now e :
  dict_mem (stream_id cfg) (streams (manager r)) = false ->
  int_fits_float (ad_interval cfg) = true ->
  thread_error r = None ->
  json_error r = Some e ->
  exists r' th,
    add_stream r cfg now = (r', Raised e, [ThreadStarted th]) /\
    dict_mem (stream_id cfg) (streams (manager r')) = true /\
    dict_mem (stream_id cfg) (configs (manager r')) = true /\
    dict_mem (stream_id cfg) (threads (manager r')) = true /\
    streams_json r' = streams_json r.
Proof.
  intros Hm Hfit Hth Hjs. unfold add_stream, HLSProcessor_new.
  rewrite Hm, Hfit, Hth, Hjs. eexists _, _. split; [reflexivity|].
  cbn [with_manager manager streams configs threads streams_json].
  by rewrite !dict_mem_set.
Qed.

(** What [remove_stream] does to the three dicts of a registry whose
    dicts hold the same ids. *)
Lemma remove_stream_dicts r id processor :
  dict_get id (streams (manager r)) = Some processor ->
  registry_ok r ->
  exists th s' c' t',
    dict_get id (threads (manager r)) = Some th /\
    dict_del id (streams (manager r)) = Some s' /\
    dict_del id (configs (manager r)) = Some c' /\
    dict_del id (threads (manager r)) = Some t' /\
    let m' := {| streams := s'; configs := c'; threads := t' |} in
    dict_mem id s' = false /\ dict_mem id c' = false /\
    dict_mem id t' = false /\
    others_kept id (manager r) m' /\
    NoDup (dict_keys s') /\ dict_keys c' = dict_keys s' /\
    dict_keys t' = dict_keys s'.
Proof.
  intros Hp (Hnd & Hc & Ht).
  assert (Hin : id ∈ dict_keys (streams (manager r))).
  { apply dict_mem_keys. unfold dict_mem. by rewrite Hp. }
  destruct (dict_get id (threads (manager r))) as [th|] eqn:Hth.
  2:{ apply dict_get_None in Hth. congruence. }
  destruct (dict_del_present id (streams (manager r)) Hin)
    as (s' & Hs' & Hks & Hgs).
  destruct (dict_del_present id (configs (manager r)))
    as (c' & Hc' & Hkc & Hgc); [congruence|].
  destruct (dict_del_present id (threads (manager r)))
    as (t' & Ht' & Hkt & Hgt); [congruence|].
  rewrite Hc in Hkc, Hgc. rewrite Ht in Hkt, Hgt.
  exists th, s', c', t'. split; [done|]. split; [done|]. split; [done|].
  split; [done|]. cbn zeta.
  split; [unfold dict_mem; by rewrite Hgs, String.eqb_refl|].
  split; [unfold dict_mem; by rewrite Hgc, String.eqb_refl|].
  split; [unfold dict_mem; by rewrite Hgt, String.eqb_refl|].
  split.
  { intros id' Hne. cbn [streams configs threads].
    rewrite Hgs, Hgc, Hgt by done.
    by destruct (String.eqb_spec id' id). }
  rewrite Hks, Hkc, Hkt by done.
  split; [by apply filter_NoDup_keys|done].
Qed.

(** A file that cannot be opened: the exception leaves [remove_stream]
    after the three deletions, with the file as it was. *)
Lemma remove_stream_save_fails r id joined e :
  dict_mem id (streams (manager r)) = true ->
  registry_ok r ->
  json_error r = Some e ->
  exists r' sigs,
    remove_stream r id joined = (r', Raised e, sigs) /\
    dict_mem id (streams (manager r')) = false /\
    streams_json r' = streams_json r.
Proof.
  intros Hm Hok Hjs. unfold dict_mem in Hm.
  destruct (dict_get id (streams (manager r))) as [processor|] eqn:Hp; [|done].
  destruct (remove_stream_dicts r id processor Hp Hok)
    as (th & s' & c' & t' & Hth & Hs' & Hc' & Ht' & Hgone & _).
  unfold remove_stream. rewrite Hp, Hth, Hs', Hc', Ht', Hjs.
  eexists _, _. split; [reflexivity|].
  cbn [with_manager manager streams streams_json]. done.
Qed.

(** A stream without its thread, as a failed [thread.start()] leaves it:
    [remove_stream] raises [KeyError] where it reads [self.threads], and
    removes nothing. *)
Lemma remove_stream_without_thread r id joined processor :
  dict_get id (streams (manager r)) = Some processor ->
  dict_get id (threads (manager r)) = None ->
  remove_stream r id joined = (r, Raised KeyError, []).
Proof. intros Hp Hth. unfold remove_stream. by rewrite Hp, Hth. Qed.


End RegistryFacts.

(** ** The EXTINF rewriting *)

Lemma re_sub_extinf_step s :
  re_sub_extinf s =
  match s with
  | EmptyString => Ok EmptyString
  | String c s' =>
      match match_extinf s with
      | Some (d, rest) =>
          match extinf_repl d with
          | Raise e => Raise e
          | Ok r => match re_sub_extinf rest with
                    | Raise e => Raise e
                    | Ok out => Ok (r +:+ out)
                    end
          end
      | None => match re_sub_extinf s' with
                | Raise e => Raise e
                | Ok out => Ok (String c out)
                end
      end
  end.
Proof.
  funelim (re_sub_extinf s).
  - reflexivity.
  - rewrite Hm. rewrite Heq. reflexivity.
  - rewrite Hm. rewrite Heq0. rewrite Heq. reflexivity.
  - rewrite Hm. rewrite Heq0. rewrite Heq. reflexivity.
  - rewrite Hm. rewrite Heq. reflexivity.
  - rewrite Hm. rewrite Heq. reflexivity.
Qed.

Lemma append_cons (x : ascii) (a b : string) :
  String x a +:+ b = String x (a +:+ b).
Proof. reflexivity. Qed.

Lemma append_nil_l (b : string) : EmptyString +:+ b = b.
Proof. reflexivity. Qed.

Lemma append_assoc (a b c : string) : (a +:+ b) +:+ c = a +:+ (b +:+ c).
Proof.
  induction a as [|x a IH]; [done|]. rewrite !append_cons. by rewrite IH.
Qed.

Lemma strip_prefix_cons a p b s :
  strip_prefix (String a p) (String b s)
  = if Ascii.eqb a b then strip_prefix p s else None.
Proof. reflexivity. Qed.

Lemma strip_prefix_append_other p s c0 tl :
  (forall q1 q2, p <> q1 +:+ String c0 q2) ->
  strip_prefix p (s +:+ String c0 tl)
  = option_map (fun r => r +:+ String c0 tl) (strip_prefix p s).
Proof.
  revert s; induction p as [|a p IH]; intros s Hp; [done|].
  destruct s as [|b s].
  - rewrite append_nil_l. cbn.
    destruct (Ascii.eqb_spec a c0) as [->|Hne]; [|done].
    destruct (Hp EmptyString p). done.
  - rewrite append_cons. cbn.
    destruct (Ascii.eqb a b); [|done]. apply IH.
    intros q1 q2 ->. by apply (Hp (String a q1) q2).
Qed.

Lemma span_digits_append_hash s tl :
  span_digits (s +:+ String "#" tl)
  = ((span_digits s).1, (span_digits s).2 +:+ String "#" tl).
Proof.
  induction s as [|c s IH]; [done|]. rewrite append_cons. cbn.
  destruct (is_digit c); [|done].
  rewrite IH. by destruct (span_digits s).
Qed.

Lemma match_extinf_append_hash c s tl :
  match_extinf (String c s +:+ String "#" tl)
  = option_map (fun m => (m.1, m.2 +:+ String "#" tl)) (match_extinf (String c s)).
Proof.
  unfold match_extinf. rewrite append_cons.
  change "#EXTINF:"%string with (String "#" "EXTINF:").
  rewrite !strip_prefix_cons.
  destruct (Ascii.eqb "#" c); [|done].
  rewrite strip_prefix_append_other.
  2:{ intros q1 q2 Hq.
      do 7 (destruct q1 as [|? q1]; [discriminate|];
            rewrite append_cons in Hq; injection Hq as _ Hq).
      destruct q1; discriminate. }
  destruct (strip_prefix "EXTINF:" s) as [s1|]; [|done]. cbn [option_map].
  rewrite span_digits_append_hash.
  destruct (span_digits s1) as [ip s2]. cbn [fst snd].
  destruct (is_empty ip); [done|].
  destruct s2 as [|c2 s3]; [done|]. rewrite append_cons.
  destruct (Ascii.eqb_spec c2 ",") as [->|Hc]; [done|].
  destruct (Ascii.eqb_spec c2 ".") as [->|Hd].
  - rewrite span_digits_append_hash.
    destruct (span_digits s3) as [fp s4]. cbn [fst snd].
    destruct (is_empty fp); [done|].
    destruct s4 as [|c4 s5]; [done|]. rewrite append_cons.
    destruct (Ascii.eqb_spec c4 ",") as [->|Hc4]; [done|].
    destruct c4 as [[] [] [] [] [] [] [] []]; try done.
  - destruct c2 as [[] [] [] [] [] [] [] []]; try done.
Qed.

Lemma re_sub_extinf_append_hash pre tl :
  re_sub_extinf (pre +:+ String "#" tl) =
  match re_sub_extinf pre with
  | Raise e => Raise e
  | Ok a => match re_sub_extinf (String "#" tl) with
            | Raise e => Raise e
            | Ok b => Ok (a +:+ b)
            end
  end.
Proof.
  remember (String.length pre) as n eqn:Hn.
  revert pre Hn. induction n as [n IH] using lt_wf_ind. intros pre Hn.
  destruct pre as [|c s].
  - rewrite (re_sub_extinf_step EmptyString). rewrite append_nil_l.
    by destruct (re_sub_extinf (String "#" tl)).
  - rewrite (re_sub_extinf_step (String c s +:+ _)).
    rewrite (re_sub_extinf_step (String c s)).
    rewrite match_extinf_append_hash. rewrite append_cons.
    destruct (match_extinf (String c s)) as [[d rest]|] eqn:Hm; cbn [option_map fst snd].
    + destruct (extinf_repl d) as [r|e]; [|done].
      apply match_extinf_rest_shorter in Hm.
      rewrite (IH (String.length rest)); [|lia|done].
      destruct (re_sub_extinf rest) as [out|e]; [|done].
      destruct (re_sub_extinf (String "#" tl)) as [b|e]; [|done].
      by rewrite append_assoc.
    + rewrite (IH (String.length s)); [|cbn in Hn; lia|done].
      destruct (re_sub_extinf s) as [out|e]; [|done].
      by destruct (re_sub_extinf (String "#" tl)).
Qed.

Lemma span_digits_run ds c tl :
  all_digits ds = true -> is_digit c = false ->
  span_digits (ds +:+ String c tl) = (ds, String c tl).
Proof.
  intros Hds Hc. induction ds as [|x ds IH].
  - rewrite append_nil_l. cbn. by rewrite Hc.
  - rewrite append_cons. cbn in *. apply andb_true_iff in Hds as [-> Hds].
    by rewrite IH.
Qed.

Lemma digit_run_inv s :
  digit_run s = true -> is_empty s = false /\ all_digits s = true.
Proof.
  unfold digit_run. intros Hr. apply andb_true_iff in Hr as [He Ha].
  by apply negb_true_iff in He.
Qed.

Lemma match_extinf_exact d post :
  decimal_wf d = true ->
  match_extinf ("#EXTINF:" +:+ decimal_text d +:+ "," +:+ post) = Some (d, post).
Proof.
  destruct d as [ip [fp|]]; unfold decimal_wf, decimal_text; cbn [int_digits frac_digits];
    intros Hwf; apply andb_true_iff in Hwf as [Hi Hf];
    apply digit_run_inv in Hi as [Hie Hia].
  - apply digit_run_inv in Hf as [Hfe Hfa].
    unfold match_extinf.
    change ("#EXTINF:" +:+ (ip +:+ "." +:+ fp) +:+ "," +:+ post)
      with ("#EXTINF:" +:+ ((ip +:+ "." +:+ fp) +:+ "," +:+ post)).
    replace (strip_prefix "#EXTINF:" ("#EXTINF:" +:+ ((ip +:+ "." +:+ fp) +:+ "," +:+ post)))
      with (Some ((ip +:+ "." +:+ fp) +:+ "," +:+ post)) by reflexivity.
    rewrite append_assoc.
    change ("." +:+ fp) with (String "." fp).
    rewrite append_cons.
    rewrite span_digits_run by done. rewrite Hie.
    change ("," +:+ post) with (String "," post).
    rewrite span_digits_run by done. by rewrite Hfe.
  - unfold match_extinf.
    replace (strip_prefix "#EXTINF:" ("#EXTINF:" +:+ ip +:+ "," +:+ post))
      with (Some (ip +:+ "," +:+ post)) by reflexivity.
    change ("," +:+ post) with (String "," post).
    rewrite span_digits_run by done. by rewrite Hie.
Qed.

(** *** Rounding *)

Lemma round_half_even_div_nearest n d :
  0 < d -> Z.abs (2 * (round_half_even_div n d * d - n)) <= d.
Proof.
  intros Hd. unfold round_half_even_div.
  pose proof (Z.div_mod n d ltac:(lia)) as Hdm.
  pose proof (Z.mod_pos_bound n d Hd) as Hr.
  destruct (Z.compare_spec (2 * (n mod d)) d) as [He|Hl|Hg].
  - destruct (Z.even (n / d)); nia.
  - nia.
  - nia.
Qed.

Lemma round_half_even_div_nonneg n d :
  0 < d -> 0 <= n -> 0 <= round_half_even_div n d.
Proof.
  intros Hd Hn. unfold round_half_even_div.
  pose proof (Z.div_pos n d Hn Hd).
  destruct (2 * (n mod d) ?= d); [destruct (Z.even _)| |]; lia.
Qed.

(** Rounding [n / s] to a multiple of [1 / P] and then to an integer gives
    an integer nearest to [n / s], unless the grid is as coarse as [1 / s]. *)
Lemma two_step_round n s P m r :
  0 < s -> 0 < P ->
  Z.abs (2 * (m * s - n * P)) <= s ->
  Z.abs (2 * (r * P - m)) <= P ->
  Z.abs (2 * (r * s - n)) <= s \/ P <= s.
Proof.
  intros Hs HP Hm Hr.
  destruct (Z_le_gt_dec (Z.abs (2 * (r * s - n))) s) as [Hle|Hgt]; [by left|right].
  destruct (Z_le_gt_dec (2 * (r * s - n)) 0) as [Hneg|Hpos].
  - (* n lies above r + 1/2 *)
    assert (H1 : 1 <= 2 * n - (2 * r + 1) * s) by lia.
    assert (H2 : 2 * m <= (2 * r + 1) * P) by lia.
    assert (H3 : 2 * n * P - s <= 2 * m * s) by lia.
    assert (H4 : P * (2 * n - (2 * r + 1) * s) <= s) by nia.
    nia.
  - assert (H1 : 1 <= (2 * r - 1) * s - 2 * n) by lia.
    assert (H2 : (2 * r - 1) * P <= 2 * m) by lia.
    assert (H3 : 2 * m * s <= 2 * n * P + s) by lia.
    assert (H4 : P * ((2 * r - 1) * s - 2 * n) <= s) by nia.
    nia.
Qed.

Lemma binade_lower n s :
  0 < n -> 0 < s ->
  (0 <= binade n s -> s * 2 ^ binade n s <= n) /\
  (binade n s < 0 -> s <= n * 2 ^ (- binade n s)) /\
  binade n s <= Z.log2 n.
Proof.
  intros Hn Hs. unfold binade.
  pose proof (Z.log2_spec n Hn) as [Hn1 Hn2].
  pose proof (Z.log2_spec s Hs) as [Hs1 Hs2].
  pose proof (Z.log2_nonneg n) as Hln. pose proof (Z.log2_nonneg s) as Hls.
  set (ln := Z.log2 n) in *. set (ls := Z.log2 s) in *.
  destruct (Z.leb_spec 0 (ln - ls)) as [He0|He0].
  - destruct (Z.ltb_spec n (s * 2 ^ (ln - ls))) as [Hb|Hb].
    + split; [|split; [|lia]].
      * intros He.
        assert (Hp : 2 ^ (ls + 1) * 2 ^ (ln - ls - 1) = 2 ^ ln).
        { rewrite <- Z.pow_add_r by lia. f_equal. lia. }
        assert (0 < 2 ^ (ln - ls - 1)) by (apply Z.pow_pos_nonneg; lia).
        nia.
      * intros He. assert (ln - ls = 0) as Hz by lia.
        rewrite Hz in *. replace (- (0 - 1)) with 1 by lia.
        assert (ln = ls) as -> by lia.
        rewrite Z.pow_succ_r in Hs2 by lia. change (2 ^ 1) with 2. lia.
    + split; [|split; lia]. intros _. lia.
  - destruct (Z.ltb_spec (n * 2 ^ (- (ln - ls))) s) as [Hb|Hb].
    + split; [lia|]. split; [|lia]. intros _.
      replace (- (ln - ls - 1)) with (ls + 1 - ln) by lia.
      assert (Hp : 2 ^ ln * 2 ^ (ls + 1 - ln) = 2 ^ (ls + 1)).
      { rewrite <- Z.pow_add_r by lia. f_equal. lia. }
      assert (0 < 2 ^ (ls + 1 - ln)) by (apply Z.pow_pos_nonneg; lia).
      nia.
    + split; [lia|]. split; [|lia]. intros _. lia.
Qed.

Lemma nearest_integer_ratio z n s :
  0 < s ->
  Z.abs (2 * (z * s - n)) <= s ->
  nearest_integer z (Qmake n (Z.to_pos s)).
Proof.
  intros Hs Hz. unfold nearest_integer.
  apply Qabs_Qle_condition.
  unfold Qle, Qminus, Qplus, Qopp, inject_Z; cbn.
  rewrite !Z2Pos.id by lia. lia.
Qed.

Lemma nearest_integer_self z : nearest_integer z (inject_Z z).
Proof.
  unfold nearest_integer. apply Qabs_Qle_condition.
  unfold Qle, Qminus, Qplus, Qopp, inject_Z; cbn. lia.
Qed.

Lemma py_round_nearest x : nearest_integer (py_round x) (binary64_value x).
Proof.
  unfold py_round, binary64_value.
  destruct (Z.leb_spec 0 (expo x)) as [Hu|Hu].
  - apply nearest_integer_self.
  - assert (HP : 0 < 2 ^ (- expo x)) by (apply Z.pow_pos_nonneg; lia).
    apply nearest_integer_ratio; [done|].
    by apply round_half_even_div_nearest.
Qed.

Lemma is_digit_value c :
  is_digit c = true -> 0 <= Z.of_N (N_of_ascii c) - 48 <= 9.
Proof.
  unfold is_digit. intros Hc. apply andb_true_iff in Hc as [H1 H2].
  apply N.leb_le in H1, H2. lia.
Qed.

Lemma digits_value_nonneg s acc :
  all_digits s = true -> 0 <= acc -> 0 <= digits_value acc s.
Proof.
  revert acc; induction s as [|c s IH]; intros acc Hs Hacc; cbn in *; [done|].
  apply andb_true_iff in Hs as [Hc Hs]. apply is_digit_value in Hc.
  apply IH; [done|lia].
Qed.

Lemma all_digits_append a b :
  all_digits (a +:+ b) = all_digits a && all_digits b.
Proof.
  induction a as [|c a IH]; [done|]. rewrite append_cons. cbn.
  by rewrite IH, andb_assoc.
Qed.

Lemma decimal_num_nonneg d : decimal_wf d = true -> 0 <= decimal_num d.
Proof.
  unfold decimal_wf, decimal_num. intros Hwf.
  apply andb_true_iff in Hwf as [Hi Hf]. apply digit_run_inv in Hi as [_ Hi].
  apply digits_value_nonneg; [|done]. rewrite all_digits_append, Hi.
  destruct (frac_digits d) as [f|]; [|done]. cbn.
  by apply digit_run_inv in Hf as [_ Hf].
Qed.

Lemma decimal_scale_pos d : 0 < decimal_scale d.
Proof. unfold decimal_scale. apply Z.pow_pos_nonneg; lia. Qed.

(** With at most 52 bits of digits, the detour through binary64 does not
    move the rounding. *)
Lemma float_then_round_nearest n s :
  0 <= n < 2 ^ 52 -> 0 < s ->
  exists x, float_of_ratio n s = Some x /\
            Z.abs (2 * (py_round x * s - n)) <= s.
Proof.
  intros [Hn0 Hn] Hs. unfold float_of_ratio.
  destruct (Z.eqb_spec n 0) as [->|Hnz].
  - eexists; split; [reflexivity|]. cbn. lia.
  - assert (Hnpos : 0 < n) by lia.
    destruct (binade_lower n s Hnpos Hs) as (Hlo1 & Hlo2 & Hlog).
    assert (Hlog52 : Z.log2 n < 52) by (by apply Z.log2_lt_pow2).
    set (e := binade n s) in *.
    set (u := Z.max (e - 52) (-1074)).
    assert (Hu : u < 0) by lia.
    destruct (Z.leb_spec 0 u) as [?|_]; [lia|]. cbn [andb].
    eexists; split; [reflexivity|].
    unfold py_round; cbn [expo mant].
    destruct (Z.leb_spec 0 u) as [?|_]; [lia|].
    set (P := 2 ^ (- u)).
    assert (HP : 0 < P) by (apply Z.pow_pos_nonneg; lia).
    set (m := round_half_even_div (n * P) s).
    set (r := round_half_even_div m P).
    pose proof (round_half_even_div_nearest (n * P) s Hs) as F1. fold m in F1.
    pose proof (round_half_even_div_nearest m P HP) as F2. fold r in F2.
    destruct (two_step_round n s P m r Hs HP F1 F2) as [Hdone|HPs]; [done|].
    assert (Hm0 : 0 <= m).
    { apply round_half_even_div_nonneg; [done|nia]. }
    assert (Hr0 : 0 <= r) by (by apply round_half_even_div_nonneg).
    destruct (Z_le_gt_dec (-1074) (e - 52)) as [Hnorm|Hsub].
    + (* normal range: the grid is finer than the decimal *)
      exfalso. assert (u = e - 52) as Hue by lia.
      destruct (Z_le_gt_dec 0 e) as [He|He].
      * assert (Hpe : P * 2 ^ e = 2 ^ 52).
        { unfold P. rewrite <- Z.pow_add_r by lia. f_equal. lia. }
        assert (0 < 2 ^ e) by (apply Z.pow_pos_nonneg; lia).
        specialize (Hlo1 He). nia.
      * assert (Hpe : P = 2 ^ 52 * 2 ^ (- e)).
        { unfold P. rewrite <- Z.pow_add_r by lia. f_equal. lia. }
        assert (0 < 2 ^ (- e)) by (apply Z.pow_pos_nonneg; lia).
        specialize (Hlo2 ltac:(lia)). nia.
    + (* subnormal range: the decimal is far below one half *)
      assert (u = -1074) as Hue by lia.
      assert (H53 : 2 ^ 54 <= P).
      { unfold P. rewrite Hue. apply Z.pow_le_mono_r; lia. }
      assert (n < 2 ^ 52) by done.
      assert (Hmn : m <= n) by nia.
      assert (Hr : r = 0) by nia.
      rewrite Hr. lia.
Qed.

Lemma re_sub_extinf_at_match d post :
  decimal_wf d = true ->
  re_sub_extinf ("#EXTINF:" +:+ decimal_text d +:+ "," +:+ post) =
  match extinf_repl d with
  | Raise e => Raise e
  | Ok r => match re_sub_extinf post with
            | Raise e => Raise e
            | Ok out => Ok (r +:+ out)
            end
  end.
Proof.
  intros Hwf. rewrite re_sub_extinf_step.
  rewrite (match_extinf_exact d post Hwf). reflexivity.
Qed.

Section WriterFacts.

Context {T : Type} `{Clock T}.
Variable dumps : @M3U8 T -> string.


End WriterFacts.





(** * Further properties *)

(** ** Runs of the ad-break state machine, with an encoder that returns *)

Section MarkerRunFacts.

Context {T : Type} `{Clock T}.
Implicit Types (self : @HLSProcessor T) (playlist : @M3U8 T) (tk : @ticks T).

Lemma tags_extended_refl (seg : @Segment T) : tags_extended seg seg.
Proof.
  repeat split. exists [], []. by rewrite app_nil_r.
Qed.

Lemma append_to_last_extends (segs : list (@Segment T)) new :
  Forall2 tags_extended segs (append_to_last segs new).
Proof.
  induction segs as [|seg segs IH]; [constructor|].
  destruct segs as [|seg' segs].
  - cbn. constructor; [|constructor]. repeat split. by exists [], new.
  - change (append_to_last (seg :: seg' :: segs) new)
      with (seg :: append_to_last (seg' :: segs) new).
    constructor; [apply tags_extended_refl|exact IH].
Qed.

Lemma Forall2_tags_refl (segs : list (@Segment T)) :
  Forall2 tags_extended segs segs.
Proof. induction segs; constructor; [apply tags_extended_refl|done]. Qed.

(** X2: the marker step only adds tags.  The playlist that leaves
    [_process_playlist_for_markers] has the same segments in the same
    order, each with its [uri], its [absolute_uri] and its former tags,
    new tags standing before or after them; [target_duration] is kept, and
    so are the worker's configuration, its two stop flags and its segment
    counter. *)
Theorem marker_step_only_adds_tags self playlist tk :
  let p := poll_once self playlist tk in
  Forall2 tags_extended (segments playlist) (segments (poll_out p)) /\
  target_duration (poll_out p) = target_duration playlist /\
  config (poll_after p) = config self /\
  running (poll_after p) = running self /\
  _stop_event (poll_after p) = _stop_event self /\
  segments_processed (poll_after p) = segments_processed self.
Proof.
  cbn. destruct (poll_once_case self playlist tk); cbn;
    try (split; [apply Forall2_tags_refl|done]).
  - unfold _insert_cue_in.
    destruct (segments playlist) as [|seg0 rest] eqn:Hs;
      cbn [fst snd segments target_duration with_segments].
    + rewrite Hs. split; [constructor|done].
    + split; [|done]. apply append_to_last_extends.
  - unfold _insert_cue_out.
    destruct (segments playlist) as [|seg0 rest] eqn:Hs; cbn.
    + rewrite Hs. split; [constructor|done].
    + split; [|done]. constructor; [|apply Forall2_tags_refl].
      repeat split. eexists [_], []. by rewrite app_nil_r.
Qed.

Lemma poll_before_once self playlist tk :
  poll_before (poll_once self playlist tk) = self.
Proof. by destruct (poll_once_case self playlist tk). Qed.

Lemma poll_ticks_once self playlist tk :
  poll_ticks (poll_once self playlist tk) = tk.
Proof. by destruct (poll_once_case self playlist tk). Qed.

Lemma poll_once_keeps_config self playlist tk :
  config (poll_after (poll_once self playlist tk)) = config self.
Proof.
  destruct (poll_once_case self playlist tk); cbn; try done.
  unfold _insert_cue_out. by destruct (segments playlist).
Qed.

Lemma polls_config self inputs k p :
  polls self inputs !! k = Some p ->
  config (poll_before p) = config self /\ config (poll_after p) = config self.
Proof.
  revert self k; induction inputs as [|[playlist tk] inputs IH]; intros self k; cbn.
  - intros Hp; discriminate.
  - destruct k as [|k]; cbn.
    + intros [= <-]. rewrite poll_before_once, poll_once_keeps_config. done.
    + intros Hp. apply IH in Hp. by rewrite poll_once_keeps_config in Hp.
Qed.

(** Between a poll that leaves the worker in phase [b] and a later poll
    that finds it in the other phase, some poll changed the phase. *)
Lemma opening_records_start self playlist tk :
  opens_break (poll_once self playlist tk) ->
  ad_break_start_time (poll_after (poll_once self playlist tk)) = Some (tick_now tk).
Proof.
  unfold opens_break.
  destruct (poll_once_case self playlist tk); cbn; intros [Hb Ha]; congruence.
Qed.

Lemma closing_checks_duration self playlist tk :
  closes_break (poll_once self playlist tk) ->
  exists start, ad_break_start_time self = Some start /\
    t_geb_int (t_sub (tick_now tk) start) (ad_duration (config self)) = true /\
    next_marker_time (poll_after (poll_once self playlist tk))
    = t_add_int (tick_now tk) (ad_interval (config self)).
Proof.
  unfold closes_break.
  destruct (poll_once_case self playlist tk); cbn; intros [Hb Ha];
    try congruence. eauto.
Qed.

Lemma opening_checks_due self playlist tk :
  opens_break (poll_once self playlist tk) ->
  t_geb (tick_now tk) (next_marker_time self) = true.
Proof.
  unfold opens_break.
  destruct (poll_once_case self playlist tk); cbn; intros [Hb Ha]; congruence.
Qed.

Lemma same_phase_keeps_worker self playlist tk :
  in_ad_break (poll_after (poll_once self playlist tk)) = in_ad_break self ->
  poll_after (poll_once self playlist tk) = self.
Proof.
  destruct (poll_once_case self playlist tk); cbn; congruence.
Qed.

(** While the phase stays [b] from poll [i] on, the worker stays as poll
    [i] left it. *)
Lemma worker_frozen_while_phase self inputs (b : bool) i j p_i :
  polls self inputs !! i = Some p_i ->
  in_ad_break (poll_after p_i) = b ->
  (forall k p, (i <= k < j)%nat -> polls self inputs !! k = Some p ->
               in_ad_break (poll_after p) = b) ->
  forall n p, (i + n < j)%nat -> polls self inputs !! (i + n)%nat = Some p ->
    poll_after p = poll_after p_i.
Proof.
  intros Hi Hb Hstay. induction n as [|n IH]; intros p Hlt Hp.
  - rewrite Nat.add_0_r in Hp. rewrite Hi in Hp. by injection Hp as <-.
  - replace (i + S n)%nat with (S (i + n)) in Hp by lia.
    destruct (polls_lookup_succ _ _ _ _ Hp) as (p0 & pl & tk & Hp0 & ->).
    assert (H0 : poll_after p0 = poll_after p_i) by (apply IH; [lia|done]).
    rewrite <- H0. apply same_phase_keeps_worker.
    rewrite (Hstay (S (i + n)) _ ltac:(lia) Hp).
    symmetry. apply (Hstay (i + n)%nat); [lia|done].
Qed.

(** X4: a break lasts at least [ad_duration].  If poll [i] opens a break,
    the worker is in the break after every poll from [i] up to [j], and
    poll [j] ends outside, then the clock reading of poll [j] minus that of
    poll [i] is at least [ad_duration]. *)
Theorem break_lasts_ad_duration self (inputs : list (@M3U8 T * @ticks T))
    (i j : nat) p_open p_close :
  (i < j)%nat ->
  polls self inputs !! i = Some p_open ->
  opens_break p_open ->
  (forall k p, (i <= k < j)%nat -> polls self inputs !! k = Some p ->
               in_ad_break (poll_after p) = true) ->
  polls self inputs !! j = Some p_close ->
  in_ad_break (poll_after p_close) = false ->
  t_geb_int
    (t_sub (tick_now (poll_ticks p_close)) (tick_now (poll_ticks p_open)))
    (ad_duration (config self)) = true.
Proof.
  intros Hij Hi Hopen Hstay Hj Hclosed.
  assert (Hpi : exists s pl tk, p_open = poll_once s pl tk).
  { apply polls_elem with self inputs. eapply list_elem_of_lookup_2; eauto. }
  destruct Hpi as (s1 & pl1 & tk1 & ->).
  pose proof (opening_records_start _ _ _ Hopen) as Hstart.
  rewrite poll_ticks_once.
  destruct j as [|j]; [lia|].
  destruct (polls_lookup_succ _ _ _ _ Hj) as (q & pl & tk & Hq & ->).
  assert (Hfrozen : poll_after q = poll_after (poll_once s1 pl1 tk1)).
  { apply (worker_frozen_while_phase self inputs true i (S j) _ Hi
             (proj2 Hopen) Hstay (j - i)%nat); [lia|].
    by replace (i + (j - i))%nat with j by lia. }
  assert (Hc : closes_break (poll_once (poll_after q) pl tk)).
  { split; [|done]. rewrite poll_before_once.
    apply (Hstay j); [lia|done]. }
  apply closing_checks_duration in Hc as (start & Hs & Hd & _).
  rewrite poll_ticks_once.
  rewrite Hfrozen, Hstart in Hs. injection Hs as <-.
  destruct (polls_config _ _ _ _ Hq) as [_ Hcfg]. by rewrite <- Hcfg.
Qed.

(** X5: breaks are at least [ad_interval] apart.  If poll [i] closes a
    break, the worker is idle after every poll from [i] up to [j], and poll
    [j] ends inside a break, then the clock reading of poll [j] is at
    least that of poll [i] plus [ad_interval]. *)
Theorem breaks_are_ad_interval_apart self (inputs : list (@M3U8 T * @ticks T))
    (i j : nat) p_close p_open :
  (i < j)%nat ->
  polls self inputs !! i = Some p_close ->
  closes_break p_close ->
  (forall k p, (i <= k < j)%nat -> polls self inputs !! k = Some p ->
               in_ad_break (poll_after p) = false) ->
  polls self inputs !! j = Some p_open ->
  in_ad_break (poll_after p_open) = true ->
  t_geb (tick_now (poll_ticks p_open))
    (t_add_int (tick_now (poll_ticks p_close)) (ad_interval (config self)))
  = true.
Proof.
  intros Hij Hi Hclose Hstay Hj Hopened.
  assert (Hpi : exists s pl tk, p_close = poll_once s pl tk).
  { apply polls_elem with self inputs. eapply list_elem_of_lookup_2; eauto. }
  destruct Hpi as (s1 & pl1 & tk1 & ->).
  destruct (closing_checks_duration _ _ _ Hclose) as (start & _ & _ & Hnext).
  rewrite poll_ticks_once.
  destruct j as [|j]; [lia|].
  destruct (polls_lookup_succ _ _ _ _ Hj) as (q & pl & tk & Hq & ->).
  assert (Hfrozen : poll_after q = poll_after (poll_once s1 pl1 tk1)).
  { apply (worker_frozen_while_phase self inputs false i (S j) _ Hi
             (proj2 Hclose) Hstay (j - i)%nat); [lia|].
    by replace (i + (j - i))%nat with j by lia. }
  assert (Ho : opens_break (poll_once (poll_after q) pl tk)).
  { split; [|done]. rewrite poll_before_once.
    apply (Hstay j); [lia|done]. }
  apply opening_checks_due in Ho. rewrite poll_ticks_once.
  rewrite Hfrozen, Hnext in Ho.
  destruct (polls_config _ _ _ _ Hi) as [Hcfg _].
  rewrite poll_before_once in Hcfg. by rewrite <- Hcfg.
Qed.

(** X6: the first break waits for [ad_interval].  For a worker made at
    [t0], the first poll that ends inside a break reads a clock of at least
    [t0 + ad_interval]. *)
Theorem first_break_waits_ad_interval cfg t0 (inputs : list (@M3U8 T * @ticks T))
    (j : nat) p_open :
  (forall k p, (k < j)%nat ->
     polls (HLSProcessor_init cfg t0) inputs !! k = Some p ->
     in_ad_break (poll_after p) = false) ->
  polls (HLSProcessor_init cfg t0) inputs !! j = Some p_open ->
  in_ad_break (poll_after p_open) = true ->
  t_geb (tick_now (poll_ticks p_open)) (t_add_int t0 (ad_interval cfg)) = true.
Proof.
  intros Hstay Hj Hopened.
  set (self := HLSProcessor_init cfg t0) in *.
  assert (Hinv : forall k p, (k < j)%nat -> polls self inputs !! k = Some p ->
            poll_after p = self).
  { induction k as [|k IH]; intros p Hk Hp.
    - destruct inputs as [|[pl tk] inputs]; [discriminate|].
      cbn in Hp. injection Hp as <-.
      apply same_phase_keeps_worker. apply (Hstay 0%nat); [lia|done].
    - destruct (polls_lookup_succ _ _ _ _ Hp) as (p0 & pl & tk & Hp0 & ->).
      pose proof (Hstay (S k) _ Hk Hp) as Hidle.
      rewrite (IH p0 ltac:(lia) Hp0) in Hidle |- *.
      by apply same_phase_keeps_worker. }
  assert (Hbefore : poll_before p_open = self).
  { destruct j as [|j].
    - destruct inputs as [|[pl tk] inputs]; [discriminate|].
      cbn in Hj. injection Hj as <-. apply poll_before_once.
    - destruct (polls_lookup_succ _ _ _ _ Hj) as (p0 & pl & tk & Hp0 & ->).
      rewrite poll_before_once. apply (Hinv j); [lia|done]. }
  assert (Hp : exists s pl tk, p_open = poll_once s pl tk).
  { apply polls_elem with self inputs. eapply list_elem_of_lookup_2; eauto. }
  destruct Hp as (s & pl & tk & ->).
  rewrite poll_before_once in Hbefore. subst s.
  rewrite poll_ticks_once.
  change (t_add_int t0 (ad_interval cfg)) with (next_marker_time self).
  apply (opening_checks_due self pl tk).
  split; [rewrite poll_before_once; reflexivity|exact Hopened].
Qed.

End MarkerRunFacts.

(** ** Runs of the ad-break state machine, with an encoder that may raise *)

Section EncoderRunFacts.

Context {T : Type} `{Clock T}.
Implicit Types (self : @HLSProcessor T) (playlist : @M3U8 T) (tk : @ticks T)
  (enc : option exn).

(** The cases of [call_once], in the order of the code. *)
Ltac call_cases self playlist tk enc :=
  unfold call_once;
  destruct (in_ad_break self) eqn:Hb;
  [ destruct (ad_break_start_time self) as [start|] eqn:Hs;
    [ destruct (t_geb_int (t_sub (tick_now tk) start)
                  (ad_duration (config self))) eqn:Hd;
      [ destruct (segments playlist) as [|seg0 rest] eqn:Hsegs;
        [ | destruct enc as [e0|] ];
        try (destruct (_insert_cue_in self playlist tk) as [pl evs] eqn:Hi;
             destruct (int_fits_float (ad_interval (config self))) eqn:Hfit)
      | ]
    | ]
  | destruct (t_geb (tick_now tk) (next_marker_time self)) eqn:Hd;
    [ destruct (segments playlist) as [|seg0 rest] eqn:Hsegs;
      [ | destruct enc as [e0|] ];
      try (destruct (_insert_cue_out self playlist tk)
             as [[self1 pl] evs] eqn:Hi)
    | ] ].

Lemma call_once_inputs self playlist tk enc :
  call_before (call_once self playlist tk enc) = self /\
  call_playlist (call_once self playlist tk enc) = playlist /\
  call_encoder (call_once self playlist tk enc) = enc.
Proof. call_cases self playlist tk enc; done. Qed.

Lemma insert_cue_out_keeps self playlist tk :
  config (_insert_cue_out self playlist tk).1.1 = config self /\
  in_ad_break (_insert_cue_out self playlist tk).1.1 = in_ad_break self /\
  ad_break_start_time (_insert_cue_out self playlist tk).1.1
  = ad_break_start_time self.
Proof. unfold _insert_cue_out. by destruct (segments playlist). Qed.

(** One call keeps the invariant, and under the invariant only the
    encoder makes it raise. *)
Lemma call_once_consistent self playlist tk enc :
  phase_consistent self ->
  phase_consistent (call_after (call_once self playlist tk enc)) /\
  forall e, call_raised (call_once self playlist tk enc) = Some e ->
    enc = Some e /\ segments playlist <> [] /\
    in_ad_break (call_after (call_once self playlist tk enc))
    = in_ad_break self.
Proof.
  unfold phase_consistent. intros [Hph Hfits].
  pose proof (insert_cue_out_keeps self playlist tk) as (Hk1 & Hk2 & Hk3).
  call_cases self playlist tk enc;
    cbn [call_after call_raised leave_ad_break leave_ad_break_partly
         enter_ad_break set_ad_break_event_id
         in_ad_break ad_break_start_time config];
    try rewrite Hi in *; cbn [fst snd] in *;
    rewrite ?Hk1, ?Hb, ?Hs, ?Hfit;
    try (by destruct Hph); try congruence;
    (split; [split; [eauto|done]|]);
    intros e He; try discriminate; injection He as <-; done.
Qed.

Lemma calls_consistent self inputs :
  phase_consistent self ->
  Forall (fun c =>
            phase_consistent (call_before c) /\
            phase_consistent (call_after c) /\
            forall e, call_raised c = Some e ->
              call_encoder c = Some e /\ segments (call_playlist c) <> [] /\
              in_ad_break (call_after c) = in_ad_break (call_before c))
    (calls self inputs).
Proof.
  revert self; induction inputs as [|[[playlist tk] enc] inputs IH];
    intros self Hc; cbn [calls]; [constructor|].
  destruct (call_once_consistent self playlist tk enc Hc) as [Hafter Hraise].
  destruct (call_once_inputs self playlist tk enc) as (Hb & Hp & He).
  constructor; [|by apply IH].
  rewrite Hb, Hp, He. done.
Qed.

(** X1: a worker that the constructor returned never makes the marker
    step raise by itself.  Over every run of the step, with an encoder
    that may raise at any call, the worker keeps a start time whenever it
    is inside a break and none outside, so that the subtraction
    [current_time - self.ad_break_start_time] never meets [None], and its
    [ad_interval] fits a float, so that the addition on leaving a break
    never overflows; a call that raises is one in which the encoder
    raised, on a snapshot with segments, and it does not change the
    phase. *)
Theorem constructed_worker_raises_only_with_encoder cfg now self0
    (inputs : list (@M3U8 T * @ticks T * option exn)) :
  HLSProcessor_new cfg now = Ok self0 ->
  Forall (fun c =>
            phase_consistent (call_before c) /\
            phase_consistent (call_after c) /\
            forall e, call_raised c = Some e ->
              call_encoder c = Some e /\ segments (call_playlist c) <> [] /\
              in_ad_break (call_after c) = in_ad_break (call_before c))
    (calls self0 inputs).
Proof.
  unfold HLSProcessor_new.
  destruct (int_fits_float (ad_interval cfg)) eqn:Hfit; [|discriminate].
  intros [= <-]. apply calls_consistent.
  unfold phase_consistent. cbn. done.
Qed.

Lemma calls_elem self inputs c :
  c ∈ calls self inputs ->
  exists self' playlist tk enc, c = call_once self' playlist tk enc.
Proof.
  revert self; induction inputs as [|[[playlist tk] enc] inputs IH];
    intros self; cbn [calls].
  - intros Hin. by apply elem_of_nil in Hin.
  - intros Hin. apply elem_of_cons in Hin as [->|Hin]; eauto.
Qed.

Lemma calls_lookup_succ self inputs k q :
  calls self inputs !! S k = Some q ->
  exists c playlist tk enc,
    calls self inputs !! k = Some c /\
    q = call_once (call_after c) playlist tk enc.
Proof.
  revert self k; induction inputs as [|[[playlist tk] enc] inputs IH];
    intros self k; cbn [calls].
  - intros Hq; discriminate.
  - destruct k as [|k]; cbn.
    + destruct inputs as [|[[playlist' tk'] enc'] inputs]; cbn;
        [discriminate|].
      intros [= <-]. eauto 6.
    + intros Hq. apply IH in Hq. exact Hq.
Qed.

(** Between a call that leaves the worker in a break and a later call
    that finds it outside, some call took it out. *)
Lemma break_left_between self inputs i j c_i c_j :
  (i < j)%nat ->
  calls self inputs !! i = Some c_i ->
  calls self inputs !! j = Some c_j ->
  in_ad_break (call_after c_i) = true ->
  in_ad_break (call_before c_j) = false ->
  exists k c_k, (i < k < j)%nat /\ calls self inputs !! k = Some c_k /\
    in_ad_break (call_before c_k) = true /\
    in_ad_break (call_after c_k) = false.
Proof.
  intros Hij Hi. revert c_j. induction j as [|j IH]; [lia|].
  intros c_j Hj Ha Hb.
  destruct (calls_lookup_succ _ _ _ _ Hj) as (q & pl & tk & enc & Hq & ->).
  destruct (call_once_inputs (call_after q) pl tk enc) as (Hbq & _ & _).
  rewrite Hbq in Hb.
  destruct (decide (i = j)) as [->|Hne].
  - rewrite Hi in Hq. injection Hq as <-. congruence.
  - destruct (in_ad_break (call_before q)) eqn:Hbefore.
    + exists j, q. split; [lia|]. done.
    + destruct (IH ltac:(lia) q Hq Ha Hbefore)
        as (k & c_k & Hk & Hck & Hk1 & Hk2).
      exists k, c_k. split; [lia|done].
Qed.

(** A call that put a CUE-OUT tag on the playlist took the worker into a
    break. *)
Lemma cue_out_tag_opens self playlist tk enc m :
  Inserted (Scte35Tag CueOut m) ∈ call_events (call_once self playlist tk enc) ->
  in_ad_break self = false /\
  in_ad_break (call_after (call_once self playlist tk enc)) = true.
Proof.
  call_cases self playlist tk enc; cbn [call_events call_after];
    intros Hin;
    try (by apply elem_of_nil in Hin);
    try (apply elem_of_cons in Hin as [Hin|Hin]; [discriminate|]);
    try (by apply elem_of_nil in Hin);
    try (assert (Hin' : Inserted (Scte35Tag CueOut m)
                          ∈ (_insert_cue_in self playlist tk).2)
           by (by rewrite Hi);
         apply insert_cue_in_events in Hin' as [Hx|(m' & Hx & _)];
         discriminate);
    done.
Qed.

(** A call that took the worker out of a break announced a CUE-IN. *)
Lemma closing_call_attempts_in self playlist tk enc :
  in_ad_break self = true ->
  in_ad_break (call_after (call_once self playlist tk enc)) = false ->
  Attempt CueIn ∈ call_events (call_once self playlist tk enc).
Proof.
  call_cases self playlist tk enc; cbn [call_events call_after];
    intros Hbefore Hafter; try congruence; by left.
Qed.

(** X3: breaks do not nest.  Between two calls of the marker step that
    each put a CUE-OUT marker on the playlist there is a call that takes
    the worker out of the break, after announcing a CUE-IN; this holds
    whatever the encoder does at the calls in between. *)
Theorem breaks_do_not_nest self
    (inputs : list (@M3U8 T * @ticks T * option exn)) (i j : nat)
    c_i c_j m_i m_j :
  (i < j)%nat ->
  calls self inputs !! i = Some c_i ->
  calls self inputs !! j = Some c_j ->
  Inserted (Scte35Tag CueOut m_i) ∈ call_events c_i ->
  Inserted (Scte35Tag CueOut m_j) ∈ call_events c_j ->
  exists k c_k, (i < k < j)%nat /\ calls self inputs !! k = Some c_k /\
    in_ad_break (call_before c_k) = true /\
    in_ad_break (call_after c_k) = false /\
    Attempt CueIn ∈ call_events c_k.
Proof.
  intros Hij Hi Hj Hoi Hoj.
  assert (Hci : exists s pl tk enc, c_i = call_once s pl tk enc).
  { apply calls_elem with self inputs. eapply list_elem_of_lookup_2; eauto. }
  assert (Hcj : exists s pl tk enc, c_j = call_once s pl tk enc).
  { apply calls_elem with self inputs. eapply list_elem_of_lookup_2; eauto. }
  destruct Hci as (s1 & pl1 & tk1 & enc1 & ->).
  destruct Hcj as (s2 & pl2 & tk2 & enc2 & ->).
  apply cue_out_tag_opens in Hoi as [_ Hai].
  apply cue_out_tag_opens in Hoj as [Hbj _].
  destruct (call_once_inputs s2 pl2 tk2 enc2) as (Hb2 & _ & _).
  destruct (break_left_between self inputs i j _ _ Hij Hi Hj Hai)
    as (k & c_k & Hk & Hck & Hk1 & Hk2); [by rewrite Hb2|].
  exists k, c_k. split; [done|]. split; [done|]. split; [done|].
  split; [done|].
  assert (Hck' : exists s pl tk enc, c_k = call_once s pl tk enc).
  { apply calls_elem with self inputs. eapply list_elem_of_lookup_2; eauto. }
  destruct Hck' as (s & pl & tk & enc & ->).
  destruct (call_once_inputs s pl tk enc) as (Hbk & _ & _).
  rewrite Hbk in Hk1. by apply closing_call_attempts_in.
Qed.

(** With an encoder that returns and an [ad_interval] that fits, the call
    is the poll. *)
Lemma call_once_returning self playlist tk :
  int_fits_float (ad_interval (config self)) = true ->
  (in_ad_break self = true -> is_Some (ad_break_start_time self)) ->
  let c := call_once self playlist tk None in
  let p := poll_once self playlist tk in
  call_after c = poll_after p /\ call_out c = poll_out p /\
  call_events c = poll_events p /\ call_raised c = None.
Proof.
  intros Hfits Hstart. cbn zeta.
  unfold poll_once, _process_playlist_for_markers.
  call_cases self playlist tk (@None exn);
    try rewrite Hsegs; try rewrite Hi; try rewrite Hd; cbn; try done;
    try congruence.
  destruct (Hstart eq_refl) as [? ?]. congruence.
Qed.

End EncoderRunFacts.

(** A run of [demo_worker] in which the encoder raises at [t = 300] and
    at [t = 340]: the break is opened at [t = 305], closed at [t = 345],
    and the next one opened at [t = 650]. *)
Lemma constructed_worker_raises_only_with_encoder_witness :
  let inputs := [(demo_playlist ["a.ts"], at_time 300, Some OtherError);
                 (demo_playlist ["a.ts"], at_time 305, None);
                 (demo_playlist ["a.ts"], at_time 340, Some OtherError);
                 (demo_playlist ["a.ts"], at_time 345, None)] in
  HLSProcessor_new demo_config 0%Q = Ok demo_worker /\
  List.map (fun c => (call_raised c, in_ad_break (call_after c),
                      ad_break_event_id (call_after c)))
    (calls demo_worker inputs)
  = [(Some OtherError, false, Some 300); (None, true, Some 305);
     (Some OtherError, true, Some 305); (None, false, None)] /\
  Forall (fun c =>
            phase_consistent (call_before c) /\
            phase_consistent (call_after c) /\
            forall e, call_raised c = Some e ->
              call_encoder c = Some e /\ segments (call_playlist c) <> [] /\
              in_ad_break (call_after c) = in_ad_break (call_before c))
    (calls demo_worker inputs).
Proof.
  intros inputs.
  assert (Hnew : HLSProcessor_new demo_config 0%Q = Ok demo_worker)
    by (vm_compute; reflexivity).
  split; [exact Hnew|]. split; [vm_compute; reflexivity|].
  exact (constructed_worker_raises_only_with_encoder demo_config 0%Q
           demo_worker inputs Hnew).
Defined.

Lemma breaks_do_not_nest_witness :
  let inputs := [(demo_playlist ["a.ts"], at_time 300, Some OtherError);
                 (demo_playlist ["a.ts"], at_time 305, None);
                 (demo_playlist ["a.ts"], at_time 340, Some OtherError);
                 (demo_playlist ["a.ts"], at_time 345, None);
                 (demo_playlist ["b.ts"], at_time 650, None)] in
  List.map (fun c => in_ad_break (call_after c)) (calls demo_worker inputs)
  = [false; true; true; false; true] /\
  exists k c_k,
    (1 < k < 4)%nat /\ calls demo_worker inputs !! k = Some c_k /\
    in_ad_break (call_before c_k) = true /\
    in_ad_break (call_after c_k) = false /\
    Attempt CueIn ∈ call_events c_k.
Proof.
  intros inputs. split; [vm_compute; reflexivity|].
  set (m1 := {| pts := (27450000 # 1)%Q; duration := 30;
                event_id := Some 305 |}).
  set (m4 := {| pts := (58500000 # 1)%Q; duration := 30;
                event_id := Some 650 |}).
  destruct (calls demo_worker inputs !! 1%nat) as [c1|] eqn:H1;
    [|vm_compute in H1; discriminate].
  destruct (calls demo_worker inputs !! 4%nat) as [c4|] eqn:H4;
    [|vm_compute in H4; discriminate].
  assert (Ho1 : Inserted (Scte35Tag CueOut m1) ∈ call_events c1).
  { vm_compute in H1. injection H1 as <-. vm_compute. right. left. }
  assert (Ho4 : Inserted (Scte35Tag CueOut m4) ∈ call_events c4).
  { vm_compute in H4. injection H4 as <-. vm_compute. right. left. }
  exact (breaks_do_not_nest demo_worker inputs 1 4 c1 c4 m1 m4
           ltac:(lia) H1 H4 Ho1 Ho4).
Defined.

Lemma break_lasts_ad_duration_witness :
  let inputs := [(demo_playlist ["a.ts"], at_time 300);
                 (demo_playlist ["a.ts"], at_time 310);
                 (demo_playlist ["a.ts"], at_time 331)] in
  List.map (fun p => in_ad_break (poll_after p)) (polls demo_worker inputs)
  = [true; true; false] /\
  t_geb_int (t_sub (tick_now (at_time 331)) (tick_now (at_time 300)))
    (ad_duration (config demo_worker)) = true.
Proof.
  intros inputs. split; [reflexivity|].
  refine (break_lasts_ad_duration demo_worker inputs 0 2 _ _
            ltac:(lia) eq_refl _ _ eq_refl _).
  - split; reflexivity.
  - intros k p Hk Hp.
    destruct k as [|[|k]]; [| |lia]; injection Hp as <-; reflexivity.
  - reflexivity.
Defined.

Lemma breaks_are_ad_interval_apart_witness :
  let inputs := [(demo_playlist ["a.ts"], at_time 300);
                 (demo_playlist ["a.ts"], at_time 331);
                 (demo_playlist ["a.ts"], at_time 500);
                 (demo_playlist ["b.ts"], at_time 631)] in
  List.map (fun p => in_ad_break (poll_after p)) (polls demo_worker inputs)
  = [true; false; false; true] /\
  t_geb (tick_now (at_time 631))
    (t_add_int (tick_now (at_time 331)) (ad_interval (config demo_worker)))
  = true.
Proof.
  intros inputs. split; [reflexivity|].
  refine (breaks_are_ad_interval_apart demo_worker inputs 1 3 _ _
            ltac:(lia) eq_refl _ _ eq_refl _).
  - split; reflexivity.
  - intros k p Hk Hp.
    destruct k as [|[|[|k]]]; [lia| | |lia]; injection Hp as <-; reflexivity.
  - reflexivity.
Defined.

Lemma first_break_waits_ad_interval_witness :
  let inputs := [(demo_playlist ["a.ts"], at_time 100);
                 (demo_playlist ["a.ts"], at_time 300)] in
  List.map (fun p => in_ad_break (poll_after p))
    (polls (HLSProcessor_init demo_config 0%Q) inputs)
  = [false; true] /\
  t_geb (tick_now (at_time 300)) (t_add_int 0%Q (ad_interval demo_config))
  = true.
Proof.
  intros inputs. split; [reflexivity|].
  refine (first_break_waits_ad_interval demo_config 0%Q inputs 1 _ _
            eq_refl _).
  - intros k p Hk Hp.
    destruct k as [|k]; [|lia]. injection Hp as <-. reflexivity.
  - reflexivity.
Defined.

(** ** Runs of the worker loop *)

(** The only exception that leaves the rewriting is the [OverflowError] of
    [round]. *)
Lemma re_sub_extinf_raises_overflow s e :
  re_sub_extinf s = Raise e -> e = OverflowError.
Proof.
  remember (String.length s) as n eqn:Hn.
  revert s Hn. induction n as [n IH] using lt_wf_ind. intros s Hn.
  rewrite re_sub_extinf_step. destruct s as [|c s]; [discriminate|].
  destruct (match_extinf (String c s)) as [[d rest]|] eqn:Hm.
  - unfold extinf_repl. destruct (py_float d); [|by intros [= <-]].
    apply match_extinf_rest_shorter in Hm.
    destruct (re_sub_extinf rest) as [out|e'] eqn:Hr; [discriminate|].
    intros [= <-]. apply (IH (String.length rest)) with rest; [lia|done|done].
  - destruct (re_sub_extinf s) as [out|e'] eqn:Hr; [discriminate|].
    intros [= <-]. apply (IH (String.length s)) with s; [cbn in Hn; lia|done|done].
Qed.

Section LoopFacts.

Context {T : Type} `{Clock T}.
Variable dumps : @M3U8 T -> string.
Implicit Types (self : @HLSProcessor T) (playlist : @M3U8 T) (tk : @ticks T)
  (dir : option directory) (env : @cycle_env T).

Lemma save_try_permission dir playlist mk wr dir' :
  save_try dumps dir playlist mk wr = (dir', Some PermissionError) ->
  mk = IoPermissionError \/ wr = IoPermissionError.
Proof.
  unfold save_try. destruct mk; [|by left|discriminate|discriminate].
  destruct (re_sub_extinf (dumps playlist)) as [text|e] eqn:Hr.
  - destruct wr; [|by right|discriminate|];
      destruct (_ !! _) as [[|]|]; discriminate.
  - intros [= _ ->]. apply re_sub_extinf_raises_overflow in Hr. discriminate.
Qed.

Lemma save_playlist_keeps self dir playlist mk wr :
  let r := _save_playlist dumps self dir playlist mk wr in
  config r.1 = config self /\
  segments_processed r.1 = segments_processed self /\
  ad_break_state r.1 = ad_break_state self /\
  (mk <> IoPermissionError -> wr <> IoPermissionError -> r.1 = self).
Proof.
  cbn. unfold _save_playlist.
  destruct (save_try dumps dir playlist mk wr) as [d' [e|]] eqn:Ht; [|done].
  destruct e; try done. cbn. repeat split.
  intros Hmk Hwr. apply save_try_permission in Ht as [?|?]; done.
Qed.

Lemma process_segments_keeps self dir playlist download :
  let r := _process_segments self dir playlist download in
  config r.1 = config self /\
  segments_processed self <= segments_processed r.1 /\
  ad_break_state r.1 = ad_break_state self /\
  running r.1 = running self /\ _stop_event r.1 = _stop_event self.
Proof.
  cbn. unfold _process_segments. destruct dir as [d|]; [|cbn; repeat split; lia].
  destruct (writable d); cbn; [|repeat split; lia].
  assert (Hn : forall ents jobs, 0 <= (download_all download ents jobs).2).
  { intros ents jobs; revert ents; induction jobs as [|job jobs IH]; intros ents; cbn; [done|].
    destruct (download_segment download ents job) as [ents1 ok].
    specialize (IH ents1). destruct (download_all download ents1 jobs) as [ents2 n].
    cbn in *. destruct ok; lia. }
  specialize (Hn (entries d) (segments_to_download (entries d) playlist)).
  destruct (download_all _ _ _) as [ents n]. cbn in *. repeat split. lia.
Qed.

(** X7: one iteration of the loop moves the ad-break state exactly as the
    marker step does.  On a fetched playlist the four fields
    [in_ad_break], [ad_break_event_id], [ad_break_start_time] and
    [next_marker_time] after the cycle are those after
    [_process_playlist_for_markers]; saving, downloading and pruning do
    not touch them, whatever their outcome, and a cycle whose fetch fails
    or raises leaves them as they were. *)
Theorem cycle_moves_ad_break_state_like_poll self dir env :
  ad_break_state (cycle dumps self dir env).1.1.1
  = match env_fetch env with
    | Fetched playlist =>
        ad_break_state (poll_after (poll_once self playlist (env_ticks env)))
    | _ => ad_break_state self
    end.
Proof.
  unfold cycle. destruct (env_fetch env) as [playlist| |e]; cbn; try done.
  unfold poll_once.
  destruct (_process_playlist_for_markers self playlist (env_ticks env))
    as [[[self1 playlist1] evs]|e]; [|done].
  pose proof (save_playlist_keeps self1 dir playlist1 (env_mkdir env) (env_write env))
    as (_ & _ & Hs & _). cbn in Hs.
  destruct (_save_playlist dumps self1 dir playlist1 (env_mkdir env) (env_write env))
    as [self2 dir2]. cbn in Hs.
  destruct (running self2); cbn; [|done].
  pose proof (process_segments_keeps self2 dir2 playlist1 (env_download env))
    as (_ & _ & Hp & _). cbn in Hp.
  destruct (_process_segments self2 dir2 playlist1 (env_download env)).
  cbn in *. congruence.
Qed.

Lemma markers_keep_counter self playlist tk self' playlist' evs :
  _process_playlist_for_markers self playlist tk = Ok (self', playlist', evs) ->
  segments_processed self' = segments_processed self.
Proof.
  unfold _process_playlist_for_markers.
  destruct (in_ad_break self).
  - destruct (ad_break_start_time self); [|discriminate].
    destruct (t_geb_int _ _).
    + destruct (_insert_cue_in self playlist tk). intros [= <- <- <-]. done.
    + intros [= <- <- <-]. done.
  - destruct (t_geb _ _).
    + unfold _insert_cue_out. destruct (segments playlist);
        intros [= <- <- <-]; done.
    + intros [= <- <- <-]. done.
Qed.

(** What a cycle keeps: the configuration, the counter up to the new
    downloads, and, when neither [mkdir] nor [write_text] is refused, the
    two stop flags of a running worker. *)
Lemma cycle_keeps self dir env :
  config (cycle dumps self dir env).1.1.1 = config self /\
  segments_processed self <= segments_processed (cycle dumps self dir env).1.1.1 /\
  (env_mkdir env <> IoPermissionError -> env_write env <> IoPermissionError ->
   running self = true ->
   (cycle dumps self dir env).2 = Continue /\
   running (cycle dumps self dir env).1.1.1 = true /\
   _stop_event (cycle dumps self dir env).1.1.1 = _stop_event self).
Proof.
  unfold cycle. destruct (_download_playlist (env_fetch env)) as [[playlist|]|e];
    cbn [fst snd]; try (split; [done|split; [lia|done]]).
  destruct (_process_playlist_for_markers self playlist (env_ticks env))
    as [[[self1 playlist1] evs]|e] eqn:Hm;
    cbn [fst snd]; try (split; [done|split; [lia|done]]).
  pose proof (markers_keep_counter _ _ _ _ _ _ Hm) as Hn1.
  apply markers_keep_flags in Hm as (Hr1 & Hs1 & Hc1).
  pose proof (save_playlist_keeps self1 dir playlist1 (env_mkdir env) (env_write env))
    as (Hc2 & Hn2 & _ & Hsame). cbn in Hc2, Hn2, Hsame.
  destruct (_save_playlist dumps self1 dir playlist1 (env_mkdir env) (env_write env))
    as [self2 dir2]. cbn [fst snd] in *.
  destruct (running self2) eqn:Hr2; cbn [negb].
  - pose proof (process_segments_keeps self2 dir2 playlist1 (env_download env))
      as (Hc3 & Hn3 & _ & Hr3 & Hs3). cbn in Hc3, Hn3, Hr3, Hs3.
    destruct (_process_segments self2 dir2 playlist1 (env_download env))
      as [self3 dir3]. cbn [fst snd] in *.
    split; [congruence|]. split; [lia|].
    intros Hmk Hwr Hrun. rewrite (Hsame Hmk Hwr) in *.
    split; [done|]. split; congruence.
  - cbn [fst snd]. split; [congruence|]. split; [lia|].
    intros Hmk Hwr Hrun. rewrite (Hsame Hmk Hwr) in *. congruence.
Qed.

(** X8: only a [PermissionError] while saving stops the loop from inside.
    If the stop event is not set and, in every iteration, neither [mkdir]
    nor [write_text] raises [PermissionError], then [process_stream] goes
    through every iteration that the run offers, whatever the fetches, the
    other I/O errors and the downloads do, and the worker is still running
    with its stop event unset. *)
Theorem worker_survives_transient_faults envs self dir :
  _stop_event self = false ->
  (forall env, env ∈ envs ->
     env_mkdir env <> IoPermissionError /\ env_write env <> IoPermissionError) ->
  let r := process_stream dumps envs self dir in
  length r.2 = length envs /\
  running r.1.1 = true /\ _stop_event r.1.1 = false.
Proof.
  intros Hs Henv. unfold process_stream.
  assert (Hgen : forall envs self dir,
            running self = true -> _stop_event self = false ->
            (forall env, env ∈ envs ->
               env_mkdir env <> IoPermissionError /\
               env_write env <> IoPermissionError) ->
            length (process_stream_loop dumps envs self dir).2 = length envs /\
            running (process_stream_loop dumps envs self dir).1.1 = true /\
            _stop_event (process_stream_loop dumps envs self dir).1.1 = false).
  { clear. induction envs as [|env envs IH]; intros self dir Hr Hs Henv; [done|].
    cbn [process_stream_loop]. rewrite Hr, Hs. cbn [andb negb].
    destruct (Henv env ltac:(by left)) as [Hmk Hwr].
    destruct (cycle_keeps self dir env) as (_ & _ & Hk).
    destruct (Hk Hmk Hwr Hr) as (Hctl & Hr' & Hs').
    destruct (cycle dumps self dir env) as [[[self1 dir1] acts] ctl].
    cbn [fst snd] in *. subst ctl.
    destruct (IH self1 dir1 Hr' ltac:(congruence)) as (Hl & Hr2 & Hs2).
    { intros env' Hin. apply Henv. by right. }
    destruct (process_stream_loop dumps envs self1 dir1) as [[self2 dir2] log].
    cbn [fst snd length] in *. split; [lia|done]. }
  apply Hgen; [done|done|done].
Qed.

(** X9: the loop never changes the configuration of its worker and
    never lowers [segments_processed]; it runs at most one cycle per
    iteration offered. *)
Theorem loop_keeps_config_and_counter envs self dir :
  let r := process_stream_loop dumps envs self dir in
  config r.1.1 = config self /\
  segments_processed self <= segments_processed r.1.1 /\
  (length r.2 <= length envs)%nat.
Proof.
  cbn. revert self dir; induction envs as [|env envs IH]; intros self dir.
  - cbn. repeat split; lia.
  - cbn [process_stream_loop].
    destruct (running self && negb (_stop_event self));
      [|cbn; repeat split; lia].
    destruct (cycle_keeps self dir env) as (Hc & Hn & _).
    destruct (cycle dumps self dir env) as [[[self1 dir1] acts] ctl].
    cbn [fst snd] in *. destruct ctl.
    + specialize (IH self1 dir1) as (Hc' & Hn' & Hl').
      destruct (process_stream_loop dumps envs self1 dir1) as [[self2 dir2] log].
      cbn [fst snd length] in *. split; [congruence|]. split; lia.
    + cbn. split; [done|]. split; lia.
Qed.

End LoopFacts.

(** Four iterations: a failed request, a playlist that does not parse, a
    write that fails with another error, and a clean one. *)
Lemma worker_survives_transient_faults_witness :
  let playlist := demo_playlist ["a.ts"] in
  let env f wr := {| env_fetch := f; env_ticks := at_time 10;
                     env_mkdir := IoOk; env_write := wr;
                     env_download := demo_download |} in
  let envs := [env RequestException IoOk; env (FetchRaises OtherError) IoOk;
               env (Fetched playlist) IoOtherError;
               env (Fetched playlist) IoOk] in
  let r := process_stream (demo_dumps "#EXTM3U") envs demo_worker
             (Some (demo_dir [])) in
  _stop_event demo_worker = false /\
  length r.2 = 4%nat /\ running r.1.1 = true /\ _stop_event r.1.1 = false.
Proof.
  intros playlist env envs r. split; [reflexivity|].
  apply (worker_survives_transient_faults (demo_dumps "#EXTM3U") envs
           demo_worker (Some (demo_dir [])) eq_refl).
  apply Forall_forall.
  repeat (constructor; [split; discriminate|]). constructor.
Defined.

(** ** Passes over the output directory *)

Lemma split_slash_components s w :
  w ∈ split_slash s -> has_slash w = false.
Proof.
  revert w; induction s as [|c s IH]; intros w; cbn.
  - intros Hw. apply list_elem_of_singleton in Hw. by subst.
  - destruct (Ascii.eqb c "/") eqn:Hc.
    + intros Hw. apply elem_of_cons in Hw as [->|Hw]; [done|by apply IH].
    + destruct (split_slash s) as [|w0 ws] eqn:Hs.
      * intros Hw. apply list_elem_of_singleton in Hw. subst. cbn. by rewrite Hc.
      * intros Hw. apply elem_of_cons in Hw as [->|Hw].
        -- cbn. rewrite Hc. apply IH. by left.
        -- apply IH. by right.
Qed.

Lemma last_elem {A} (l : list A) (dflt : A) :
  List.last l dflt = dflt \/ List.last l dflt ∈ l.
Proof.
  induction l as [|x l IH]; [by left|].
  destruct l as [|y l]; [right; by left|].
  change (List.last (x :: y :: l) dflt) with (List.last (y :: l) dflt).
  destruct IH as [->|IH]; [by left|]. right. by right.
Qed.

(** [Path(uri).name] is one path component, and never ["."]. *)
Lemma path_name_single_component path :
  has_slash (path_name path) = false /\ path_name path <> ".".
Proof.
  unfold path_name.
  match goal with |- context [List.last ?l _] => destruct (last_elem l EmptyString) as [->|Hin] end.
  - done.
  - apply list_elem_of_In, filter_In in Hin as [Hin Hf].
    apply andb_true_iff in Hf as [_ Hdot]. split.
    + apply (split_slash_components path). by apply list_elem_of_In.
    + intros Heq. rewrite Heq in Hdot. discriminate.
Qed.

Section PassFacts.

Context {T : Type} `{Clock T}.
Implicit Types (self : @HLSProcessor T) (playlist : @M3U8 T)
  (ents : gmap string dir_entry) (current : gset string).

(** X10: downloads stay in the output directory.  Every name that
    [_process_segments] schedules, [Path(segment.uri).name], is a single
    path component: it holds no slash and is none of [""], ["."] and
    [".."], whatever URI the playlist carries; so [output_dir / name] is a
    direct child of the output directory. *)
Theorem downloads_stay_in_output_dir (d : directory) playlist n :
  n ∈ scheduled d playlist ->
  has_slash n = false /\ n <> "" /\ n <> "." /\ n <> "..".
Proof.
  intros Hn. apply elem_of_scheduled in Hn as [Hcur Hex].
  unfold current_segment_files in Hcur.
  apply elem_of_list_to_set, list_elem_of_In, in_map_iff in Hcur as (seg & <- & _).
  unfold segment_name in *.
  destruct (path_name_single_component (uri seg)) as [Hs Hdot].
  unfold path_exists in Hex.
  apply orb_false_iff in Hex as [Hex _]. apply orb_false_iff in Hex as [H1 H2].
  split; [done|]. split; [|split; [done|]].
  - intros Heq. rewrite Heq in H1. discriminate.
  - intros Heq. rewrite Heq in H2. discriminate.
Qed.

Lemma reconcile_writable self (d : directory) playlist download :
  writable d = true ->
  reconcile self (Some d) playlist download
  = (add_segments_processed self
       (download_all download (entries d)
          (segments_to_download (entries d) playlist)).2,
     Some (with_entries d
             (cleanup_loop true (current_segment_files playlist)
                (map_to_list (download_all download (entries d)
                   (segments_to_download (entries d) playlist)).1)
                (download_all download (entries d)
                   (segments_to_download (entries d) playlist)).1))).
Proof.
  intros Hw. unfold reconcile, _process_segments. rewrite Hw. cbn [negb].
  destruct (download_all download (entries d) _) as [ents n]. cbn.
  rewrite Hw. by destruct d.
Qed.

Lemma pass_leaves_referenced_ts self (d : directory) playlist download :
  writable d = true ->
  exists self' d',
    reconcile self (Some d) playlist download = (self', Some d') /\
    ts_files d' ⊆ current_segment_files playlist.
Proof.
  intros Hw. rewrite reconcile_writable by done.
  eexists _, _. split; [reflexivity|].
  set (ents := (download_all download (entries d) _).1).
  intros n. unfold ts_files. cbn [entries with_entries].
  rewrite elem_of_dom. intros [e He].
  apply map_lookup_filter_Some in He as [He [Hf Hs]]. cbn in Hf, Hs.
  destruct (decide (n ∈ current_segment_files playlist)) as [Hn|Hn]; [done|].
  pose proof (cleanup_loop_subseteq true (current_segment_files playlist)
                (map_to_list ents) ents) as Hsub.
  pose proof (lookup_weaken _ _ _ _ He Hsub) as He'.
  rewrite (cleanup_loop_deletes (current_segment_files playlist)
             (map_to_list ents) ents n e) in He; [discriminate| |done].
  by apply elem_of_map_to_list.
Qed.

Lemma exists_all_None stat_error (names : list string) :
  exists_all stat_error names = None <->
  forall n, n ∈ names -> stat_error n = None.
Proof.
  induction names as [|name names IH]; cbn.
  - split; [|done]. intros _ n Hn. by apply elem_of_nil in Hn.
  - destruct (stat_error name) as [e|] eqn:He.
    + split; [discriminate|]. intros Hall.
      rewrite Hall in He; [discriminate|by left].
    + rewrite IH. split.
      * intros Hall n Hn. apply elem_of_cons in Hn as [->|Hn]; auto.
      * intros Hall n Hn. apply Hall. by right.
Qed.


Lemma cleanup_loop_nothing cw current items ents :
  (forall n e, (n, e) ∈ items -> ~ prunable current n e) ->
  cleanup_loop cw current items ents = ents.
Proof.
  induction items as [|[name e] items IH]; intros Hno; cbn; [done|].
  assert (Hrest : forall n e0, (n, e0) ∈ items -> ~ prunable current n e0).
  { intros n e0 Hin. apply Hno. by right. }
  destruct (is_file e && endswith name ".ts") eqn:Hts; [|by apply IH].
  apply andb_true_iff in Hts as [Hf Hs].
  case_bool_decide as Hcur; [|by apply IH].
  destruct (Hno name e); [by left|done].
Qed.

Lemma cleanup_loop_fixpoint current ents :
  let final := cleanup_loop true current (map_to_list ents) ents in
  cleanup_loop true current (map_to_list final) final = final.
Proof.
  intros final. apply cleanup_loop_nothing.
  intros n e Hin Hp. apply elem_of_map_to_list in Hin.
  pose proof (cleanup_loop_subseteq true current (map_to_list ents) ents) as Hsub.
  pose proof (lookup_weaken _ _ _ _ Hin Hsub) as He.
  unfold final in Hin.
  rewrite (cleanup_loop_deletes current (map_to_list ents) ents n e) in Hin;
    [discriminate| |done].
  by apply elem_of_map_to_list.
Qed.

Lemma path_exists_lookup ents n e :
  ents !! n = Some e -> path_exists ents n = true.
Proof.
  intros He. unfold path_exists. rewrite He.
  rewrite bool_decide_eq_true_2 by eauto. by rewrite orb_true_r.
Qed.

Lemma path_exists_false ents n :
  path_exists ents n = false ->
  ents !! n = None /\ n <> "" /\ n <> "..".
Proof.
  unfold path_exists. intros Hex.
  apply orb_false_iff in Hex as [Hex Hl]. apply orb_false_iff in Hex as [H1 H2].
  split; [|split].
  - apply bool_decide_eq_false in Hl. by apply eq_None_not_Some.
  - intros Heq. rewrite Heq in H1. discriminate.
  - intros Heq. rewrite Heq in H2. discriminate.
Qed.

(** X12: a second pass changes nothing.  After a pass over a writable
    directory whose downloads all succeed, nothing is scheduled for the
    same snapshot any more, and any further pass for it, whatever the
    network would do, leaves the directory and [segments_processed] as
    they are. *)
Theorem second_pass_changes_nothing self (d : directory) playlist download :
  writable d = true ->
  (forall job, job ∈ segments_to_download (entries d) playlist ->
     exists c, download job.1 = Downloaded c) ->
  exists self' d',
    reconcile self (Some d) playlist download = (self', Some d') /\
    scheduled d' playlist = [] /\
    forall self2 download2,
      (reconcile self2 (Some d') playlist download2).2 = Some d' /\
      segments_processed (reconcile self2 (Some d') playlist download2).1
      = segments_processed self2.
Proof.
  intros Hw Hok. rewrite reconcile_writable by done.
  eexists _, _. split; [reflexivity|].
  set (jobs := segments_to_download (entries d) playlist) in *.
  set (ents := (download_all download (entries d) jobs).1).
  set (current := current_segment_files playlist).
  set (final := cleanup_loop true current (map_to_list ents) ents).
  assert (Hnone : scheduled (with_entries d final) playlist = []).
  { destruct (scheduled (with_entries d final) playlist) as [|n l] eqn:Hs; [done|].
    exfalso.
    assert (Hn : n ∈ scheduled (with_entries d final) playlist)
      by (rewrite Hs; by left).
    apply elem_of_scheduled in Hn as [Hcur Hex]. cbn [entries with_entries] in Hex.
    apply path_exists_false in Hex as (Hfin & Hne & Hdd).
    assert (Hkeep : final !! n = ents !! n).
    { apply cleanup_loop_keeps. intros e _ (_ & _ & Hc). done. }
    destruct (path_exists (entries d) n) eqn:Hex0.
    - assert (Hns : n ∉ scheduled d playlist).
      { rewrite elem_of_scheduled. intros [_ ?]. congruence. }
      pose proof (download_all_other download (entries d) jobs n Hok Hns) as Ho.
      fold ents in Ho.
      unfold path_exists in Hex0.
      destruct (String.eqb_spec n ""); [done|].
      destruct (String.eqb_spec n ".."); [done|]. cbn in Hex0.
      apply bool_decide_eq_true in Hex0 as [e He]. congruence.
    - assert (Hsch : n ∈ scheduled d playlist) by (by apply elem_of_scheduled).
      destruct (download_all_fetched download (entries d) jobs n Hok Hsch)
        as (seg & c & _ & _ & Hl).
      fold ents in Hl. congruence. }
  split; [exact Hnone|].
  intros self2 download2. rewrite reconcile_writable by done.
  cbn [fst snd entries with_entries].
  unfold scheduled in Hnone. apply fmap_nil_inv in Hnone.
  cbn [entries with_entries] in Hnone. rewrite Hnone. cbn [download_all fst snd].
  split.
  - f_equal. unfold with_entries; cbn. f_equal. apply cleanup_loop_fixpoint.
  - cbn. lia.
Qed.

Lemma download_all_untouched download ents (jobs : list (@Segment T * string)) n :
  (forall job, job ∈ jobs -> download_writes download job <> Some n) ->
  (download_all download ents jobs).1 !! n = ents !! n.
Proof.
  revert ents; induction jobs as [|job jobs IH]; intros ents Hw; cbn; [done|].
  assert (Hjob := Hw job ltac:(by left)).
  assert (Hrest : forall j, j ∈ jobs -> download_writes download j <> Some n).
  { intros j Hin. apply Hw. by right. }
  unfold download_segment. unfold download_writes in Hjob.
  destruct (download job.1) as [c| |tmp partial].
  - specialize (IH (<[job.2:=RegularFile c]> ents) Hrest).
    destruct (download_all download (<[job.2:=RegularFile c]> ents) jobs).
    cbn in *. rewrite IH. apply lookup_insert_ne. congruence.
  - specialize (IH ents Hrest).
    destruct (download_all download ents jobs). done.
  - specialize (IH (<[tmp:=RegularFile partial]> ents) Hrest).
    destruct (download_all download (<[tmp:=RegularFile partial]> ents) jobs).
    cbn in *. rewrite IH. apply lookup_insert_ne. congruence.
Qed.

(** X13: a failed download is retried.  If a segment is scheduled and
    no download of the pass leaves a file under its name, then the name is
    still absent after the pass and the next pass for the same snapshot
    schedules it again. *)
Theorem failed_download_is_retried self (d : directory) playlist download n :
  writable d = true ->
  n ∈ scheduled d playlist ->
  (forall job, job ∈ segments_to_download (entries d) playlist ->
     download_writes download job <> Some n) ->
  exists self' d',
    reconcile self (Some d) playlist download = (self', Some d') /\
    entries d' !! n = None /\
    n ∈ scheduled d' playlist.
Proof.
  intros Hw Hn Hfail. rewrite reconcile_writable by done.
  eexists _, _. split; [reflexivity|]. cbn [entries with_entries].
  pose proof Hn as Hn'. apply elem_of_scheduled in Hn' as [Hcur Hex].
  apply path_exists_false in Hex as (Hnone & Hne & Hdd).
  pose proof (download_all_untouched download (entries d) _ n Hfail) as Hu.
  set (ents := (download_all download (entries d) _).1) in *.
  assert (Hfinal : cleanup_loop true (current_segment_files playlist)
                     (map_to_list ents) ents !! n = None).
  { rewrite cleanup_loop_keeps; [congruence|]. intros e _ (_ & _ & Hc). done. }
  split; [exact Hfinal|].
  apply elem_of_scheduled. split; [done|]. cbn [entries with_entries].
  unfold path_exists. rewrite Hfinal.
  destruct (String.eqb_spec n ""); [done|].
  destruct (String.eqb_spec n ".."); [done|]. by cbn.
Qed.

End PassFacts.

Section SaveFacts.

Context {T : Type} `{Clock T}.
Variable dumps : @M3U8 T -> string.

(** X14: saving touches one file.  Whatever [mkdir], the rewriting and
    [write_text] do, [_save_playlist] on an existing output directory
    keeps the directory there with the same permission and every entry
    other than [playlist.m3u8]; the entry [playlist.m3u8] is the old one,
    or a regular file that holds the rewritten text of the snapshot, or,
    after a write that failed once the file was open, a regular file that
    holds the first bytes of that text. *)
Theorem save_touches_only_the_playlist_file (self : @HLSProcessor T)
    (d : directory) (playlist : @M3U8 T) mk wr :
  exists d',
    (_save_playlist dumps self (Some d) playlist mk wr).2 = Some d' /\
    writable d' = writable d /\
    (forall name, name <> "playlist.m3u8" ->
       entries d' !! name = entries d !! name) /\
    (entries d' !! "playlist.m3u8" = entries d !! "playlist.m3u8" \/
     exists text, re_sub_extinf (dumps playlist) = Ok text /\
       (entries d' !! "playlist.m3u8" = Some (RegularFile text) \/
        exists n, wr = IoPartial n /\
          entries d' !! "playlist.m3u8"
          = Some (RegularFile (String.substring 0 n text)))).
Proof.
  assert (Hsame : exists d', Some d = Some d' /\ writable d' = writable d /\
            (forall name, name <> "playlist.m3u8" ->
               entries d' !! name = entries d !! name) /\
            (entries d' !! "playlist.m3u8" = entries d !! "playlist.m3u8" \/
             exists text, re_sub_extinf (dumps playlist) = Ok text /\
               (entries d' !! "playlist.m3u8" = Some (RegularFile text) \/
                exists n, wr = IoPartial n /\
                  entries d' !! "playlist.m3u8"
                  = Some (RegularFile (String.substring 0 n text))))).
  { exists d. repeat split; auto. }
  unfold _save_playlist, save_try.
  destruct mk; [|exact Hsame|exact Hsame|exact Hsame].
  destruct (re_sub_extinf (dumps playlist)) as [text|e] eqn:Hr;
    [|destruct e; exact Hsame].
  destruct wr as [| | |n]; [|exact Hsame|exact Hsame|];
    (destruct (entries d !! "playlist.m3u8") as [[c|]|] eqn:He;
     [|exact Hsame|]); cbn [fst snd];
    (eexists; split; [reflexivity|]; cbn [entries writable with_entries];
     split; [done|]; split;
     [intros name Hne; by apply lookup_insert_ne|]);
    right; exists text; (split; [done|]).
  1,2: left; apply lookup_insert_eq.
  1,2: right; exists n; split; [done|]; apply lookup_insert_eq.
Qed.

End SaveFacts.

Lemma downloads_stay_in_output_dir_witness :
  let playlist := demo_playlist ["../../etc/passwd.ts"; "http://cdn/x/./seg.ts?a=b"] in
  scheduled (demo_dir []) playlist = ["passwd.ts"; "seg.ts?a=b"] /\
  has_slash "passwd.ts" = false /\
  "passwd.ts" <> "" /\ "passwd.ts" <> "." /\ "passwd.ts" <> "..".
Proof.
  intros playlist.
  assert (Hs : scheduled (demo_dir []) playlist = ["passwd.ts"; "seg.ts?a=b"])
    by (vm_compute; reflexivity).
  split; [exact Hs|].
  apply (downloads_stay_in_output_dir (demo_dir []) playlist "passwd.ts").
  rewrite Hs. left.
Defined.


Lemma second_pass_changes_nothing_witness :
  let dir := demo_dir ["a.ts"; "b.ts"] in
  let playlist := demo_playlist ["b.ts"; "c.ts"] in
  writable dir = true /\
  exists self' d',
    reconcile demo_worker (Some dir) playlist demo_download
    = (self', Some d') /\
    scheduled d' playlist = [] /\
    (reconcile self' (Some d') playlist (fun _ => RequestFailed)).2 = Some d' /\
    segments_processed
      (reconcile self' (Some d') playlist (fun _ => RequestFailed)).1
    = segments_processed self'.
Proof.
  intros dir playlist. split; [reflexivity|].
  destruct (second_pass_changes_nothing demo_worker dir playlist demo_download)
    as (self' & d' & Hr & Hnone & Hagain).
  - reflexivity.
  - intros job _. eexists. reflexivity.
  - exists self', d'. split; [exact Hr|]. split; [exact Hnone|].
    exact (Hagain self' (fun _ => RequestFailed)).
Defined.

Lemma failed_download_is_retried_witness :
  let dir := demo_dir ["a.ts"; "b.ts"] in
  let playlist := demo_playlist ["b.ts"; "c.ts"] in
  let download := fun _ : @Segment Q => RequestFailed in
  writable dir = true /\
  scheduled dir playlist = ["c.ts"] /\
  exists self' d',
    reconcile demo_worker (Some dir) playlist download = (self', Some d') /\
    entries d' !! "c.ts" = None /\
    "c.ts" ∈ scheduled d' playlist.
Proof.
  intros dir playlist download. split; [reflexivity|].
  assert (Hs : scheduled dir playlist = ["c.ts"]) by (vm_compute; reflexivity).
  split; [exact Hs|].
  apply (failed_download_is_retried demo_worker dir playlist download "c.ts").
  - reflexivity.
  - rewrite Hs. left.
  - intros job _. discriminate.
Defined.

(** ** Runs and views of the registry *)

Section DictMore.
Context {V : Type}.
Implicit Types (d : dict V) (k : string) (v : V).

Lemma dict_set_fresh k v d :
  k ∉ dict_keys d -> dict_set k v d = d ++ [(k, v)].
Proof.
  induction d as [|[k0 v0] d IH]; cbn; [done|].
  intros Hn. apply not_elem_of_cons in Hn as [Hne Hn].
  destruct (String.eqb_spec k k0); [done|]. by rewrite IH.
Qed.

Lemma dict_del_set_fresh k v d :
  k ∉ dict_keys d -> dict_del k (dict_set k v d) = Some d.
Proof.
  induction d as [|[k0 v0] d IH]; cbn.
  - by rewrite String.eqb_refl.
  - intros Hn. apply not_elem_of_cons in Hn as [Hne Hn].
    destruct (String.eqb_spec k k0); [done|]. cbn.
    destruct (String.eqb_spec k k0); [done|]. by rewrite IH.
Qed.

Lemma dict_del_keys k d d' :
  dict_del k d = Some d' ->
  exists d1 v d2, d = d1 ++ (k, v) :: d2 /\ d' = d1 ++ d2 /\ k ∉ dict_keys d1.
Proof.
  revert d'; induction d as [|[k0 v0] d IH]; intros d'; cbn; [done|].
  destruct (String.eqb_spec k k0) as [->|Hne].
  - intros [= <-]. exists [], v0, d. repeat split. apply not_elem_of_nil.
  - destruct (dict_del k d) as [d0|]; [|done]. intros [= <-].
    destruct (IH d0 eq_refl) as (d1 & v & d2 & -> & -> & Hn).
    exists ((k0, v0) :: d1), v, d2. repeat split.
    cbn. apply not_elem_of_cons. done.
Qed.

End DictMore.

Section RegistryMore.
Context {T : Type} `{Clock T}.
Implicit Types (r : @registry T) (mgr : @StreamManager T).

Lemma add_stream_known r cfg now :
  dict_mem (stream_id cfg) (streams (manager r)) = true ->
  add_stream r cfg now = (r, Returned false, []).
Proof. intros Hm. unfold add_stream. by rewrite Hm. Qed.

Lemma add_stream_fresh r cfg now :
  registry_ok r -> benign r ->
  dict_mem (stream_id cfg) (streams (manager r)) = false ->
  int_fits_float (ad_interval cfg) = true ->
  (add_stream r cfg now).1
  = ({| manager :=
          {| streams := streams (manager r)
                        ++ [(stream_id cfg, HLSProcessor_init cfg now)];
             configs := configs (manager r) ++ [(stream_id cfg, cfg)];
             threads := threads (manager r)
                        ++ [(stream_id cfg,
                             {| thread_name := "Stream-" +:+ stream_id cfg;
                                daemon := true |})] |};
        streams_json := dict_values (configs (manager r)) ++ [cfg];
        thread_error := None; json_error := None |},
     Returned true).
Proof.
  intros (Hnd & Hc & Ht) [Hth Hjs] Hm Hfit.
  unfold add_stream, HLSProcessor_new. rewrite Hm, Hfit, Hth, Hjs. cbn [fst].
  assert (Hfresh : stream_id cfg ∉ dict_keys (streams (manager r))).
  { intros Hin. apply dict_mem_keys in Hin. congruence. }
  unfold save_streams_config. cbn [streams configs threads].
  rewrite !dict_set_fresh by congruence.
  unfold dict_values. by rewrite List.map_app.
Qed.

Lemma aligned_del mgr id s' :
  Forall2 aligned_entry (streams mgr) (configs mgr) ->
  dict_del id (streams mgr) = Some s' ->
  exists c', dict_del id (configs mgr) = Some c' /\
    Forall2 aligned_entry s' c'.
Proof.
  generalize (streams mgr) (configs mgr). clear mgr.
  intros ss cs Hal. revert s'.
  induction Hal as [|[k p] [k' c] ss cs Hent Hal IH]; intros s'; cbn.
  - done.
  - pose proof Hent as (Hk & _). cbn in Hk. subst k'.
    destruct (String.eqb_spec id k) as [->|Hne].
    + intros [= <-]. eauto.
    + destruct (dict_del id ss) as [s0|]; [|done]. intros [= <-].
      destruct (IH s0 eq_refl) as (c0 & -> & Hal0).
      eexists. split; [done|]. constructor; [|done]. done.
Qed.

Lemma dict_del_same_keys {A B : Type} (d1 : dict A) (d2 : dict B) k d1' :
  List.map fst d2 = List.map fst d1 ->
  dict_del k d1 = Some d1' ->
  exists d2', dict_del k d2 = Some d2' /\ List.map fst d2' = List.map fst d1'.
Proof.
  revert d2 d1'; induction d1 as [|[k1 v1] d1 IH]; intros [|[k2 v2] d2] d1';
    cbn; try done.
  intros [= -> Hk]. destruct (String.eqb_spec k k1) as [->|Hne].
  - intros [= <-]. eauto.
  - destruct (dict_del k d1) as [d0|]; [|done]. intros [= <-].
    destruct (IH d2 d0 Hk eq_refl) as (d2' & -> & Hk').
    eexists. split; [done|]. cbn. by rewrite Hk'.
Qed.

Lemma dict_get_same_keys {A B : Type} (d1 : dict A) (d2 : dict B) k v :
  List.map fst d2 = List.map fst d1 ->
  dict_get k d1 = Some v -> exists w, dict_get k d2 = Some w.
Proof.
  revert d2; induction d1 as [|[k1 v1] d1 IH]; intros [|[k2 v2] d2]; cbn; try done.
  intros [= -> Hk]. destruct (String.eqb_spec k k1); [eauto|]. by apply IH.
Qed.

Lemma dict_get_del {A : Type} (d : dict A) k v :
  dict_get k d = Some v -> exists d', dict_del k d = Some d'.
Proof.
  induction d as [|[k1 v1] d IH]; cbn; [done|].
  destruct (String.eqb_spec k k1); [eauto|].
  intros Hg. destruct (IH Hg) as [d' ->]. eauto.
Qed.

Lemma NoDup_del_keys {A : Type} (d d' : dict A) k :
  dict_del k d = Some d' -> NoDup (dict_keys d) -> NoDup (dict_keys d').
Proof.
  intros Hd Hnd. apply dict_del_keys in Hd as (d1 & v & d2 & -> & -> & _).
  unfold dict_keys in *. rewrite fmap_app in *. cbn in Hnd.
  apply NoDup_app in Hnd as (H1 & H2 & H3). apply NoDup_cons in H3 as [_ H3].
  apply NoDup_app. split; [done|]. split; [|done].
  intros x Hx Hx'. apply (H2 x Hx). by right.
Qed.

Lemma remove_stream_unknown r id joined :
  dict_mem id (streams (manager r)) = false ->
  remove_stream r id joined = (r, Returned false, []).
Proof.
  intros Hm. unfold remove_stream. unfold dict_mem in Hm.
  by destruct (dict_get id (streams (manager r))).
Qed.

Lemma remove_stream_known r id joined :
  registry_inv r -> json_error r = None ->
  dict_mem id (streams (manager r)) = true ->
  exists r', (remove_stream r id joined).1 = (r', Returned true) /\
    dict_del id (streams (manager r)) = Some (streams (manager r')) /\
    dict_del id (configs (manager r)) = Some (configs (manager r')) /\
    dict_del id (threads (manager r)) = Some (threads (manager r')) /\
    registry_inv r' /\
    thread_error r' = thread_error r /\ json_error r' = None.
Proof.
  intros ((Hnd & Hc & Ht) & (Hal & Hth) & Hjson) Hjs Hm.
  unfold remove_stream. unfold dict_mem in Hm.
  destruct (dict_get id (streams (manager r))) as [p|] eqn:Hp; [|done].
  destruct (dict_get_same_keys _ (threads (manager r)) id p Hth Hp) as [th ->].
  destruct (dict_get_del _ _ _ Hp) as [s' Hs'].
  destruct (aligned_del _ _ _ Hal Hs') as (c' & Hc' & Hal').
  destruct (dict_del_same_keys _ (threads (manager r)) _ _ Hth Hs')
    as (t' & Ht' & Hkt).
  rewrite Hs', Hc', Ht', Hjs. cbn [fst].
  eexists. split; [reflexivity|].
  cbn [manager streams configs threads streams_json thread_error json_error].
  split; [done|]. split; [done|]. split; [done|].
  assert (Hkc : dict_keys c' = dict_keys s').
  { clear -Hal'. unfold dict_keys.
    induction Hal' as [|[k p] [k' c] ss cs (Hk & _) _ IH]; [done|].
    cbn in *. by rewrite Hk, IH. }
  split; [|done].
  split; [|split; [split; [done|done]|done]].
  unfold registry_ok; cbn [manager streams configs threads].
  split; [by apply (NoDup_del_keys _ _ _ Hs')|]. split; [done|].
  exact Hkt.
Qed.

Lemma registry_inv_add_fresh r cfg now :
  registry_inv r -> benign r ->
  dict_mem (stream_id cfg) (streams (manager r)) = false ->
  int_fits_float (ad_interval cfg) = true ->
  registry_inv (add_stream r cfg now).1.1 /\
  benign (add_stream r cfg now).1.1 /\
  (add_stream r cfg now).1.2 = Returned true.
Proof.
  intros (Hok & (Hal & Hth) & Hjson) Hben Hm Hfit.
  rewrite add_stream_fresh by done. cbn [fst snd].
  split; [|split; [by split|done]].
  pose proof Hok as (Hnd & Hc & Ht).
  assert (Hfresh : stream_id cfg ∉ dict_keys (streams (manager r))).
  { intros Hin. apply dict_mem_keys in Hin. congruence. }
  split; [|split; [split|]]; cbn [manager streams configs threads streams_json].
  - unfold registry_ok; cbn [manager streams configs threads].
    unfold dict_keys in *. rewrite !fmap_app. cbn. rewrite Hc, Ht.
    split; [|done]. apply NoDup_app. split; [done|].
    split; [|apply NoDup_singleton].
    intros x Hx Hx'. apply list_elem_of_singleton in Hx'. by subst.
  - apply Forall2_app; [done|]. constructor; [|constructor].
    unfold aligned_entry. done.
  - rewrite !List.map_app. cbn. by rewrite Hth.
  - unfold dict_values. by rewrite List.map_app.
Qed.

(** One call of [add_stream] keeps the invariant: it returns, or its
    constructor raises and nothing changes. *)
Lemma registry_inv_add r cfg now :
  registry_inv r -> benign r ->
  registry_inv (add_stream r cfg now).1.1 /\
  benign (add_stream r cfg now).1.1 /\
  ((exists b, (add_stream r cfg now).1.2 = Returned b) \/
   (int_fits_float (ad_interval cfg) = false /\
    (add_stream r cfg now).1 = (r, Raised OverflowError))).
Proof.
  intros Hinv Hben.
  destruct (dict_mem (stream_id cfg) (streams (manager r))) eqn:Hm.
  - rewrite add_stream_known by done. eauto.
  - destruct (int_fits_float (ad_interval cfg)) eqn:Hfit.
    + destruct (registry_inv_add_fresh r cfg now Hinv Hben Hm Hfit)
        as (Hinv' & Hben' & Hret). eauto.
    + unfold add_stream, HLSProcessor_new. rewrite Hm, Hfit. cbn [fst snd].
      eauto.
Qed.

Lemma registry_inv_start : registry_inv (@registry_at_start T []).
Proof.
  unfold registry_inv, registry_ok, entries_aligned; cbn.
  repeat split; try done; constructor.
Qed.



Lemma restore_streams_fresh (saved : list StreamConfig) r clock i :
  registry_ok r -> entries_aligned (manager r) -> benign r ->
  NoDup (List.map stream_id saved) ->
  Forall (fun cfg => int_fits_float (ad_interval cfg) = true) saved ->
  (forall cfg, cfg ∈ saved ->
     dict_mem (stream_id cfg) (streams (manager r)) = false) ->
  let r' := restore_streams r saved clock i in
  registry_ok r' /\ entries_aligned (manager r') /\
  configs (manager r')
  = configs (manager r) ++ List.map (fun cfg => (stream_id cfg, cfg)) saved /\
  streams_json r'
  = match saved with
    | [] => streams_json r
    | _ => dict_values (configs (manager r'))
    end /\
  forall id p, dict_get id (streams (manager r')) = Some p ->
    dict_get id (streams (manager r)) = Some p \/
    exists cfg t, cfg ∈ saved /\ stream_id cfg = id /\
                  p = HLSProcessor_init cfg t.
Proof.
  cbn zeta. revert r i; induction saved as [|cfg saved IH];
    intros r i Hok Hal Hben Hnd Hfits Hfr.
  - cbn. split; [done|]. split; [done|]. split; [by rewrite app_nil_r|].
    split; [done|]. eauto.
  - cbn [restore_streams]. cbn in Hnd. apply NoDup_cons in Hnd as [Hcfg Hnd].
    pose proof (Hfr cfg ltac:(by left)) as Hm.
    apply Forall_cons in Hfits as [Hfit Hfits].
    pose proof (add_stream_fresh r cfg (clock i) Hok Hben Hm Hfit) as Hadd.
    set (r1 := (add_stream r cfg (clock i)).1.1) in *.
    assert (Hr1 : r1
              = {| manager :=
                     {| streams := streams (manager r)
                          ++ [(stream_id cfg, HLSProcessor_init cfg (clock i))];
                        configs := configs (manager r) ++ [(stream_id cfg, cfg)];
                        threads := threads (manager r)
                          ++ [(stream_id cfg,
                               {| thread_name := "Stream-" +:+ stream_id cfg;
                                  daemon := true |})] |};
                   streams_json := dict_values (configs (manager r)) ++ [cfg];
                   thread_error := None; json_error := None |}).
    { unfold r1. by rewrite Hadd. }
    pose proof Hok as (Hnd0 & Hc & Ht). destruct Hal as [Hal Hth].
    assert (Hfresh : stream_id cfg ∉ dict_keys (streams (manager r))).
    { intros Hin. apply dict_mem_keys in Hin. congruence. }
    assert (Hok1 : registry_ok r1).
    { rewrite Hr1. unfold registry_ok; cbn [manager streams configs threads].
      unfold dict_keys in *. rewrite !fmap_app. cbn. rewrite Hc, Ht.
      split; [|done]. apply NoDup_app. split; [done|].
      split; [|apply NoDup_singleton].
      intros x Hx Hx'. apply list_elem_of_singleton in Hx'. by subst. }
    assert (Hal1 : entries_aligned (manager r1)).
    { rewrite Hr1. split; cbn [manager streams configs threads].
      - apply Forall2_app; [done|]. constructor; [|constructor].
        unfold aligned_entry. done.
      - rewrite !List.map_app. cbn. by rewrite Hth. }
    assert (Hben1 : benign r1) by (rewrite Hr1; by split).
    destruct (IH r1 (S i) Hok1 Hal1 Hben1 Hnd Hfits)
      as (Hok2 & Hal2 & Hcfgs & Hjson & Hws).
    { intros cfg' Hin. rewrite Hr1. cbn [manager streams].
      unfold dict_mem.
      destruct (dict_get (stream_id cfg') (streams (manager r) ++ _)) eqn:Hg; [|done].
      exfalso.
      assert (Hk : stream_id cfg' ∈ dict_keys
                (streams (manager r)
                 ++ [(stream_id cfg, HLSProcessor_init cfg (clock i))])).
      { apply dict_mem_keys. unfold dict_mem. by rewrite Hg. }
      unfold dict_keys in Hk. rewrite fmap_app in Hk.
      apply elem_of_app in Hk as [Hk|Hk].
      - apply dict_mem_keys in Hk. rewrite Hfr in Hk; [done|by right].
      - cbn in Hk. apply list_elem_of_singleton in Hk.
        apply Hcfg. rewrite <- Hk. apply list_elem_of_In, in_map.
        by apply list_elem_of_In. }
    split; [done|]. split; [done|]. split; [|split].
    + rewrite Hcfgs, Hr1. cbn [manager configs]. by rewrite <- app_assoc.
    + rewrite Hjson. destruct saved; [|done].
      cbn [restore_streams]. rewrite Hr1.
      cbn [manager configs streams_json]. unfold dict_values.
      by rewrite List.map_app.
    + intros id p Hg. destruct (Hws id p Hg) as [Hold|(c & t & Hin & Hid & Hp)].
      * rewrite Hr1 in Hold. cbn [manager streams] in Hold.
        destruct (dict_get id (streams (manager r))) as [p0|] eqn:Hg0.
        -- left. clear -Hold Hg0.
           induction (streams (manager r)) as [|[k v] l IHl]; [done|].
           cbn in *. destruct (String.eqb id k); [congruence|]. by apply IHl.
        -- right. exists cfg, (clock i). split; [by left|].
           clear -Hold Hg0.
           induction (streams (manager r)) as [|[k v] l IHl].
           ++ cbn in Hold. destruct (String.eqb_spec id (stream_id cfg)); [|done].
              by injection Hold as <-.
           ++ cbn in *. destruct (String.eqb id k); [done|]. by apply IHl.
      * right. exists c, t. split; [by right|done].
Qed.

(** X17: restart round trip.  A process that starts from the
    [streams.json] left by a consistent registry and registers its entries
    again ends with the same [configs] dict, ids and order included,
    writes the same [streams.json], has a worker under every id, and every
    worker is a fresh one: outside a break, with a counter of zero, and
    carrying the configuration that was stored under its id.  The file is
    modelled by the list of configurations that it encodes. *)
Theorem restore_round_trip r clock :
  registry_inv r ->
  let r' := restore_streams (registry_at_start (streams_json r))
              (streams_json r) clock 0 in
  configs (manager r') = configs (manager r) /\
  streams_json r' = streams_json r /\
  dict_keys (streams (manager r')) = dict_keys (streams (manager r)) /\
  forall id p, dict_get id (streams (manager r')) = Some p ->
    in_ad_break p = false /\ segments_processed p = 0 /\
    dict_get id (configs (manager r)) = Some (config p).
Proof.
  intros Hinv. pose proof Hinv as ((Hnd & Hc & Ht) & (Hal & Hth) & Hjson).
  assert (Hvals : List.map (fun cfg => (stream_id cfg, cfg))
                    (dict_values (configs (manager r)))
                  = configs (manager r)).
  { clear -Hal. unfold dict_values.
    induction Hal as [|[k p] [k' c] ss cs (_ & _ & Hid & _) _ IH]; [done|].
    cbn in *. by rewrite Hid, IH. }
  assert (Hfits : Forall (fun cfg => int_fits_float (ad_interval cfg) = true)
                    (streams_json r)).
  { rewrite Hjson. clear -Hal. unfold dict_values.
    induction Hal as [|[k p] [k' c] ss cs (_ & _ & _ & Hfit) _ IH];
      [constructor|].
    cbn in *. by constructor. }
  assert (Hids : List.map stream_id (streams_json r)
                 = dict_keys (configs (manager r))).
  { rewrite Hjson. clear -Hal. unfold dict_values, dict_keys.
    induction Hal as [|[k p] [k' c] ss cs (_ & _ & Hid & _) _ IH]; [done|].
    cbn in *. by rewrite Hid, IH. }
  destruct (restore_streams_fresh (streams_json r)
              (registry_at_start (streams_json r)) clock 0)
    as (Hok' & Hal' & Hcfgs & Hj & Hws).
  { unfold registry_ok; cbn. repeat split; try done. constructor. }
  { unfold entries_aligned; cbn. split; [constructor|done]. }
  { by split. }
  { rewrite Hids, Hc. done. }
  { exact Hfits. }
  { done. }
  cbn zeta.
  set (r' := restore_streams (registry_at_start (streams_json r))
               (streams_json r) clock 0) in *.
  cbn [registry_at_start manager configs streams_json app] in Hcfgs, Hj.
  unfold StreamManager_init in Hcfgs. cbn [configs app] in Hcfgs.
  rewrite Hjson in Hcfgs at 1. rewrite Hvals in Hcfgs.
  split; [exact Hcfgs|]. split; [|split].
  - rewrite Hj. rewrite Hcfgs, <- Hjson. by destruct (streams_json r).
  - destruct Hok' as (_ & Hc' & _). rewrite <- Hc', Hcfgs. done.
  - intros id p Hg. destruct (Hws id p Hg) as [Hold|(c & t & Hin & Hid & ->)].
    + cbn in Hold. done.
    + cbn [HLSProcessor_init in_ad_break segments_processed config].
      split; [done|]. split; [done|].
      rewrite Hjson in Hin. unfold dict_values in Hin.
      apply list_elem_of_In, in_map_iff in Hin as ([k c'] & Hc2 & Hin).
      cbn in Hc2. subst c'.
      assert (Hk : k = id).
      { clear -Hal Hin Hid. apply list_elem_of_In in Hin.
        induction Hal as [|[k1 p1] [k2 c2] ss cs (_ & _ & Hid2 & _) _ IH].
        - by apply elem_of_nil in Hin.
        - apply elem_of_cons in Hin as [[= -> ->]|Hin]; [|by apply IH].
          cbn in Hid2. congruence. }
      subst k.
      assert (Hndc : NoDup (dict_keys (configs (manager r)))) by (by rewrite Hc).
      clear -Hin Hndc. unfold dict_keys in Hndc.
      induction (configs (manager r)) as [|[k1 c1] l IHl]; [done|].
      cbn in *. apply NoDup_cons in Hndc as [Hk1 Hndc].
      destruct Hin as [[= -> ->]|Hin].
      * by rewrite String.eqb_refl.
      * destruct (String.eqb_spec id k1) as [->|_]; [|by apply IHl].
        destruct Hk1. apply list_elem_of_In.
        change k1 with (fst (k1, c)). apply in_map. done.
Qed.

End RegistryMore.

Section ViewsFacts.
Context {T : Type} `{Clock T}.
Variable t_round : T -> Z.
Variable is_alive : Thread -> bool.

Lemma get_stream_status_known (r : @registry T) id now :
  registry_ok r ->
  id ∈ dict_keys (streams (manager r)) ->
  exists st, get_stream_status t_round is_alive (manager r) id now = Ok st /\
             status_describes (manager r) id st.
Proof.
  intros (Hnd & Hc & Ht) Hin. unfold get_stream_status.
  destruct (dict_get id (streams (manager r))) as [p|] eqn:Hp.
  2:{ apply dict_get_None in Hp. done. }
  destruct (dict_get id (configs (manager r))) as [cfg|] eqn:Hcfg.
  2:{ apply dict_get_None in Hcfg. congruence. }
  destruct (dict_get id (threads (manager r))) as [th|] eqn:Hth.
  2:{ apply dict_get_None in Hth. congruence. }
  eexists. split; [reflexivity|].
  eexists _, p, cfg. split; [reflexivity|]. cbn.
  repeat split; try done.
  - intros Hr. by apply andb_true_iff in Hr as [? _].
  - intros ->. done.
Qed.

(** X18: [list_streams] reports every stream.  When the three dicts hold
    the same ids, [list_streams] raises no [KeyError] and returns one
    status per registered id, in the order of the ids; each status names
    its id, repeats [in_ad_break], [segments_processed], [ad_duration] and
    [ad_interval] of that stream, says [running] only for a worker whose
    flag is set, and gives [next_ad_in = 0] inside a break.  For an id that
    is not registered [get_stream_status] returns the error entry. *)
Theorem list_streams_reports_every_stream (r : @registry T) clock :
  registry_ok r ->
  (exists sts,
     list_streams t_round is_alive (manager r) clock = Ok sts /\
     Forall2 (status_describes (manager r))
       (dict_keys (streams (manager r))) sts) /\
  (forall id now, dict_mem id (streams (manager r)) = false ->
     get_stream_status t_round is_alive (manager r) id now = Ok StatusError).
Proof.
  intros Hok. split.
  - unfold list_streams.
    assert (Hgen : forall ids i,
              (forall id, id ∈ ids -> id ∈ dict_keys (streams (manager r))) ->
              exists sts,
                statuses_of t_round is_alive (manager r) ids clock i = Ok sts /\
                Forall2 (status_describes (manager r)) ids sts).
    { induction ids as [|id ids IH]; intros i Hall; cbn.
      - exists []. split; [done|constructor].
      - destruct (get_stream_status_known r id (clock i) Hok) as (st & -> & Hst).
        { apply Hall. by left. }
        destruct (IH (S i)) as (sts & -> & Hsts).
        { intros id' Hin. apply Hall. by right. }
        exists (st :: sts). split; [done|]. by constructor. }
    apply Hgen. intros id Hin. exact Hin.
  - intros id now Hm. unfold get_stream_status. unfold dict_mem in Hm.
    by destruct (dict_get id (streams (manager r))).
Qed.

End ViewsFacts.


Lemma restore_round_trip_witness :
  let cfg := {| stream_id := "other"; input_url := "http://origin/o.m3u8";
                output_path := "./output/other";
                ad_duration := 15; ad_interval := 120; enabled := true |} in
  let r := (add_stream (add_stream (@registry_at_start Q []) demo_config 0%Q).1.1
              cfg (5 # 1)%Q).1.1 in
  let r' := restore_streams (registry_at_start (streams_json r))
              (streams_json r) (fun i => inject_Z (1000 + Z.of_nat i)) 0 in
  registry_inv r /\
  streams_json r = [demo_config; cfg] /\
  configs (manager r') = configs (manager r) /\
  streams_json r' = streams_json r /\
  dict_keys (streams (manager r')) = dict_keys (streams (manager r)) /\
  forall id p, dict_get id (streams (manager r')) = Some p ->
    in_ad_break p = false /\ segments_processed p = 0 /\
    dict_get id (configs (manager r)) = Some (config p).
Proof.
  intros cfg r r'.
  assert (Hinv : registry_inv r).
  { destruct (registry_inv_add_fresh (registry_at_start []) demo_config 0%Q)
      as (Hinv1 & Hben1 & _);
      [apply registry_inv_start|by split|reflexivity|reflexivity|].
    by apply registry_inv_add_fresh. }
  split; [exact Hinv|]. split; [reflexivity|].
  exact (restore_round_trip r (fun i => inject_Z (1000 + Z.of_nat i)) Hinv).
Defined.

Lemma list_streams_reports_every_stream_witness :
  let r := (add_stream (@registry_at_start Q []) demo_config 0%Q).1.1 in
  let alive := fun _ : Thread => true in
  registry_ok r /\
  (exists sts,
     list_streams Qtrunc alive (manager r) (fun _ => (100 # 1)%Q) = Ok sts /\
     Forall2 (status_describes (manager r)) ["live"] sts) /\
  get_stream_status Qtrunc alive (manager r) "other" (100 # 1)%Q
  = Ok StatusError.
Proof.
  intros r alive.
  assert (Hok : registry_ok r).
  { apply (registry_inv_add_fresh (registry_at_start []) demo_config 0%Q);
      [apply registry_inv_start|by split|reflexivity|reflexivity]. }
  split; [exact Hok|].
  destruct (list_streams_reports_every_stream Qtrunc alive r
              (fun _ => (100 # 1)%Q) Hok) as [Hlist Hmiss].
  split; [exact Hlist|]. apply Hmiss. reflexivity.
Defined.

(** ** More on the EXTINF rewriting *)

Lemma digits_value_uint_acc u acc :
  digits_value (Z.pos acc) (NilEmpty.string_of_uint u)
  = Z.pos (Pos.of_uint_acc u acc).
Proof.
  revert acc; induction u; intros acc; cbn [NilEmpty.string_of_uint digits_value Pos.of_uint_acc];
    [done|..];
    match goal with
    | |- digits_value ?a _ = Z.pos (Pos.of_uint_acc _ ?p) =>
        replace a with (Z.pos p) by (cbn; lia)
    end; apply IHu.
Qed.

Lemma digits_value_uint u :
  digits_value 0 (NilEmpty.string_of_uint u) = Z.of_N (Pos.of_uint u).
Proof.
  induction u; cbn [NilEmpty.string_of_uint digits_value Pos.of_uint];
    [done| |..].
  - exact IHu.
  - apply (digits_value_uint_acc u 1).
  - apply (digits_value_uint_acc u 2).
  - apply (digits_value_uint_acc u 3).
  - apply (digits_value_uint_acc u 4).
  - apply (digits_value_uint_acc u 5).
  - apply (digits_value_uint_acc u 6).
  - apply (digits_value_uint_acc u 7).
  - apply (digits_value_uint_acc u 8).
  - apply (digits_value_uint_acc u 9).
Qed.

Lemma all_digits_uint u : all_digits (NilEmpty.string_of_uint u) = true.
Proof. induction u; cbn; done. Qed.

Lemma str_int_pos p :
  str_int (Z.pos p) = NilEmpty.string_of_uint (Pos.to_uint p).
Proof.
  unfold str_int. cbn. unfold NilZero.string_of_uint.
  pose proof (Unsigned.to_uint_nonnil p) as Hn.
  by destruct (Pos.to_uint p).
Qed.

(** [str] of a natural number is a run of digits that reads back as the
    number. *)
Lemma str_int_digits z :
  0 <= z -> digit_run (str_int z) = true /\ digits_value 0 (str_int z) = z.
Proof.
  intros Hz. destruct z as [|p|p]; [done| |lia].
  rewrite str_int_pos. split.
  - unfold digit_run. rewrite all_digits_uint, andb_true_r.
    pose proof (Unsigned.to_uint_nonnil p) as Hn.
    by destruct (Pos.to_uint p).
  - rewrite digits_value_uint, Unsigned.of_to. done.
Qed.

Lemma strip_prefix_sound p s t : strip_prefix p s = Some t -> s = p +:+ t.
Proof.
  revert s; induction p as [|a p IH]; intros s; cbn.
  - by intros [= ->].
  - destruct s as [|b s]; [done|].
    destruct (Ascii.eqb_spec a b) as [->|]; [|done].
    intros Hs. rewrite append_cons. f_equal. by apply IH.
Qed.

Lemma span_digits_sound s :
  s = (span_digits s).1 +:+ (span_digits s).2 /\
  all_digits (span_digits s).1 = true.
Proof.
  induction s as [|c s [IH1 IH2]]; cbn; [done|].
  destruct (is_digit c) eqn:Hc; [|done].
  destruct (span_digits s) as [ds rest]. cbn in *.
  rewrite append_cons, Hc. split; [by f_equal|done].
Qed.

(** A match at the head of [s] spells the pattern. *)
Lemma match_extinf_sound s d rest :
  match_extinf s = Some (d, rest) ->
  decimal_wf d = true /\
  s = "#EXTINF:" +:+ decimal_text d +:+ "," +:+ rest.
Proof.
  unfold match_extinf.
  destruct (strip_prefix "#EXTINF:" s) as [s1|] eqn:Hp; [|done].
  apply strip_prefix_sound in Hp. subst s.
  pose proof (span_digits_sound s1) as [Hs1 Hd1].
  destruct (span_digits s1) as [ip s2]. cbn [fst snd] in *.
  destruct (is_empty ip) eqn:Hie; [done|].
  destruct s2 as [|c2 s3]; [done|].
  destruct (Ascii.eqb_spec c2 ",") as [->|Hc].
  - intros [= <- <-]. unfold decimal_wf, decimal_text, digit_run. cbn.
    rewrite Hie, Hd1. split; [done|]. by rewrite Hs1.
  - destruct (Ascii.eqb_spec c2 ".") as [->|Hdot].
    + pose proof (span_digits_sound s3) as [Hs3 Hd3].
      destruct (span_digits s3) as [fp s4]. cbn [fst snd] in *.
      destruct (is_empty fp) eqn:Hfe; [done|].
      destruct s4 as [|c4 s5]; [done|].
      destruct (Ascii.eqb_spec c4 ",") as [->|Hc4].
      * intros [= <- <-]. unfold decimal_wf, decimal_text, digit_run. cbn.
        rewrite Hie, Hd1, Hfe, Hd3. split; [done|].
        rewrite Hs1, Hs3. f_equal. rewrite !append_assoc. done.
      * destruct c4 as [[] [] [] [] [] [] [] []]; done.
    + destruct c2 as [[] [] [] [] [] [] [] []]; done.
Qed.

(** X19: the matcher is the regular expression
    [#EXTINF:([0-9]+(?:\.[0-9]+)?),] anchored at the head of the text:
    it succeeds with group 1 equal to [d] and the text [rest] left over
    exactly when the text is [#EXTINF:], then a decimal [d] made of a
    non-empty run of digits with an optional dot and second non-empty run,
    then a comma, then [rest]. *)
Theorem match_extinf_is_the_pattern s d rest :
  match_extinf s = Some (d, rest) <->
  decimal_wf d = true /\
  s = "#EXTINF:" +:+ decimal_text d +:+ "," +:+ rest.
Proof.
  split; [apply match_extinf_sound|].
  intros [Hwf ->]. by apply match_extinf_exact.
Qed.

Lemma round_half_even_div_exact k d :
  0 < d -> round_half_even_div (k * d) d = k.
Proof.
  intros Hd. unfold round_half_even_div.
  rewrite Z.div_mul by lia. rewrite Z.mod_mul by lia.
  destruct (Z.compare_spec (2 * 0) d); lia.
Qed.

Lemma binade_integer z : 0 < z -> binade z 1 = Z.log2 z.
Proof.
  intros Hz. unfold binade. change (Z.log2 1) with 0. rewrite Z.sub_0_r.
  pose proof (Z.log2_nonneg z). pose proof (Z.log2_spec z Hz) as [Hlo _].
  destruct (Z.leb_spec 0 (Z.log2 z)); [|lia].
  destruct (Z.ltb_spec z (1 * 2 ^ Z.log2 z)); [lia|done].
Qed.

Lemma round_half_even_div_one n : round_half_even_div n 1 = n.
Proof.
  rewrite <- (Z.mul_1_r n) at 1. apply round_half_even_div_exact. lia.
Qed.

(** [float] is exact on the integers below [2 ^ 53], and [round] gives
    them back. *)
Lemma float_of_integer z :
  0 <= z < 2 ^ 53 ->
  exists x, float_of_ratio z 1 = Some x /\ py_round x = z.
Proof.
  intros [Hz0 Hz]. unfold float_of_ratio.
  destruct (Z.eqb_spec z 0) as [->|Hnz]; [eexists; split; [reflexivity|done]|].
  rewrite binade_integer by lia.
  assert (Hlog : Z.log2 z < 53) by (apply Z.log2_lt_pow2; lia).
  pose proof (Z.log2_nonneg z) as Hlog0.
  set (e := Z.log2 z) in *.
  replace (Z.max (e - 52) (-1074)) with (e - 52) by lia.
  destruct (Z.leb_spec 0 (e - 52)) as [Hu|Hu].
  - replace (e - 52) with 0 by lia.
    change (1 * 2 ^ 0) with 1. rewrite round_half_even_div_one.
    change (2 ^ 0) with 1. rewrite Z.mul_1_r.
    destruct (Z.leb_spec (2 ^ 1024) z) as [Hbig|_].
    { exfalso. assert (2 ^ 53 <= 2 ^ 1024) by (apply Z.pow_le_mono_r; lia). lia. }
    cbn [andb]. eexists; split; [reflexivity|].
    unfold py_round; cbn [expo mant]. change (2 ^ 0) with 1.
    change (0 <=? 0) with true. cbn match. lia.
  - cbn [andb]. eexists; split; [reflexivity|].
    unfold py_round; cbn [expo mant].
    destruct (Z.leb_spec 0 (e - 52)); [lia|].
    rewrite round_half_even_div_one.
    apply round_half_even_div_exact. apply Z.pow_pos_nonneg; lia.
Qed.

(** X21: whole durations are kept.  A line [#EXTINF:z,] whose duration
    is written as an integer below [2 ^ 53], in the form that [str]
    prints, is rewritten to itself. *)
Theorem whole_durations_are_kept z rest out :
  0 <= z < 2 ^ 53 ->
  re_sub_extinf rest = Ok out ->
  re_sub_extinf ("#EXTINF:" +:+ str_int z +:+ "," +:+ rest)
  = Ok ("#EXTINF:" +:+ str_int z +:+ "," +:+ out).
Proof.
  intros Hz Hrest.
  destruct (str_int_digits z ltac:(lia)) as [Hrun Hval].
  set (d := {| int_digits := str_int z; frac_digits := None |}).
  assert (Hwf : decimal_wf d = true) by (unfold decimal_wf; cbn; by rewrite Hrun).
  pose proof (re_sub_extinf_at_match d rest Hwf) as Hstep.
  change (decimal_text d) with (str_int z) in Hstep.
  rewrite Hstep. unfold extinf_repl, py_float, decimal_num, decimal_scale.
  cbn [d int_digits frac_digits default String.length Z.of_nat].
  change (10 ^ 0) with 1.
  replace (str_int z +:+ "") with (str_int z)
    by (clear; induction (str_int z) as [|c s IH]; [done|rewrite append_cons; by f_equal]).
  rewrite Hval.
  change (10 ^ Z.of_nat 0) with 1.
  destruct (float_of_integer z Hz) as (x & -> & ->).
  rewrite Hrest. by rewrite !append_assoc.
Qed.

Lemma digits_value_append a b acc :
  digits_value acc (a +:+ b) = digits_value (digits_value acc a) b.
Proof.
  revert acc; induction a as [|c a IH]; intros acc; [done|].
  rewrite append_cons. cbn [digits_value]. apply IH.
Qed.

(** [float] reads [(2 k + 1) / 2], written with scale ten, exactly, and
    [round] then meets a tie. *)
Lemma float_of_half k :
  0 <= k < 2 ^ 52 ->
  exists x, float_of_ratio (10 * k + 5) 10 = Some x /\
            py_round x = (if Z.even k then k else k + 1).
Proof.
  intros [Hk0 Hk]. unfold float_of_ratio.
  destruct (Z.eqb_spec (10 * k + 5) 0) as [|_]; [lia|].
  destruct (binade_lower (10 * k + 5) 10) as (Hlo & _ & _); [lia|lia|].
  set (e := binade (10 * k + 5) 10) in *.
  assert (He : e <= 51).
  { destruct (Z.le_gt_cases e 51) as [|Hgt]; [done|exfalso].
    specialize (Hlo ltac:(lia)).
    assert (2 ^ 52 <= 2 ^ e) by (apply Z.pow_le_mono_r; lia). lia. }
  set (u := Z.max (e - 52) (-1074)).
  assert (Hu : -1074 <= u <= -1) by lia.
  destruct (Z.leb_spec 0 u) as [|_]; [lia|]. cbn [andb].
  eexists; split; [reflexivity|].
  unfold py_round; cbn [expo mant].
  destruct (Z.leb_spec 0 u) as [|_]; [lia|].
  assert (Hpow : 2 ^ (- u) = 2 * 2 ^ (- u - 1)).
  { rewrite <- Z.pow_succ_r by lia. f_equal. lia. }
  assert (HP : 0 < 2 ^ (- u - 1)) by (apply Z.pow_pos_nonneg; lia).
  set (P := 2 ^ (- u - 1)) in *. rewrite Hpow.
  replace ((10 * k + 5) * (2 * P)) with ((2 * k + 1) * P * 10) by lia.
  rewrite round_half_even_div_exact by lia.
  unfold round_half_even_div.
  replace ((2 * k + 1) * P) with (P + k * (2 * P)) by lia.
  rewrite Z.div_add, Z.mod_add by lia.
  rewrite Z.div_small, Z.mod_small by lia.
  rewrite Z.compare_refl. by rewrite Z.add_0_l.
Qed.

(** X22: halves go to the even neighbour.  A duration written [k.5] with
    [k < 2 ^ 52] is rewritten to [k] when [k] is even and to [k + 1] when
    [k] is odd: [2.5] becomes [2], [3.5] becomes [4]. *)
Theorem half_durations_round_to_even k rest out :
  0 <= k < 2 ^ 52 ->
  re_sub_extinf rest = Ok out ->
  re_sub_extinf ("#EXTINF:" +:+ str_int k +:+ ".5," +:+ rest)
  = Ok ("#EXTINF:" +:+ str_int (if Z.even k then k else k + 1) +:+ "," +:+ out).
Proof.
  intros Hk Hrest.
  destruct (str_int_digits k ltac:(lia)) as [Hrun Hval].
  set (d := {| int_digits := str_int k; frac_digits := Some "5" |}).
  assert (Hwf : decimal_wf d = true) by (unfold decimal_wf; cbn; by rewrite Hrun).
  pose proof (re_sub_extinf_at_match d rest Hwf) as Hstep.
  replace ("#EXTINF:" +:+ str_int k +:+ ".5," +:+ rest)
    with ("#EXTINF:" +:+ decimal_text d +:+ "," +:+ rest).
  2:{ unfold decimal_text; cbn [d frac_digits int_digits].
      rewrite !append_assoc. reflexivity. }
  rewrite Hstep. unfold extinf_repl, py_float, decimal_num, decimal_scale.
  cbn [d int_digits frac_digits default].
  rewrite digits_value_append, Hval.
  change (digits_value k (id "5")) with (10 * k + (53 - 48)).
  change (10 ^ Z.of_nat (String.length (id "5"))) with 10.
  replace (10 * k + (53 - 48)) with (10 * k + 5) by lia.
  destruct (float_of_half k Hk) as (x & -> & ->).
  rewrite Hrest. by rewrite !append_assoc.
Qed.

Lemma count_char_append c a b :
  count_char c (a +:+ b) = (count_char c a + count_char c b)%nat.
Proof.
  induction a as [|x a IH]; [done|]. rewrite append_cons. cbn. rewrite IH. lia.
Qed.

Lemma count_char_digits c s :
  is_digit c = false -> all_digits s = true -> count_char c s = 0%nat.
Proof.
  intros Hc. induction s as [|x s IH]; [done|]. cbn.
  intros Hs. apply andb_true_iff in Hs as [Hx Hs].
  destruct (Ascii.eqb_spec x c) as [->|_]; [congruence|]. by rewrite IH.
Qed.

Lemma count_char_decimal c d :
  is_digit c = false -> c <> "."%char -> decimal_wf d = true ->
  count_char c (decimal_text d) = 0%nat.
Proof.
  intros Hc Hdot Hwf. unfold decimal_wf in Hwf. unfold decimal_text.
  apply andb_true_iff in Hwf as [Hi Hf]. apply digit_run_inv in Hi as [_ Hi].
  destruct (frac_digits d) as [f|]; [|by apply count_char_digits].
  apply digit_run_inv in Hf as [_ Hf].
  rewrite count_char_append, (count_char_digits c (int_digits d)) by done.
  change ("." +:+ f) with (String "." f). cbn [count_char].
  rewrite (count_char_digits c f) by done.
  destruct (Ascii.eqb_spec "." c) as [<-|_]; done.
Qed.

(** [float] of a non-negative ratio rounds to a non-negative integer. *)
Lemma py_round_nonneg n s x :
  0 <= n -> 0 < s -> float_of_ratio n s = Some x -> 0 <= py_round x.
Proof.
  intros Hn Hs. unfold float_of_ratio.
  destruct (n =? 0); [by intros [= <-]|].
  set (u := Z.max _ _).
  destruct (Z.leb_spec 0 u) as [Hu|Hu]; cbn [andb].
  - assert (0 < 2 ^ u) by (apply Z.pow_pos_nonneg; lia).
    destruct (2 ^ 1024 <=? _); [done|]. intros [= <-].
    unfold py_round; cbn [expo mant].
    destruct (Z.leb_spec 0 u); [|lia].
    assert (0 <= round_half_even_div n (s * 2 ^ u))
      by (apply round_half_even_div_nonneg; lia).
    lia.
  - intros [= <-]. unfold py_round; cbn [expo mant].
    destruct (Z.leb_spec 0 u); [lia|].
    assert (0 < 2 ^ (- u)) by (apply Z.pow_pos_nonneg; lia).
    apply round_half_even_div_nonneg; [done|].
    apply round_half_even_div_nonneg; [done|nia].
Qed.

Lemma count_char_repl c d r :
  is_digit c = false -> decimal_wf d = true -> extinf_repl d = Ok r ->
  count_char c r = count_char c ("#EXTINF:" +:+ ",").
Proof.
  intros Hc Hwf. unfold extinf_repl, py_float.
  destruct (float_of_ratio _ _) as [x|] eqn:Hx; [|done]. intros [= <-].
  apply py_round_nonneg in Hx;
    [|by apply decimal_num_nonneg|apply decimal_scale_pos].
  destruct (str_int_digits (py_round x) Hx) as [Hrun _].
  apply digit_run_inv in Hrun as [_ Hrun].
  rewrite !count_char_append. rewrite (count_char_digits c (str_int _)) by done.
  lia.
Qed.

(** X20: the rewriting changes digits and dots only.  Every character
    that is neither a digit nor a dot occurs in the rewritten text as often
    as in the text given: the newlines, the commas and the [#] of the tags
    are all kept. *)
Theorem rewriting_changes_only_digits_and_dots c s out :
  is_digit c = false -> c <> "."%char ->
  re_sub_extinf s = Ok out ->
  count_char c out = count_char c s.
Proof.
  intros Hc Hdot.
  remember (String.length s) as n eqn:Hn.
  revert s out Hn. induction n as [n IH] using lt_wf_ind. intros s out Hn.
  rewrite re_sub_extinf_step. destruct s as [|a s]; [by intros [= <-]|].
  destruct (match_extinf (String a s)) as [[d rest]|] eqn:Hm.
  - pose proof (match_extinf_rest_shorter _ _ _ Hm) as Hlen.
    apply match_extinf_sound in Hm as [Hwf Hs].
    destruct (extinf_repl d) as [r|] eqn:Hr; [|done].
    destruct (re_sub_extinf rest) as [o|] eqn:Ho; [|done].
    intros [= <-]. rewrite Hs, !count_char_append.
    rewrite (count_char_repl c d r Hc Hwf Hr), count_char_append.
    rewrite (count_char_decimal c d Hc Hdot Hwf).
    rewrite (IH (String.length rest) ltac:(lia) rest o eq_refl Ho). lia.
  - destruct (re_sub_extinf s) as [o|] eqn:Ho; [|done].
    intros [= <-]. cbn.
    rewrite (IH (String.length s) ltac:(cbn in Hn; lia) s o eq_refl Ho). done.
Qed.

(** A duration that [float] turns into the infinity makes the rewriting
    raise at that line. *)
Lemma re_sub_extinf_overflow pre d post pre' :
  decimal_wf d = true -> py_float d = None ->
  re_sub_extinf pre = Ok pre' ->
  re_sub_extinf (pre +:+ "#EXTINF:" +:+ decimal_text d +:+ "," +:+ post)
  = Raise OverflowError.
Proof.
  intros Hwf Hx Hpre.
  change ("#EXTINF:" +:+ decimal_text d +:+ "," +:+ post)
    with (String "#" ("EXTINF:" +:+ decimal_text d +:+ "," +:+ post)).
  rewrite re_sub_extinf_append_hash, Hpre.
  change (String "#" ("EXTINF:" +:+ decimal_text d +:+ "," +:+ post))
    with ("#EXTINF:" +:+ decimal_text d +:+ "," +:+ post).
  rewrite re_sub_extinf_at_match by done.
  unfold extinf_repl. by rewrite Hx.
Qed.

Lemma round_half_even_div_lower n d : n / d <= round_half_even_div n d.
Proof.
  unfold round_half_even_div.
  destruct (2 * (n mod d) ?= d); [destruct (Z.even _)| |]; lia.
Qed.

(** From [2 ^ 1024] on, [float] gives the infinity. *)
Lemma float_overflows n s :
  0 < s -> s * 2 ^ 1024 <= n -> float_of_ratio n s = None.
Proof.
  intros Hs Hn.
  assert (H1024 : 0 < 2 ^ 1024) by (by apply Z.pow_pos_nonneg).
  assert (Hn0 : 0 < n) by nia.
  unfold float_of_ratio. destruct (Z.eqb_spec n 0) as [|_]; [lia|].
  destruct (binade_lower n s Hn0 Hs) as (Hlo & _ & _).
  assert (He : 1024 <= binade n s).
  { unfold binade.
    assert (Hlog : Z.log2 s + 1024 <= Z.log2 n).
    { rewrite Z.add_comm, <- Z.log2_mul_pow2 by lia. by apply Z.log2_le_mono. }
    set (e0 := Z.log2 n - Z.log2 s) in *.
    destruct (Z.leb_spec 0 e0) as [_|]; [|lia].
    destruct (Z.ltb_spec n (s * 2 ^ e0)) as [Hb|_]; [|lia].
    assert (2 ^ 1024 < 2 ^ e0) by nia.
    assert (1024 < e0) by (apply (Z.pow_lt_mono_r_iff 2); lia). lia. }
  set (e := binade n s) in *. specialize (Hlo ltac:(lia)).
  replace (Z.max (e - 52) (-1074)) with (e - 52) by lia.
  destruct (Z.leb_spec 0 (e - 52)) as [_|]; [|lia]. cbn [andb].
  assert (HP : 0 < 2 ^ (e - 52)) by (apply Z.pow_pos_nonneg; lia).
  assert (Hsplit : 2 ^ e = 2 ^ 52 * 2 ^ (e - 52)).
  { rewrite <- Z.pow_add_r by lia. f_equal. lia. }
  pose proof (round_half_even_div_lower n (s * 2 ^ (e - 52))) as Hm.
  assert (Hq : 2 ^ 52 <= n / (s * 2 ^ (e - 52))).
  { apply Z.div_le_lower_bound; [nia|]. rewrite Hsplit in Hlo. lia. }
  assert (Hpow : 2 ^ 1024 <= 2 ^ e) by (apply Z.pow_le_mono_r; lia).
  destruct (Z.leb_spec (2 ^ 1024)
              (round_half_even_div n (s * 2 ^ (e - 52)) * 2 ^ (e - 52)))
    as [_|Hlt]; [done|].
  exfalso. rewrite Hsplit in Hpow.
  assert (2 ^ 52 * 2 ^ (e - 52)
          <= round_half_even_div n (s * 2 ^ (e - 52)) * 2 ^ (e - 52))
    by (apply Z.mul_le_mono_nonneg_r; lia).
  lia.
Qed.

Section OverflowFacts.


Context {T : Type} `{Clock T}.
Variable dumps : @M3U8 T -> string.

(** X23: a duration of [2 ^ 1024] or more keeps the old playlist.  If a
    line [#EXTINF:d,] of the text of the snapshot carries such a number,
    [round] raises [OverflowError] on the infinity that [float] returns,
    and [_save_playlist], which only logs the error, leaves the worker as
    it is, still running, and the output directory with its former
    [playlist.m3u8]. *)
Theorem huge_duration_keeps_old_playlist (self : @HLSProcessor T)
    (dir : directory) (playlist : @M3U8 T) pre d post pre' wr :
  dumps playlist = pre +:+ "#EXTINF:" +:+ decimal_text d +:+ "," +:+ post ->
  decimal_wf d = true ->
  re_sub_extinf pre = Ok pre' ->
  decimal_scale d * 2 ^ 1024 <= decimal_num d ->
  re_sub_extinf (dumps playlist) = Raise OverflowError /\
  _save_playlist dumps self (Some dir) playlist IoOk wr = (self, Some dir).
Proof.
  intros Hd Hwf Hpre Hbig.
  assert (Hx : py_float d = None)
    by (apply float_overflows; [apply decimal_scale_pos|done]).
  assert (Htext : re_sub_extinf (dumps playlist) = Raise OverflowError)
    by (rewrite Hd; by apply re_sub_extinf_overflow with pre').
  split; [exact Htext|].
  unfold _save_playlist, save_try. by rewrite Htext.
Qed.

End OverflowFacts.

Lemma huge_duration_keeps_old_playlist_witness :
  let big := "200000000000000000000000000000000000000000000000000000000000000000000000000000000000000000000000000000000000000000000000000000000000000000000000000000000000000000000000000000000000000000000000000000000000000000000000000000000000000000000000000000000000000000000000000000000000000000000000000000000000000000000" in
  let d := {| int_digits := big; frac_digits := None |} in
  let text := "#EXTM3U #EXTINF:" +:+ big +:+ ", a.ts" in
  decimal_scale d * 2 ^ 1024 <= decimal_num d /\
  re_sub_extinf (demo_dumps text (demo_playlist ["a.ts"])) = Raise OverflowError /\
  _save_playlist (demo_dumps text) demo_worker (Some (demo_dir ["a.ts"]))
    (demo_playlist ["a.ts"]) IoOk IoOk
  = (demo_worker, Some (demo_dir ["a.ts"])).
Proof.
  intros big d text.
  assert (Hbig : decimal_scale d * 2 ^ 1024 <= decimal_num d)
    by (apply Z.leb_le; vm_compute; reflexivity).
  assert (Hpre : re_sub_extinf "#EXTM3U " = Ok "#EXTM3U ")
    by (vm_compute; reflexivity).
  split; [exact Hbig|].
  apply (huge_duration_keeps_old_playlist (demo_dumps text) demo_worker
           (demo_dir ["a.ts"]) (demo_playlist ["a.ts"])
           "#EXTM3U " d " a.ts" "#EXTM3U " IoOk);
    [vm_compute; reflexivity|vm_compute; reflexivity|exact Hpre|exact Hbig].
Defined.

Lemma match_extinf_is_the_pattern_witness :
  let d := {| int_digits := "9"; frac_digits := Some "6" |} in
  decimal_wf d = true /\
  match_extinf "#EXTINF:9.6, a.ts" = Some (d, " a.ts") /\
  match_extinf "#EXTINF:9., a.ts" = None.
Proof.
  intros d. split; [reflexivity|]. split.
  - apply (match_extinf_is_the_pattern "#EXTINF:9.6, a.ts" d " a.ts").
    split; reflexivity.
  - reflexivity.
Defined.

Lemma rewriting_changes_only_digits_and_dots_witness :
  let text := "#EXTM3U #EXTINF:9.6, a.ts #EXTINF:10.4, b.ts" in
  let out := "#EXTM3U #EXTINF:10, a.ts #EXTINF:10, b.ts" in
  re_sub_extinf text = Ok out /\
  count_char "#" out = count_char "#" text /\
  count_char "," out = count_char "," text.
Proof.
  intros text out.
  assert (Hout : re_sub_extinf text = Ok out) by (vm_compute; reflexivity).
  split; [exact Hout|]. split.
  - apply (rewriting_changes_only_digits_and_dots "#" text out);
      [reflexivity|discriminate|exact Hout].
  - apply (rewriting_changes_only_digits_and_dots "," text out);
      [reflexivity|discriminate|exact Hout].
Defined.

Lemma whole_durations_are_kept_witness :
  str_int 10 = "10" /\
  re_sub_extinf "#EXTINF:10, a.ts" = Ok "#EXTINF:10, a.ts".
Proof.
  split; [reflexivity|].
  assert (Hrest : re_sub_extinf " a.ts" = Ok " a.ts")
    by (vm_compute; reflexivity).
  apply (whole_durations_are_kept 10 " a.ts" " a.ts"); [|exact Hrest].
  split; [lia|reflexivity].
Defined.

Lemma half_durations_round_to_even_witness :
  re_sub_extinf "#EXTINF:2.5, a.ts" = Ok "#EXTINF:2, a.ts" /\
  re_sub_extinf "#EXTINF:3.5, a.ts" = Ok "#EXTINF:4, a.ts".
Proof.
  assert (Hrest : re_sub_extinf " a.ts" = Ok " a.ts")
    by (vm_compute; reflexivity).
  split.
  - apply (half_durations_round_to_even 2 " a.ts" " a.ts"); [|exact Hrest].
    split; [lia|reflexivity].
  - apply (half_durations_round_to_even 3 " a.ts" " a.ts"); [|exact Hrest].
    split; [lia|reflexivity].
Defined.
